(** * log_csvv2.py: conversion of an 8-column log into a WiGLE-style CSV

    A shallow embedding of [convert_to_wigle_csv] (src/log_csvv2.py) and of
    the parts of the Python standard library it calls ([os.path], the UTF-8
    codec with an error handler, [csv.reader], [csv.writer], float
    arithmetic), followed by the properties of the converter.

    Conventions.
    - A Python [str] is a list of code points ([pystr]); a file holds bytes.
    - Code that can raise returns a [result]; [Raise e] carries the exception.
    - A Python [float] is an IEEE 754 binary64 value, modelled by [spec_float]
      with precision 53 and maximal exponent 1024.
    - The file system is a finite map from paths to file contents.
    - [os.path] is [posixpath]; the library models follow CPython 3.11. *)

From Stdlib Require Import ZArith NArith List Bool Lia SpecFloat Ascii String.
From stdpp Require Import gmap list.
Import ListNotations.

(** ** Exceptions and results *)

(** An exception is represented by the text [str(exc)] prints for it. *)
Inductive exn : Type :=
| Exn (msg : string).

Inductive result (A : Type) : Type :=
| Ok (a : A)
| Raise (e : exn).

Arguments Ok {A} a.
Arguments Raise {A} e.

Definition bind {A B : Type} (r : result A) (k : A -> result B) : result B :=
  match r with
  | Ok a => k a
  | Raise e => Raise e
  end.

Notation "'let*' x ':=' r 'in' k" := (bind r (fun x => k))
  (at level 10, x pattern, r at level 100, k at level 200).

(** ** Text *)

(** A Python [str]: a sequence of Unicode code points. *)
Definition pystr : Type := list N.

(** The [str] written by an ASCII literal of the source. *)
Definition py (s : string) : pystr :=
  map (fun a => N_of_ascii a) (list_ascii_of_string s).

(** ** [os.path] (posixpath) *)

Module PosixPath.

Local Open Scope Z_scope.

Definition sep : N := 47.      (* '/' *)
Definition extsep : N := 46.   (* '.' *)

(** [p.rfind(c)]: the index of the last [c] in [p], or [-1]. *)
Fixpoint rfind (c : N) (p : pystr) : Z :=
  match p with
  | [] => -1
  | x :: q =>
      let r := rfind c q in
      if 0 <=? r then r + 1 else if N.eqb x c then 0 else -1
  end.

(** [p[i:]] and [p[:i]] for [0 <= i]. *)
Definition slice_from (p : pystr) (i : Z) : pystr := skipn (Z.to_nat i) p.
Definition slice_to (p : pystr) (i : Z) : pystr := firstn (Z.to_nat i) p.

(** [p.rstrip('/')] *)
Fixpoint rstrip_sep (p : pystr) : pystr :=
  match p with
  | [] => []
  | c :: q =>
      match rstrip_sep q with
      | [] => if N.eqb c sep then [] else [c]
      | q' => c :: q'
      end
  end.

(** [head != sep * len(head)] *)
Definition all_sep (p : pystr) : bool := forallb (fun c => N.eqb c sep) p.

Definition basename (p : pystr) : pystr :=
  let i := rfind sep p + 1 in
  slice_from p i.

Definition dirname (p : pystr) : pystr :=
  let i := rfind sep p + 1 in
  let head := slice_to p i in
  match head with
  | [] => head
  | _ => if all_sep head then head else rstrip_sep head
  end.

(** The [while filenameIndex < dotIndex] loop of [genericpath._splitext]:
    [n] iterations remain, [k] is [filenameIndex]; the result says whether a
    character other than a dot was found before [dotIndex]. *)
Fixpoint skip_leading_dots (p : pystr) (k : nat) (n : nat) : bool :=
  match n with
  | O => false
  | S n' =>
      match nth_error p k with
      | Some c => if N.eqb c extsep then skip_leading_dots p (S k) n' else true
      | None => true
      end
  end.

Definition splitext (p : pystr) : pystr * pystr :=
  let sepIndex := rfind sep p in
  let dotIndex := rfind extsep p in
  if sepIndex <? dotIndex then
    let filenameIndex := sepIndex + 1 in
    if skip_leading_dots p (Z.to_nat filenameIndex)
         (Z.to_nat (dotIndex - filenameIndex))
    then (slice_to p dotIndex, slice_from p dotIndex)
    else (p, [])
  else (p, []).

Definition startswith_sep (p : pystr) : bool :=
  match p with
  | c :: _ => N.eqb c sep
  | [] => false
  end.

Definition endswith_sep (p : pystr) : bool := startswith_sep (rev p).

(** [os.path.join(a, b)] *)
Definition join (a b : pystr) : pystr :=
  if startswith_sep b then b
  else match a with
       | [] => a ++ b
       | _ => if endswith_sep a then a ++ b else a ++ sep :: b
       end.

End PosixPath.

(** ** The output path (lines 56-57) *)

Definition wigle_suffix : pystr := py ".wigle.csv".

Definition base_name_of (file_path : pystr) : pystr :=
  fst (PosixPath.splitext (PosixPath.basename file_path)).

Definition output_file_of (file_path : pystr) : pystr :=
  PosixPath.join (PosixPath.dirname file_path)
                 (base_name_of file_path ++ wigle_suffix).

(** ** The UTF-8 codec *)

Module Utf8.

(** The [errors] argument of [open]. *)
Inductive error_handler : Type :=
| Strict
| Ignore
| Replace.

(** What the decoder finds at the head of its input: a character encoded on
    [len] bytes, or an error whose range is the next [len] bytes. *)
Inductive step : Type :=
| Char (c : N) (len : nat)
| Invalid (reason : string) (len : nat).

Definition is_continuation (b : N) : bool :=
  (N.leb 128 b && N.leb b 191)%bool.

Definition cont_bits (b : N) : N := N.land b 63.

Definition invalid_start : string := "invalid start byte".
Definition invalid_continuation : string := "invalid continuation byte".
Definition unexpected_end : string := "unexpected end of data".

(** One step of the decoder on a non-empty input whose first byte is [b1]
    and whose following bytes are [tl]. *)
Definition next (b1 : N) (tl : list N) : step :=
  if N.ltb b1 128 then Char b1 1
  else if N.ltb b1 194 then Invalid invalid_start 1
  else if N.ltb b1 224 then
    match tl with
    | [] => Invalid unexpected_end 1
    | b2 :: _ =>
        if is_continuation b2
        then Char (N.lor (N.shiftl (N.land b1 31) 6) (cont_bits b2)) 2
        else Invalid invalid_continuation 1
    end
  else if N.ltb b1 240 then
    match tl with
    | [] => Invalid unexpected_end 1
    | b2 :: tl2 =>
        if (negb (is_continuation b2)
            || (if N.ltb b2 160 then N.eqb b1 224 else N.eqb b1 237))%bool
        then Invalid invalid_continuation 1
        else
          match tl2 with
          | [] => Invalid unexpected_end 2
          | b3 :: _ =>
              if is_continuation b3
              then Char (N.lor (N.shiftl (N.land b1 15) 12)
                           (N.lor (N.shiftl (cont_bits b2) 6) (cont_bits b3))) 3
              else Invalid invalid_continuation 2
          end
    end
  else if N.ltb b1 245 then
    match tl with
    | [] => Invalid unexpected_end 1
    | b2 :: tl2 =>
        if (negb (is_continuation b2)
            || (if N.ltb b2 144 then N.eqb b1 240 else N.eqb b1 244))%bool
        then Invalid invalid_continuation 1
        else
          match tl2 with
          | [] => Invalid unexpected_end 2
          | b3 :: tl3 =>
              if negb (is_continuation b3)
              then Invalid invalid_continuation 2
              else
                match tl3 with
                | [] => Invalid unexpected_end 3
                | b4 :: _ =>
                    if is_continuation b4
                    then Char (N.lor (N.shiftl (N.land b1 7) 18)
                                 (N.lor (N.shiftl (cont_bits b2) 12)
                                    (N.lor (N.shiftl (cont_bits b3) 6)
                                       (cont_bits b4)))) 4
                    else Invalid invalid_continuation 3
                end
          end
    end
  else Invalid invalid_start 1.

Definition replacement_character : N := 65533.

(** [bytes.decode('utf-8', errors)]: [skip] bytes of the sequence or error
    range found last are still to be passed over. *)
Fixpoint decode_from (errors : error_handler) (skip : nat)
         (bs : list Byte.byte) : result pystr :=
  match bs with
  | [] => Ok []
  | b :: rest =>
      match skip with
      | S k => decode_from errors k rest
      | O =>
          match next (Byte.to_N b) (map Byte.to_N (firstn 3 rest)) with
          | Char c len =>
              let* t := decode_from errors (Nat.pred len) rest in Ok (c :: t)
          | Invalid reason len =>
              match errors with
              | Strict => Raise (Exn reason)
              | Ignore => decode_from errors (Nat.pred len) rest
              | Replace =>
                  let* t := decode_from errors (Nat.pred len) rest in
                  Ok (replacement_character :: t)
              end
          end
      end
  end.

Definition decode (errors : error_handler) (bs : list Byte.byte)
  : result pystr :=
  decode_from errors 0 bs.

Definition byte_of_N (n : N) : Byte.byte :=
  match Byte.of_N (N.modulo n 256) with
  | Some b => b
  | None => Byte.x00
  end.

Definition is_surrogate (c : N) : bool :=
  (N.leb 55296 c && N.leb c 57343)%bool.

Definition cont_byte (c : N) (shift : N) : Byte.byte :=
  byte_of_N (N.lor 128 (N.land (N.shiftr c shift) 63)).

(** The strict encoder applied to one code point. *)
Definition encode_char (c : N) : result (list Byte.byte) :=
  if N.ltb c 128 then Ok [byte_of_N c]
  else if N.ltb c 2048 then
    Ok [byte_of_N (N.lor 192 (N.shiftr c 6)); cont_byte c 0]
  else if N.ltb c 65536 then
    if is_surrogate c then Raise (Exn "surrogates not allowed")
    else Ok [byte_of_N (N.lor 224 (N.shiftr c 12)); cont_byte c 6;
             cont_byte c 0]
  else if N.ltb c 1114112 then
    Ok [byte_of_N (N.lor 240 (N.shiftr c 18)); cont_byte c 12;
        cont_byte c 6; cont_byte c 0]
  else Raise (Exn "character out of range").

(** [str.encode('utf-8')] *)
Fixpoint encode (t : pystr) : result (list Byte.byte) :=
  match t with
  | [] => Ok []
  | c :: r =>
      let* bs := encode_char c in
      let* rs := encode r in
      Ok (bs ++ rs)
  end.

End Utf8.

(** ** Text files *)

Module TextIO.

Definition LF : N := 10.
Definition CR : N := 13.

(** Universal newlines, the reading mode of [open(path, "r")]: each of
    "\r\n" and "\r" is read as "\n". *)
Fixpoint translate_newlines (t : pystr) : pystr :=
  match t with
  | [] => []
  | c :: r =>
      if N.eqb c CR then
        LF :: match r with
              | d :: r' =>
                  if N.eqb d LF then translate_newlines r'
                  else translate_newlines r
              | [] => []
              end
      else c :: translate_newlines r
  end.

(** The lines a text file iterates over: each ends with its "\n", except
    possibly the last. [cur] is the line read so far. *)
Fixpoint lines_from (cur : pystr) (t : pystr) : list pystr :=
  match t with
  | [] => match cur with [] => [] | _ => [cur] end
  | c :: r =>
      if N.eqb c LF then (cur ++ [c]) :: lines_from [] r
      else lines_from (cur ++ [c]) r
  end.

Definition readlines (t : pystr) : list pystr :=
  lines_from [] (translate_newlines t).

End TextIO.

(** ** The [csv] module, "excel" dialect

    [csv.reader(infile)] and [csv.writer(outfile)] are created with the
    default dialect: a comma as delimiter, the double quote as quote character,
    quotes doubled inside a quoted field, no
    escape character, no skipping of initial spaces, minimal quoting, not
    strict, line terminator "\r\n". The parser states that only an escape
    character reaches are left out. *)

Module Csv.

Definition row : Type := list pystr.

Definition delimiter : N := 44.
Definition quotechar : N := 34.
Definition lineterminator : pystr := [TextIO.CR; TextIO.LF].
Definition field_limit : N := 131072.

Inductive parser_state : Type :=
| START_RECORD
| START_FIELD
| IN_FIELD
| IN_QUOTED_FIELD
| QUOTE_IN_QUOTED_FIELD
| EAT_CRNL.

(** The reader object: parser state, fields of the record being read, and
    the characters of the field being read. *)
Record reader : Type := {
  state : parser_state;
  fields : row;
  field : pystr
}.

(** The parser is fed the characters of a line and then the marker [EOL]. *)
Inductive symbol : Type :=
| Chr (c : N)
| EOL.

Definition set_state (s : parser_state) (r : reader) : reader :=
  {| state := s; fields := fields r; field := field r |}.

Definition parse_reset : reader :=
  {| state := START_RECORD; fields := []; field := [] |}.

Definition parse_save_field (r : reader) : reader :=
  {| state := state r; fields := fields r ++ [field r]; field := [] |}.

Definition parse_add_char (r : reader) (c : N) : result reader :=
  if N.leb field_limit (N.of_nat (length (field r)))
  then Raise (Exn "field larger than field limit (131072)")
  else Ok {| state := state r; fields := fields r; field := field r ++ [c] |}.

Definition is_newline (c : N) : bool :=
  (N.eqb c TextIO.LF || N.eqb c TextIO.CR)%bool.

Definition start_field (r : reader) (s : symbol) : result reader :=
  match s with
  | EOL => Ok (set_state START_RECORD (parse_save_field r))
  | Chr c =>
      if is_newline c then Ok (set_state EAT_CRNL (parse_save_field r))
      else if N.eqb c quotechar then Ok (set_state IN_QUOTED_FIELD r)
      else if N.eqb c delimiter then Ok (parse_save_field r)
      else let* r' := parse_add_char r c in Ok (set_state IN_FIELD r')
  end.

Definition parse_process_char (r : reader) (s : symbol) : result reader :=
  match state r with
  | START_RECORD =>
      match s with
      | EOL => Ok r
      | Chr c =>
          if is_newline c then Ok (set_state EAT_CRNL r)
          else start_field (set_state START_FIELD r) s
      end
  | START_FIELD => start_field r s
  | IN_FIELD =>
      match s with
      | EOL => Ok (set_state START_RECORD (parse_save_field r))
      | Chr c =>
          if is_newline c then Ok (set_state EAT_CRNL (parse_save_field r))
          else if N.eqb c delimiter
               then Ok (set_state START_FIELD (parse_save_field r))
               else parse_add_char r c
      end
  | IN_QUOTED_FIELD =>
      match s with
      | EOL => Ok r
      | Chr c =>
          if N.eqb c quotechar then Ok (set_state QUOTE_IN_QUOTED_FIELD r)
          else parse_add_char r c
      end
  | QUOTE_IN_QUOTED_FIELD =>
      match s with
      | EOL => Ok (set_state START_RECORD (parse_save_field r))
      | Chr c =>
          if N.eqb c quotechar
          then let* r' := parse_add_char r c in Ok (set_state IN_QUOTED_FIELD r')
          else if N.eqb c delimiter
               then Ok (set_state START_FIELD (parse_save_field r))
               else if is_newline c
                    then Ok (set_state EAT_CRNL (parse_save_field r))
                    else let* r' := parse_add_char r c in
                         Ok (set_state IN_FIELD r')
      end
  | EAT_CRNL =>
      match s with
      | EOL => Ok (set_state START_RECORD r)
      | Chr c =>
          if is_newline c then Ok r
          else Raise (Exn "new-line character seen in unquoted field - do you need to open the file with newline=''?")
      end
  end.

(** The characters of one line, then [EOL]. *)
Fixpoint feed_line (r : reader) (line : pystr) : result reader :=
  match line with
  | [] => parse_process_char r EOL
  | c :: l => let* r' := parse_process_char r (Chr c) in feed_line r' l
  end.

(** What iterating over a reader gives: records, then the end of the
    iteration or an exception. *)
Inductive stream : Type :=
| Stop
| Fail (e : exn)
| Yield (r : row) (s : stream).

Definition is_START_RECORD (s : parser_state) : bool :=
  match s with START_RECORD => true | _ => false end.

Definition is_IN_QUOTED_FIELD (s : parser_state) : bool :=
  match s with IN_QUOTED_FIELD => true | _ => false end.

(** [Reader_iternext], repeated until the input is exhausted: lines are
    consumed until the parser is back in [START_RECORD]; at the end of the
    input a pending field closes a last record. *)
Fixpoint read_records (r : reader) (lines : list pystr) : stream :=
  match lines with
  | [] =>
      if (negb (Nat.eqb (length (field r)) 0)
          || is_IN_QUOTED_FIELD (state r))%bool
      then Yield (fields (parse_save_field r)) Stop
      else Stop
  | l :: ls =>
      match feed_line r l with
      | Raise e => Fail e
      | Ok r' =>
          if is_START_RECORD (state r')
          then Yield (fields r') (read_records parse_reset ls)
          else read_records r' ls
      end
  end.

Definition reader_of (lines : list pystr) : stream :=
  read_records parse_reset lines.

(** *** The writer *)

Definition needs_quotes (f : pystr) : bool :=
  existsb (fun c => (N.eqb c delimiter || N.eqb c quotechar
                     || existsb (N.eqb c) lineterminator)%bool) f.

(** The characters of a field, each quote doubled. *)
Fixpoint double_quotes (f : pystr) : pystr :=
  match f with
  | [] => []
  | c :: r =>
      if N.eqb c quotechar then quotechar :: c :: double_quotes r
      else c :: double_quotes r
  end.

Definition join_append (f : pystr) : pystr :=
  if needs_quotes f then quotechar :: double_quotes f ++ [quotechar]
  else f.

Fixpoint join_fields (fs : row) : pystr :=
  match fs with
  | [] => []
  | [f] => join_append f
  | f :: rest => join_append f ++ delimiter :: join_fields rest
  end.

(** The text [writer.writerow(r)] passes to the file's [write]. *)
Definition format_row (r : row) : pystr :=
  match r with
  | [ [] ] => [quotechar; quotechar] ++ lineterminator
  | _ => join_fields r ++ lineterminator
  end.

End Csv.

(** ** Python floats and true division *)

Module PyFloat.

Definition float : Type := spec_float.

Definition prec : Z := 53.
Definition emax : Z := 1024.

Definition zero : float := S754_zero false.                          (* 0.0 *)
Definition minus_one : float := S754_finite true 4503599627370496 (-52). (* -1.0 *)
Definition hundred : float := S754_finite false 7036874417766400 (-46).  (* 100.0 *)
Definition tenth : float := S754_finite false 7205759403792794 (-56).    (* 0.1 *)

Definition mul (x y : float) : float := SFmul prec emax x y.
Definition sub (x y : float) : float := SFsub prec emax x y.
Definition abs (x : float) : float := SFabs x.
Definition ltb (x y : float) : bool := SFltb x y.
Definition leb (x y : float) : bool := SFleb x y.

(** [min(a, b)] keeps [a] unless [b < a]. *)
Definition min (a b : float) : float := if ltb b a then b else a.

(** An integer as an unrounded mantissa with exponent 0. *)
Definition of_int (n : N) : float :=
  match n with
  | N0 => zero
  | Npos p => S754_finite false p 0
  end.

(** [a / b] on integers: the quotient correctly rounded to a float. *)
Definition int_truediv (a b : N) : result float :=
  match b with
  | N0 => Raise (Exn "division by zero")
  | Npos _ =>
      match SFdiv prec emax (of_int a) (of_int b) with
      | S754_infinity _ =>
          Raise (Exn "integer division result too large for a float")
      | q => Ok q
      end
  end.

End PyFloat.

(** ** The environment of a run *)

(** The file system and the outcome of each operation that depends on it.
    A fault is the exception an operation raises; [None] lets the operation
    proceed. Reads are numbered by the calls of [next(reader)], writes by the
    calls of [writer.writerow], both from 0; [tell k] is what [infile.tell()]
    gives once [k] calls of [next(reader)] were made. Printing on the status
    stream and closing the files are taken not to fail. *)
Record world : Type := {
  fs : gmap pystr (list Byte.byte);
  getsize_fault : option exn;
  open_in_fault : option exn;
  open_out_fault : option exn;
  read_fault : nat -> option exn;
  write_fault : nat -> option exn;
  tell : nat -> result N
}.

Definition no_such_file : exn := Exn "[Errno 2] No such file or directory".

(** [os.path.getsize(path)] *)
Definition getsize (w : world) (path : pystr) : result N :=
  match getsize_fault w with
  | Some e => Raise e
  | None =>
      match fs w !! path with
      | Some content => Ok (N.of_nat (length content))
      | None => Raise no_such_file
      end
  end.

(** [open(path, "r", encoding="utf-8", errors="ignore")]: the bytes the file
    object will read. *)
Definition open_read (w : world) (path : pystr) : result (list Byte.byte) :=
  match open_in_fault w with
  | Some e => Raise e
  | None =>
      match fs w !! path with
      | Some content => Ok content
      | None => Raise no_such_file
      end
  end.

(** [open(path, "w", newline="", encoding="utf-8")]: the file is created or
    truncated. *)
Definition open_write (w : world) (path : pystr)
  : result (gmap pystr (list Byte.byte)) :=
  match open_out_fault w with
  | Some e => Raise e
  | None => Ok (<[path := []]> (fs w))
  end.

(** ** The status stream *)

(** One entry per [print] of [convert_to_wigle_csv]; the formatting of the
    numbers is left out. *)
Inductive status_line : Type :=
| Starting (input output : pystr)
| Progress (rows : nat) (pct : PyFloat.float)
| ClearLine
| Summary (rows : nat) (final_pct : PyFloat.float)
| ErrorLine (e : exn).

(** ** [convert_to_wigle_csv] *)

Definition header : Csv.row :=
  [py "MAC"; py "SSID"; py "AuthMode"; py "FirstSeen"; py "Channel"; py "RSSI";
   py "CurrentLatitude"; py "CurrentLongitude"].

Definition update_every : nat := 500.

(** [writer.writerow(r)] on the output file whose content is [content]; the
    file is opened with [newline=""], so the text is encoded as it is. *)
Definition writerow (fault : option exn) (r : Csv.row)
           (content : list Byte.byte) : result (list Byte.byte) :=
  match fault with
  | Some e => Raise e
  | None =>
      let* bs := Utf8.encode (Csv.format_row r) in
      Ok (content ++ bs)
  end.

(** [mac, ssid, authmode, firstseen, channel, rssi, lat, lon = row[:8]]
    followed by the list [[mac, ..., lon]] passed to the writer. *)
Definition unpack8 (l : list pystr) : result Csv.row :=
  match l with
  | [mac; ssid; authmode; firstseen; channel; rssi; lat; lon] =>
      Ok [mac; ssid; authmode; firstseen; channel; rssi; lat; lon]
  | _ =>
      Raise (Exn "not enough values to unpack (expected 8)")
  end.

(** The variables of the loop, the content of the output file and the lines
    printed so far. *)
Record loop_state : Type := {
  processed : nat;
  last_printed_pct : PyFloat.float;
  outfile : list Byte.byte;
  status : list status_line
}.

(** [min(100.0, infile.tell() / total_bytes * 100.0)] *)
Definition percent (position : result N) (total_bytes : N)
  : result PyFloat.float :=
  let* pos := position in
  let* q := PyFloat.int_truediv pos total_bytes in
  Ok (PyFloat.min PyFloat.hundred (PyFloat.mul q PyFloat.hundred)).

(** [total_bytes and total_bytes > 0] *)
Definition size_known (total_bytes : option N) : option N :=
  match total_bytes with
  | Some n => if N.ltb 0 n then Some n else None
  | None => None
  end.

(** Lines 88-93. *)
Definition checkpoint_pct (total_bytes : option N) (position : result N)
  : PyFloat.float :=
  match size_known total_bytes with
  | Some n =>
      match percent position n with
      | Ok pct => pct
      | Raise _ => PyFloat.zero
      end
  | None => PyFloat.zero
  end.

(** Lines 101-107. *)
Definition final_pct (total_bytes : option N) (position : result N)
  : PyFloat.float :=
  match size_known total_bytes with
  | Some n =>
      match percent position n with
      | Ok pct => pct
      | Raise _ => PyFloat.hundred
      end
  | None => PyFloat.hundred
  end.

(** Line 96: [abs(pct - last_printed_pct) >= 0.1 or last_printed_pct < 0]. *)
Definition redraw (pct last : PyFloat.float) : bool :=
  (PyFloat.leb PyFloat.tenth (PyFloat.abs (PyFloat.sub pct last))
   || PyFloat.ltb last PyFloat.zero)%bool.

(** Lines 87-98, run once [processed] was incremented. *)
Definition report_progress (total_bytes : option N) (position : result N)
           (st : loop_state) : loop_state :=
  if Nat.eqb (Nat.modulo (processed st) update_every) 0 then
    let pct := checkpoint_pct total_bytes position in
    if redraw pct (last_printed_pct st) then
      {| processed := processed st;
         last_printed_pct := pct;
         outfile := outfile st;
         status := status st ++ [Progress (processed st) pct] |}
    else st
  else st.

(** The body of the loop (lines 81-98) for the record [row]. *)
Definition loop_body (w : world) (total_bytes : option N)
           (position : result N) (row : Csv.row) (st : loop_state)
  : result loop_state :=
  if Nat.ltb (length row) 8 then Ok st
  else
    let* r8 := unpack8 (firstn 8 row) in
    let* out := writerow (write_fault w (S (processed st))) r8 (outfile st) in
    Ok (report_progress total_bytes position
          {| processed := S (processed st);
             last_printed_pct := last_printed_pct st;
             outfile := out;
             status := status st |}).

(** How the [try] block ends: at its end, or by an exception; [st] holds the
    counters, the content of the output file and the lines printed then. *)
Inductive exit : Type :=
| Finished (st : loop_state)
| Aborted (st : loop_state) (e : exn).

(** [for row in reader] (lines 80-98): [k] calls of [next(reader)] were made
    and [s] is what the reader still has to give. *)
Fixpoint run_loop (w : world) (total_bytes : option N) (k : nat)
         (s : Csv.stream) (st : loop_state) : exit :=
  match s with
  | Csv.Stop =>
      match read_fault w k with
      | Some e => Aborted st e
      | None => Finished st
      end
  | Csv.Fail e =>
      match read_fault w k with
      | Some e' => Aborted st e'
      | None => Aborted st e
      end
  | Csv.Yield row s' =>
      match read_fault w k with
      | Some e => Aborted st e
      | None =>
          match loop_body w total_bytes (tell w (S k)) row st with
          | Raise e => Aborted st e
          | Ok st' => run_loop w total_bytes (S k) s' st'
          end
      end
  end.

Definition initial_state (content : list Byte.byte) (printed : list status_line)
  : loop_state :=
  {| processed := 0;
     last_printed_pct := PyFloat.minus_one;
     outfile := content;
     status := printed |}.

(** Number of calls of [next(reader)] a complete iteration over [s] makes. *)
Fixpoint calls (s : Csv.stream) : nat :=
  match s with
  | Csv.Yield _ s' => S (calls s')
  | _ => 1
  end.

(** Lines 71-111, inside the [with] block: both files are open, the output
    file is empty. *)
Definition with_block (w : world) (total_bytes : option N)
           (content : list Byte.byte) (printed : list status_line) : exit :=
  let st0 := initial_state [] printed in
  match writerow (write_fault w 0) header [] with
  | Raise e => Aborted st0 e
  | Ok out =>
      let st1 := initial_state out printed in
      match Utf8.decode Utf8.Ignore content with
      | Raise e => Aborted st1 e
      | Ok text =>
          let s := Csv.reader_of (TextIO.readlines text) in
          match run_loop w total_bytes 0 s st1 with
          | Aborted st e => Aborted st e
          | Finished st =>
              let pct := final_pct total_bytes (tell w (calls s)) in
              Finished {| processed := processed st;
                          last_printed_pct := last_printed_pct st;
                          outfile := outfile st;
                          status := status st
                                    ++ [ClearLine; Summary (processed st) pct] |}
          end
      end
  end.

(** What a call leaves behind: the value returned, the file system and the
    lines printed. *)
Record outcome : Type := {
  returned : option pystr;
  fs_after : gmap pystr (list Byte.byte);
  printed : list status_line
}.

(** Lines 59-111: the [try] block. The result is the exit of the block and
    the file system it leaves. *)
Definition try_block (w : world) (file_path output_file : pystr)
  : exit * gmap pystr (list Byte.byte) :=
  let total_bytes :=
    match getsize w file_path with
    | Ok n => Some n
    | Raise _ => None
    end in
  let printed0 := [Starting file_path output_file] in
  match open_read w file_path with
  | Raise e => (Aborted (initial_state [] printed0) e, fs w)
  | Ok content =>
      match open_write w output_file with
      | Raise e => (Aborted (initial_state [] printed0) e, fs w)
      | Ok fs1 =>
          let x := with_block w total_bytes content printed0 in
          let st := match x with Finished st | Aborted st _ => st end in
          (x, <[output_file := outfile st]> fs1)
      end
  end.

Definition convert_to_wigle_csv (w : world) (file_path : pystr) : outcome :=
  let output_file := output_file_of file_path in
  match try_block w file_path output_file with
  | (Finished st, fs') =>
      {| returned := Some output_file; fs_after := fs'; printed := status st |}
  | (Aborted st exc, fs') =>
      {| returned := None;
         fs_after := fs';
         printed := status st ++ [ErrorLine exc] |}
  end.

(** ** [str] methods *)

Module PyStr.

(** [c.isspace()]: the code points [str.strip()] removes. *)
Definition isspace (c : N) : bool :=
  ((N.leb 9 c && N.leb c 13) || (N.leb 28 c && N.leb c 32)
   || N.eqb c 133 || N.eqb c 160 || N.eqb c 5760
   || (N.leb 8192 c && N.leb c 8202)
   || N.eqb c 8232 || N.eqb c 8233 || N.eqb c 8239 || N.eqb c 8287
   || N.eqb c 12288)%bool.

(** [c in chars] *)
Definition among (chars : pystr) (c : N) : bool := existsb (N.eqb c) chars.

(** The string without its longest prefix of characters in [drop]. *)
Fixpoint lstrip (drop : N -> bool) (s : pystr) : pystr :=
  match s with
  | [] => []
  | c :: t => if drop c then lstrip drop t else s
  end.

(** The string without its longest suffix of characters in [drop]. *)
Fixpoint rstrip (drop : N -> bool) (s : pystr) : pystr :=
  match s with
  | [] => []
  | c :: t =>
      match rstrip drop t with
      | [] => if drop c then [] else [c]
      | t' => c :: t'
      end
  end.

(** [s.strip()] and [s.strip(chars)]: characters are removed from both
    ends as long as they are in the set. *)
Definition strip_by (drop : N -> bool) (s : pystr) : pystr :=
  rstrip drop (lstrip drop s).

Definition strip (s : pystr) : pystr := strip_by isspace s.

Definition strip_chars (chars s : pystr) : pystr := strip_by (among chars) s.

(** The lower case of [c] when it is made of ASCII characters: the ASCII
    code points and U+212A (KELVIN SIGN, whose lower case is k). The lower
    case of every other code point contains a code point above 127. *)
Definition lower_ascii (c : N) : option N :=
  if (N.leb 65 c && N.leb c 90)%bool then Some (c + 32)%N
  else if N.ltb c 128 then Some c
  else if N.eqb c 8490 then Some 107%N
  else None.

(** [s.lower() == word] for a word of lower-case ASCII letters. *)
Fixpoint lower_is (word s : pystr) : bool :=
  match s, word with
  | [], [] => true
  | c :: s', l :: word' =>
      match lower_ascii c with
      | Some l' => (N.eqb l' l && lower_is word' s')%bool
      | None => false
      end
  | _, _ => false
  end.

End PyStr.

(** ** The command line *)

Definition dquote : N := 34.
Definition squote : N := 39.

(** Line 22: [s.strip()], then [strip] of the double quote, then [strip] of
    the single quote. *)
Definition _normalize_path (s : pystr) : pystr :=
  PyStr.strip_chars [squote] (PyStr.strip_chars [dquote] (PyStr.strip s)).

(** [os.path.isfile(p)]: [p] names a regular file. The empty path names
    none. *)
Definition isfile (w : world) (p : pystr) : bool :=
  match p with
  | [] => false
  | _ => bool_decide (is_Some (fs w !! p))
  end.

(** What a call of [input(prompt)] gives: the line typed, without its end of
    line, or an exception. *)
Inductive input_outcome : Type :=
| Typed (line : pystr)
| EOFError
| KeyboardInterrupt
| InputFails (e : exn).

(** What the user is shown: the prompt of [input], the lines of
    [prompt_for_file] and [main], and the status lines of the conversion. *)
Inductive message : Type :=
| Prompt
| EmptyLine
| PleaseType
| NotFoundTryAgain (p : pystr)
| NotFound (p : pystr)
| NoFileProvided
| Conversion (l : status_line)
| Done (out : pystr).

(** Line 42: [s.lower() in ("q", "quit", "exit")]. *)
Definition quit_word (s : pystr) : bool :=
  (PyStr.lower_is (py "q") s || PyStr.lower_is (py "quit") s
   || PyStr.lower_is (py "exit") s)%bool.

(** A call of [prompt_for_file] after the outcomes of [input] known so far:
    it has returned, it has raised, or it is waiting in [input]. *)
Inductive prompted : Type :=
| Returned (p : option pystr) (shown : list message)
           (unread : list input_outcome)
| PromptRaised (e : exn) (shown : list message)
| Asking (shown : list message).

(** Lines 30-48: the loop of [prompt_for_file]. [inputs] holds the outcomes
    of the calls of [input] still to come, [shown] what was shown so far. *)
Fixpoint prompt_loop (w : world) (inputs : list input_outcome)
         (shown : list message) : prompted :=
  let shown := shown ++ [Prompt] in
  match inputs with
  | [] => Asking shown
  | EOFError :: rest | KeyboardInterrupt :: rest =>
      Returned None (shown ++ [EmptyLine]) rest
  | InputFails e :: _ => PromptRaised e shown
  | Typed line :: rest =>
      let s := PyStr.strip line in
      match s with
      | [] => prompt_loop w rest (shown ++ [PleaseType])
      | _ =>
          if quit_word s then Returned None shown rest
          else
            let p := _normalize_path s in
            if isfile w p then Returned (Some p) shown rest
            else prompt_loop w rest (shown ++ [NotFoundTryAgain p])
      end
  end.

Definition prompt_for_file (w : world) (inputs : list input_outcome)
  : prompted :=
  prompt_loop w inputs [].

(** A call of [main]: it has returned its exit code, it has raised, or it is
    waiting in [input]. *)
Inductive main_outcome : Type :=
| Exited (code : Z) (shown : list message)
         (files : gmap pystr (list Byte.byte))
| MainRaised (e : exn) (shown : list message)
| Waiting (shown : list message).

(** Lines 146-150. An [Optional[str]] is true unless it is [None] or the
    empty string. *)
Definition convert_and_report (w : world) (file_path : pystr)
           (shown : list message) : main_outcome :=
  let o := convert_to_wigle_csv w file_path in
  let shown := shown ++ map Conversion (printed o) in
  match returned o with
  | Some ((_ :: _) as out) => Exited 0 (shown ++ [Done out]) (fs_after o)
  | _ => Exited 1 shown (fs_after o)
  end.

(** Lines 134-150: [main] once [parser.parse_args()] has returned; [file]
    is [args.file], [None] when the command line names no file. *)
Definition main (w : world) (file : option pystr)
           (inputs : list input_outcome) : main_outcome :=
  match file with
  | Some ((_ :: _) as arg) =>
      let file_path := _normalize_path arg in
      if isfile w file_path then convert_and_report w file_path []
      else Exited 2 [NotFound file_path] (fs w)
  | _ =>
      match prompt_for_file w inputs with
      | Asking shown => Waiting shown
      | PromptRaised e shown => MainRaised e shown
      | Returned (Some ((_ :: _) as file_path)) shown _ =>
          convert_and_report w file_path shown
      | Returned _ shown _ => Exited 0 (shown ++ [NoFileProvided]) (fs w)
      end
  end.

(** * Vocabulary of the properties *)

(** A record the loop keeps: [len(row) >= 8]. *)
Definition valid_row (r : Csv.row) : bool := Nat.leb 8 (length r).

(** The data records the loop writes for the input records [rows]. *)
Definition data_rows (rows : list Csv.row) : list Csv.row :=
  map (firstn 8) (List.filter valid_row rows).

(** The bytes a record takes in the output file. *)
Definition row_bytes (r : Csv.row) : result (list Byte.byte) :=
  Utf8.encode (Csv.format_row r).

(** The bytes of a file made of the records [rows]. *)
Fixpoint render (rows : list Csv.row) : result (list Byte.byte) :=
  match rows with
  | [] => Ok []
  | r :: rs =>
      let* b := row_bytes r in
      let* bs := render rs in
      Ok (b ++ bs)
  end.

(** The records a stream gives before it ends. *)
Fixpoint records (s : Csv.stream) : list Csv.row :=
  match s with
  | Csv.Yield r s' => r :: records s'
  | _ => []
  end.

(** How a stream ends: [None] at the end of the input, or the exception. *)
Fixpoint ending (s : Csv.stream) : option exn :=
  match s with
  | Csv.Stop => None
  | Csv.Fail e => Some e
  | Csv.Yield _ s' => ending s'
  end.

(** The stream that gives [rows] and stops. *)
Fixpoint yield_all (rows : list Csv.row) : Csv.stream :=
  match rows with
  | [] => Csv.Stop
  | r :: rs => Csv.Yield r (yield_all rs)
  end.

(** The state in which the block is left. *)
Definition exit_state (x : exit) : loop_state :=
  match x with Finished st | Aborted st _ => st end.

(** The code points of Unicode scalar values, those the strict encoder
    accepts. *)
Definition encodable (c : N) : bool :=
  (N.ltb c 55296 || (N.ltb 57343 c && N.ltb c 1114112))%bool.

Definition enc (c : N) : Prop := encodable c = true.

Definition Encodable (t : pystr) : Prop := Forall enc t.

(** Every character of every field of the record satisfies [P]. *)
Definition fields_ok (P : N -> Prop) (r : Csv.row) : Prop := Forall (Forall P) r.

Definition reader_ok (P : N -> Prop) (r : Csv.reader) : Prop :=
  fields_ok P (Csv.fields r) /\ Forall P (Csv.field r).

(** [x] is not below zero. *)
Definition nonneg (x : PyFloat.float) : Prop :=
  match x with
  | S754_zero _ => True
  | S754_nan => True
  | S754_infinity s => s = false
  | S754_finite s _ _ => s = false
  end.

(** The sign bit of [x], when it has one, is [s]. *)
Definition sign_is (s : bool) (x : PyFloat.float) : Prop :=
  match x with
  | S754_nan => True
  | S754_zero s' | S754_infinity s' | S754_finite s' _ _ => s' = s
  end.

(** Every record of [rows] can be encoded. *)
Definition renderable (rows : list Csv.row) : Prop := exists b, render rows = Ok b.





(** The text read from a file of content [content]. *)
Definition decode_ignore (content : list Byte.byte) : pystr :=
  match Utf8.decode Utf8.Ignore content with
  | Ok t => t
  | Raise _ => []
  end.

(** What the reader gives for a file of content [content]. *)
Definition input_stream (content : list Byte.byte) : Csv.stream :=
  Csv.reader_of (TextIO.readlines (decode_ignore content)).

(** The header as it stands in the output file. *)
Definition header_line : string :=
  "MAC,SSID,AuthMode,FirstSeen,Channel,RSSI,CurrentLatitude,CurrentLongitude".

Definition header_bytes : list Byte.byte :=
  list_byte_of_string header_line ++ [Byte.x0d; Byte.x0a].

(** [total_bytes], line 60-64. *)
Definition total_bytes_of (w : world) (file_path : pystr) : option N :=
  match getsize w file_path with
  | Ok n => Some n
  | Raise _ => None
  end.

(** No operation of the run is made to fail. *)
Definition no_faults (w : world) : Prop :=
  open_in_fault w = None /\ open_out_fault w = None /\
  (forall k, read_fault w k = None) /\ (forall k, write_fault w k = None).

(** The state in which the loop is entered. *)
Definition entry_state (file_path : pystr) : loop_state :=
  initial_state header_bytes [Starting file_path (output_file_of file_path)].

(** The run on [file_path] reads [content] and leaves its loop in [st]
    without an exception. *)
Definition completed (w : world) (file_path : pystr)
           (content : list Byte.byte) (st : loop_state) : Prop :=
  fs w !! file_path = Some content /\
  open_in_fault w = None /\ open_out_fault w = None /\
  write_fault w 0 = None /\
  run_loop w (total_bytes_of w file_path) 0 (input_stream content)
    (entry_state file_path) = Finished st.

(** A line printed by the loop. *)
Definition is_progress (x : status_line) : Prop :=
  exists n p, x = Progress n p.

(** A file with one record of nine fields and one record of five fields. *)
Definition sample_log : list Byte.byte :=
  list_byte_of_string
    "AA:BB:CC:DD:EE:FF,MyWifi,WPA2,2023-01-01 10:00:00,6,-50,12.34,56.78,extra"
  ++ [Byte.x0a] ++ list_byte_of_string "a,b,c,d,e" ++ [Byte.x0a].

(** The records of [sample_log]. *)
Definition sample_rows : list Csv.row :=
  [[py "AA:BB:CC:DD:EE:FF"; py "MyWifi"; py "WPA2"; py "2023-01-01 10:00:00";
    py "6"; py "-50"; py "12.34"; py "56.78"; py "extra"];
   [py "a"; py "b"; py "c"; py "d"; py "e"]].

(** What [infile.tell()] raises while [next()] is used on the file. *)
Definition tell_disabled : exn := Exn "telling position disabled by next() call".

(** A world without faults that holds [content] under the name [capture.log];
    [infile.tell()] raises while the reader iterates. *)
Definition world_of (content : list Byte.byte) : world :=
  {| fs := {[ py "capture.log" := content ]};
     getsize_fault := None;
     open_in_fault := None;
     open_out_fault := None;
     read_fault := fun _ => None;
     write_fault := fun _ => None;
     tell := fun _ => Raise tell_disabled |}.

Definition sample_world : world := world_of sample_log.



(** A record of 8 fields. *)
Definition row8 : Csv.row :=
  [py "a"; py "b"; py "c"; py "d"; py "e"; py "f"; py "g"; py "h"].


(** A failure of a write. *)
Definition disk_full : exn := Exn "[Errno 28] No space left on device".

(** A file of two records of 8 fields. *)
Definition two_rows_log : list Byte.byte :=
  concat (repeat (list_byte_of_string "a,b,c,d,e,f,g,h" ++ [Byte.x0a]) 2).

(** A world in which the write of the second data row fails. *)
Definition failing_world : world :=
  {| fs := {[ py "capture.log" := two_rows_log ]};
     getsize_fault := None;
     open_in_fault := None;
     open_out_fault := None;
     read_fault := fun _ => None;
     write_fault := fun k => if Nat.eqb k 2 then Some disk_full else None;
     tell := fun _ => Raise tell_disabled |}.

(** [e] is raised by an operation of a run on [file_path]: the opening of a
    file, a read, a write, or the parsing of the input. *)
Definition raised_by (w : world) (file_path : pystr) (e : exn) : Prop :=
  open_read w file_path = Raise e \/
  open_out_fault w = Some e \/
  (exists k, read_fault w k = Some e) \/
  (exists k, write_fault w k = Some e) \/
  (exists content, open_read w file_path = Ok content /\
                   ending (input_stream content) = Some e).

(** The record [row8] with an invalid byte in front, a lead byte without
    its continuation inside, and a truncated sequence at the end. *)
Definition garbled_log : list Byte.byte :=
  [Byte.xff] ++ list_byte_of_string "a,b" ++ [Byte.xc3]
  ++ list_byte_of_string ",c,d,e,f,g,h" ++ [Byte.x0a; Byte.xe2; Byte.x82].

(** [head] as [dirname] returns it: without its trailing separators unless it
    is made of separators only. *)
Definition strip_head (head : pystr) : pystr :=
  match head with
  | [] => head
  | _ => if PosixPath.all_sep head then head else PosixPath.rstrip_sep head
  end.

(** The world the first run on [sample_world] leaves, in which the size of
    the input can no longer be queried and [infile.tell()] answers. *)
Definition second_world : world :=
  {| fs := fs_after (convert_to_wigle_csv sample_world (py "capture.log"));
     getsize_fault := Some (Exn "[Errno 13] Permission denied");
     open_in_fault := None;
     open_out_fault := None;
     read_fault := fun _ => None;
     write_fault := fun _ => None;
     tell := fun k => Ok (N.of_nat k) |}.

(** [s] neither starts nor ends with a character of [drop]. *)
Definition bare_by (drop : N -> bool) (s : pystr) : Prop :=
  (forall c t, s = c :: t -> drop c = false) /\
  (forall c t, s = t ++ [c] -> drop c = false).

(** The same as a test, on the first and the last character. *)
Definition bare (drop : N -> bool) (s : pystr) : bool :=
  match s with
  | [] => true
  | c :: t => (negb (drop c) && negb (drop (List.last t c)))%bool
  end.

(** The characters [_normalize_path] removes at the ends: white space and
    the two quotes. *)
Definition wrapping (c : N) : bool :=
  (PyStr.isspace c || N.eqb c dquote || N.eqb c squote)%bool.

(** An outcome of [input] after which [prompt_for_file] asks again: a line
    that is blank, or that is no word to quit and names no file. *)
Definition asks_again (w : world) (i : input_outcome) : bool :=
  match i with
  | Typed line =>
      match PyStr.strip line with
      | [] => true
      | s => (negb (quit_word s) && negb (isfile w (_normalize_path line)))%bool
      end
  | _ => false
  end.

(** [word] with the letters marked in [upper] in upper case. *)
Fixpoint in_case (upper : list bool) (word : pystr) : pystr :=
  match word, upper with
  | c :: t, b :: u => (if b then c - 32 else c)%N :: in_case u t
  | _, _ => word
  end.

(** What [prompt_for_file] answers to a line it does not accept. *)
Definition is_reply (m : message) : Prop :=
  m = PleaseType \/ exists p, m = NotFoundTryAgain p.

(** The words that end the prompt. *)
Definition quit_words : list pystr := [py "q"; py "quit"; py "exit"].

(** What a call of [main] has shown. *)
Definition shown_by (m : main_outcome) : list message :=
  match m with
  | Exited _ shown _ | MainRaised _ shown | Waiting shown => shown
  end.

(** How a conversion ends on the status stream: the line cleared and the
    summary, or the error. *)
Definition closing (returned : option pystr) (tail : list status_line) : Prop :=
  match returned with
  | Some _ => exists n pct, tail = [ClearLine; Summary n pct]
  | None => exists e, tail = [ErrorLine e]
  end.

(** What a call of [prompt_for_file] has shown. *)
Definition prompt_shown (r : prompted) : list message :=
  match r with
  | Returned _ shown _ | PromptRaised _ shown | Asking shown => shown
  end.

(** A message that is no status line of a conversion. *)
Definition own_message (m : message) : Prop := forall l, m <> Conversion l.

(** Lines 141-150: [main] once [prompt_for_file] has answered. *)
Definition after_prompt (w : world) (r : prompted) : main_outcome :=
  match r with
  | Asking shown => Waiting shown
  | PromptRaised e shown => MainRaised e shown
  | Returned (Some ((_ :: _) as file_path)) shown _ =>
      convert_and_report w file_path shown
  | Returned _ shown _ => Exited 0 (shown ++ [NoFileProvided]) (fs w)
  end.

(** Two states of the loop with the same count and the same output. *)
Definition same_data (a b : loop_state) : Prop :=
  processed a = processed b /\ outfile a = outfile b.

(** Two exits of the [try] block of the same kind, with the same exception
    if any, the same count and the same output. *)
Definition same_exit (x y : exit) : Prop :=
  match x, y with
  | Finished a, Finished b => same_data a b
  | Aborted a e, Aborted b e' => same_data a b /\ e = e'
  | _, _ => False
  end.

(** A world with the files and the faults of [w], in which the size of the
    input is not available and its position is [position]. *)
Definition without_size (w : world) (position : nat -> result N) : world :=
  {| fs := fs w;
     getsize_fault := Some (Exn "[Errno 13] Permission denied");
     open_in_fault := open_in_fault w;
     open_out_fault := open_out_fault w;
     read_fault := read_fault w;
     write_fault := write_fault w;
     tell := position |}.

(** A percentage between 0 and 100. *)
Definition in_range (pct : PyFloat.float) : bool :=
  (PyFloat.leb PyFloat.zero pct && PyFloat.leb pct PyFloat.hundred)%bool.

(** A status line whose numbers make sense: a percentage is between 0 and
    100, and progress is reported at a positive multiple of 500 rows. *)
Definition sound_line (x : status_line) : Prop :=
  match x with
  | Progress n pct =>
      in_range pct = true /\ 0 < n /\ Nat.modulo n update_every = 0
  | Summary _ pct => in_range pct = true
  | _ => True
  end.




(** The text of a file made of the records [rows], as the writer passes it
    to the file. *)
Definition text_of (rows : list Csv.row) : pystr :=
  concat (map Csv.format_row rows).

(** The characters of a line, without the end of line. *)
Fixpoint feed_chars (r : Csv.reader) (s : pystr) : result Csv.reader :=
  match s with
  | [] => Ok r
  | c :: s' => let* r' := Csv.parse_process_char r (Csv.Chr c) in feed_chars r' s'
  end.

(** What the reader gives when the line it is in ends. *)
Definition end_of_line (r : Csv.reader) (rest : Csv.reader -> Csv.stream)
  : Csv.stream :=
  match Csv.parse_process_char r Csv.EOL with
  | Raise e => Csv.Fail e
  | Ok r' =>
      if Csv.is_START_RECORD (Csv.state r')
      then Csv.Yield (Csv.fields r') (rest Csv.parse_reset)
      else rest r'
  end.

(** The reader seen character by character: [r] is the state reached in the
    text read so far, [fresh] tells that the reader is at the start of a
    line, and [t] is the text still to be read. *)
Fixpoint read_text (fresh : bool) (r : Csv.reader) (t : pystr) : Csv.stream :=
  match t with
  | [] =>
      if fresh then Csv.read_records r []
      else end_of_line r (fun r' => Csv.read_records r' [])
  | c :: t' =>
      match Csv.parse_process_char r (Csv.Chr c) with
      | Raise e => Csv.Fail e
      | Ok r1 =>
          if N.eqb c TextIO.LF
          then end_of_line r1 (fun r' => read_text true r' t')
          else read_text false r1 t'
      end
  end.

(** A field within the limit of the reader. *)
Definition short (f : pystr) : Prop :=
  (N.of_nat (length f) <= Csv.field_limit)%N.

(** A character the writer leaves outside quotes. *)
Definition plain (c : N) : Prop :=
  c <> Csv.delimiter /\ c <> Csv.quotechar /\ c <> TextIO.CR /\ c <> TextIO.LF.

(** The text [s] takes the reader from [r] to [r'], without ending a
    record. *)
Definition runs (r : Csv.reader) (s : pystr) (r' : Csv.reader) : Prop :=
  forall b t, exists b', read_text b r (s ++ t) = read_text b' r' t.

(** The reader after a field was read: the field is complete, the record is
    not. *)
Definition field_read (r : Csv.reader) : Prop :=
  Csv.state r = Csv.START_FIELD \/ Csv.state r = Csv.IN_FIELD \/
  Csv.state r = Csv.QUOTE_IN_QUOTED_FIELD.

(** The text of a record in the file, once read with universal newlines. *)
Definition row_text (r : Csv.row) : pystr :=
  match r with
  | [ [] ] => [Csv.quotechar; Csv.quotechar]
  | _ => Csv.join_fields r
  end ++ [TextIO.LF].

(** The fields of the reader are within the limit. *)
Definition reader_short (r : Csv.reader) : Prop :=
  Forall short (Csv.fields r) /\ short (Csv.field r).

(** A record the round trip applies to: it has a field, its fields are
    within the limit of the reader and hold no carriage return. *)
Definition readable_row (r : Csv.row) : Prop :=
  r <> [] /\ Forall short r /\ fields_ok (fun c => c <> TextIO.CR) r.

(** The byte order mark: U+FEFF, and its three bytes in UTF-8. *)
Definition bom : N := 65279.


(** The first field of the record being read starts with the mark. *)
Definition marked (r : Csv.reader) : Prop :=
  match Csv.fields r with
  | [] => Csv.state r = Csv.IN_FIELD /\ exists f, Csv.field r = bom :: f
  | f0 :: _ => exists f, f0 = bom :: f
  end.

(** The text [t], which ends its lines with "\n", with [ending] at the end of
    each line instead. *)
Definition with_line_end (ending t : pystr) : pystr :=
  flat_map (fun c => if N.eqb c TextIO.LF then ending else [c]) t.

(** Two lines of text, the first of 9 fields, with "\n" at the end of each. *)
Definition unix_text : pystr :=
  py "AA:BB:CC:DD:EE:FF,MyWifi,WPA2,2023-01-01 10:00:00,6,-50,12.34,56.78,extra"
  ++ [TextIO.LF] ++ py "a,b,c,d,e" ++ [TextIO.LF].

(** * Properties *)

Lemma bind_ok {A B} (r : result A) (k : A -> result B) b :
  bind r k = Ok b -> exists a, r = Ok a /\ k a = Ok b.
Proof. destruct r; simpl; eauto; discriminate. Qed.

Lemma unpack8_firstn (row : Csv.row) :
  8 <= length row -> unpack8 (firstn 8 row) = Ok (firstn 8 row).
Proof.
  intros H.
  do 8 (destruct row as [|? row]; [simpl in H; lia|]).
  reflexivity.
Qed.


Lemma report_progress_data total pos st :
  processed (report_progress total pos st) = processed st /\
  outfile (report_progress total pos st) = outfile st.
Proof.
  unfold report_progress.
  destruct (Nat.eqb _ _); [destruct (redraw _ _)|]; auto.
Qed.

(** What one iteration does to the counter and to the output file. *)
Lemma loop_body_ok w total pos row st st' :
  loop_body w total pos row st = Ok st' ->
  (valid_row row = false /\ st' = st) \/
  (valid_row row = true /\ write_fault w (S (processed st)) = None /\
   exists b, row_bytes (firstn 8 row) = Ok b /\
             processed st' = S (processed st) /\
             outfile st' = outfile st ++ b).
Proof.
  unfold loop_body, valid_row. intros H.
  destruct (Nat.ltb_spec (length row) 8) as [Hlt|Hge].
  - left. inversion H; subst. split; auto. apply Nat.leb_gt; lia.
  - right. rewrite unpack8_firstn in H by lia. simpl in H.
    unfold writerow in H.
    destruct (write_fault w (S (processed st))) as [e|]; [discriminate|].
    apply bind_ok in H as (out & Hout & H).
    apply bind_ok in Hout as (b & Hb & Hout).
    inversion Hout; subst; clear Hout. inversion H; subst; clear H.
    split; [apply Nat.leb_le; lia|]. split; auto.
    exists b. split; auto.
    destruct (report_progress_data total pos
      {| processed := S (processed st); last_printed_pct := last_printed_pct st;
         outfile := outfile st ++ b; status := status st |}) as [-> ->]. auto.
Qed.

Lemma data_rows_cons r rs :
  data_rows (r :: rs) = if valid_row r then firstn 8 r :: data_rows rs else data_rows rs.
Proof. unfold data_rows; simpl. destruct (valid_row r); reflexivity. Qed.

(** The loop writes a prefix of the data rows of its input, the whole of it
    when it finishes, and counts what it writes. *)
Lemma run_loop_written s : forall w total k st,
  exists written b,
    render written = Ok b /\
    outfile (exit_state (run_loop w total k s st)) = outfile st ++ b /\
    processed (exit_state (run_loop w total k s st)) = processed st + length written /\
    (exists rest, data_rows (records s) = written ++ rest) /\
    (forall st', run_loop w total k s st = Finished st' ->
                 ending s = None /\ written = data_rows (records s)).
Proof.
  induction s as [|e|row s IH]; intros w total k st; simpl.
  - destruct (read_fault w k); simpl; exists [], []; simpl;
      rewrite app_nil_r, Nat.add_0_r;
      (split; [reflexivity|split; [reflexivity|split; [reflexivity|split;
         [exists []; reflexivity|intros st' H; inversion H; auto]]]]).
  - destruct (read_fault w k); simpl; exists [], []; simpl;
      rewrite app_nil_r, Nat.add_0_r;
      (split; [reflexivity|split; [reflexivity|split; [reflexivity|split;
         [exists []; reflexivity|intros st' H; inversion H]]]]).
  - rewrite data_rows_cons.
    destruct (read_fault w k) as [e|].
    { exists [], []. simpl. rewrite app_nil_r, Nat.add_0_r.
      split; [reflexivity|split; [reflexivity|split; [reflexivity|split;
         [eexists; reflexivity|intros st' H; inversion H]]]]. }
    destruct (loop_body w total (tell w (S k)) row st) as [st1|e] eqn:Hb.
    2:{ exists [], []. simpl. rewrite app_nil_r, Nat.add_0_r.
        split; [reflexivity|split; [reflexivity|split; [reflexivity|split;
         [eexists; reflexivity|intros st' H; inversion H]]]]. }
    destruct (IH w total (S k) st1) as (wr & b & Hr & Ho & Hp & (rest & Hrest) & Hfin).
    apply loop_body_ok in Hb as [(Hv & ->)|(Hv & _ & b1 & Hb1 & Hp1 & Ho1)]; rewrite Hv.
    + exists wr, b. split; [assumption|split; [assumption|split; [assumption|split;
         [exists rest; assumption|assumption]]]].
    + exists (firstn 8 row :: wr), (b1 ++ b). simpl. fold (row_bytes (firstn 8 row)).
      rewrite Hb1, Hr. simpl. rewrite Ho, Ho1, Hp, Hp1, app_assoc.
      split; [reflexivity|split; [reflexivity|split; [lia|split]]].
      * exists rest. now rewrite Hrest.
      * intros st' H. destruct (Hfin st' H) as [? ->]. auto.
Qed.

Local Open Scope N_scope.

Lemma lor_shiftl_add x y k :
  y < 2 ^ k -> N.lor (N.shiftl x k) y = x * 2 ^ k + y.
Proof.
  intros Hy.
  assert (Hland : N.land (N.shiftl x k) y = 0).
  { apply N.bits_inj_0; intros n. rewrite N.land_spec.
    destruct (N.lt_ge_cases n k) as [Hn|Hn].
    - rewrite N.shiftl_spec_low by assumption. reflexivity.
    - assert (N.testbit y n = false) as ->; [|apply andb_false_r].
      destruct (N.eq_dec y 0) as [->|Hy0]; [apply N.bits_0|].
      apply N.bits_above_log2. apply N.log2_lt_pow2; [lia|].
      eapply N.lt_le_trans; [exact Hy|]. apply N.pow_le_mono_r; lia. }
  rewrite <- N.lxor_lor by assumption.
  rewrite <- N.add_nocarry_lxor by assumption.
  now rewrite N.shiftl_mul_pow2.
Qed.

Lemma cont_bits_mod b : Utf8.cont_bits b = b mod 64.
Proof. unfold Utf8.cont_bits. change 63 with (N.ones 6). now rewrite N.land_ones. Qed.

Lemma is_continuation_spec b :
  Utf8.is_continuation b = true <-> 128 <= b <= 191.
Proof.
  unfold Utf8.is_continuation. rewrite andb_true_iff, !N.leb_le. reflexivity.
Qed.

Ltac utf8_arith :=
  repeat match goal with
  | H : Utf8.is_continuation _ = true |- _ => apply is_continuation_spec in H
  | H : negb _ = false |- _ => apply negb_false_iff in H
  | H : (_ || _)%bool = false |- _ => apply orb_false_iff in H; destruct H
  | H : (if ?b then _ else _) = false |- _ => destruct b eqn:?
  | H : (_ <? _) = true |- _ => apply N.ltb_lt in H
  | H : (_ <? _) = false |- _ => apply N.ltb_ge in H
  | H : (_ =? _) = true |- _ => apply N.eqb_eq in H
  | H : (_ =? _) = false |- _ => apply N.eqb_neq in H
  end.

Lemma lor_shiftl_6 x y : y < 64 -> N.lor (N.shiftl x 6) y = x * 64 + y.
Proof. apply (lor_shiftl_add x y 6). Qed.

Lemma lor_shiftl_12 x y : y < 4096 -> N.lor (N.shiftl x 12) y = x * 4096 + y.
Proof. apply (lor_shiftl_add x y 12). Qed.

Lemma lor_shiftl_18 x y : y < 262144 -> N.lor (N.shiftl x 18) y = x * 262144 + y.
Proof. apply (lor_shiftl_add x y 18). Qed.

(** Replaces each [a mod b] by a fresh remainder with its two bounds. *)
Ltac mod_elim :=
  repeat match goal with
  | |- context [?a mod ?b] =>
      let Hd := fresh "Hdiv" in
      let Hm := fresh "Hmod" in
      assert (Hd := N.div_mod a b ltac:(discriminate));
      assert (Hm := N.mod_lt a b ltac:(discriminate));
      generalize dependent (a mod b); generalize dependent (a / b); intros
  end.

Lemma next_encodable b1 tl c len :
  Utf8.next b1 tl = Utf8.Char c len -> encodable c = true.
Proof.
  unfold Utf8.next, encodable.
  repeat match goal with
  | |- context [if ?b then _ else _] => destruct b eqn:?
  | |- context [match ?l with [] => _ | _ :: _ => _ end] => destruct l
  end; intros H; inversion H; subst; clear H; utf8_arith;
  rewrite ?cont_bits_mod;
  change 31 with (N.ones 5); change 15 with (N.ones 4); change 7 with (N.ones 3);
  rewrite ?N.land_ones;
  change (2 ^ 5) with 32; change (2 ^ 4) with 16; change (2 ^ 3) with 8;
  apply orb_true_iff; rewrite andb_true_iff, !N.ltb_lt;
  mod_elim;
  rewrite ?lor_shiftl_6 by lia;
  rewrite ?lor_shiftl_12 by lia;
  rewrite ?lor_shiftl_18 by lia;
  lia.
Qed.

Local Close Scope N_scope.

Lemma decode_from_total bs : forall k,
  exists t, Utf8.decode_from Utf8.Ignore k bs = Ok t.
Proof.
  induction bs as [|b rest IH]; intros k; simpl; [eauto|].
  destruct k as [|k]; [|apply IH].
  destruct (Utf8.next _ _) as [c len|reason len]; [|apply IH].
  destruct (IH (Nat.pred len)) as [t ->]. simpl. eauto.
Qed.

Lemma decode_from_encodable h bs : forall k t,
  Utf8.decode_from h k bs = Ok t -> Encodable t.
Proof.
  induction bs as [|b rest IH]; intros k t; simpl.
  - intros H; inversion H; constructor.
  - destruct k as [|k]; [|apply IH].
    destruct (Utf8.next _ _) as [c len|reason len] eqn:Hn.
    + destruct (Utf8.decode_from h (Nat.pred len) rest) as [t'|] eqn:Hd;
        simpl; intros H; inversion H; subst.
      constructor; [eapply next_encodable; eassumption|eapply IH; eassumption].
    + destruct h; [discriminate|apply IH|].
      destruct (Utf8.decode_from Utf8.Replace (Nat.pred len) rest) as [t'|] eqn:Hd;
        simpl; intros H; inversion H; subst.
      constructor; [reflexivity|eapply IH; eassumption].
Qed.

Lemma encodable_spec c :
  encodable c = true <-> (c < 55296 \/ 57343 < c < 1114112)%N.
Proof.
  unfold encodable. rewrite orb_true_iff, andb_true_iff, !N.ltb_lt. reflexivity.
Qed.

Lemma encode_char_ok c :
  encodable c = true -> exists b, Utf8.encode_char c = Ok b.
Proof.
  rewrite encodable_spec. unfold Utf8.encode_char, Utf8.is_surrogate. intros H.
  destruct (N.ltb_spec c 128); [eauto|].
  destruct (N.ltb_spec c 2048); [eauto|].
  destruct (N.ltb_spec c 65536).
  - destruct (N.leb_spec 55296 c); destruct (N.leb_spec c 57343); simpl; eauto.
    lia.
  - destruct (N.ltb_spec c 1114112); [eauto|]. lia.
Qed.

Lemma encode_ok t : Encodable t -> exists b, Utf8.encode t = Ok b.
Proof.
  induction 1 as [|c r Hc _ [bs IH]]; simpl; [eauto|].
  destruct (encode_char_ok c Hc) as [b ->]. rewrite IH. simpl. eauto.
Qed.

(** Characters of the text reach the fields unchanged: a property of all the
    characters of the input holds of all the characters of all the fields. *)
Section CharsPreserved.

Variable P : N -> Prop.

Lemma set_state_ok s r : reader_ok P r -> reader_ok P (Csv.set_state s r).
Proof. auto. Qed.

Lemma parse_save_field_ok r : reader_ok P r -> reader_ok P (Csv.parse_save_field r).
Proof.
  intros [Hf Hc]. split; simpl; [|constructor].
  apply Forall_app; split; auto.
Qed.

Lemma parse_add_char_ok r c r' :
  reader_ok P r -> P c -> Csv.parse_add_char r c = Ok r' -> reader_ok P r'.
Proof.
  unfold Csv.parse_add_char. intros [Hf Hc] HP.
  destruct (N.leb _ _); [discriminate|]. intros H; inversion H; subst.
  split; simpl; auto. apply Forall_app; split; auto.
Qed.

Hint Resolve set_state_ok parse_save_field_ok : core.

Lemma start_field_ok r s r' :
  reader_ok P r -> (forall c, s = Csv.Chr c -> P c) ->
  Csv.start_field r s = Ok r' -> reader_ok P r'.
Proof.
  unfold Csv.start_field. intros Hr HP.
  destruct s as [c|]; [|intros H; inversion H; auto].
  repeat match goal with |- context [if ?b then _ else _] => destruct b end;
    try (intros H; inversion H; now auto).
  destruct (Csv.parse_add_char r c) as [r1|] eqn:Ha; simpl; intros H; inversion H.
  apply set_state_ok. eapply parse_add_char_ok; eauto.
Qed.

Lemma add_then_set_ok st r c r' :
  reader_ok P r -> P c ->
  bind (Csv.parse_add_char r c) (fun r1 => Ok (Csv.set_state st r1)) = Ok r' ->
  reader_ok P r'.
Proof.
  intros Hr HP. destruct (Csv.parse_add_char r c) as [r1|] eqn:Ha; simpl;
    intros H; inversion H. apply set_state_ok. eapply parse_add_char_ok; eauto.
Qed.

Lemma parse_process_char_ok r s r' :
  reader_ok P r -> (forall c, s = Csv.Chr c -> P c) ->
  Csv.parse_process_char r s = Ok r' -> reader_ok P r'.
Proof.
  unfold Csv.parse_process_char. intros Hr HP.
  destruct (Csv.state r); destruct s as [c|];
    repeat match goal with |- context [if ?b then _ else _] => destruct b end;
    first
      [ intros H; inversion H; subst; now auto
      | apply start_field_ok; [now auto|first [assumption|discriminate]]
      | eapply parse_add_char_ok; now eauto
      | eapply add_then_set_ok; now eauto ].
Qed.

Lemma feed_line_ok line : forall r r',
  reader_ok P r -> Forall P line -> Csv.feed_line r line = Ok r' -> reader_ok P r'.
Proof.
  induction line as [|c l IH]; simpl; intros r r' Hr Hl.
  - apply parse_process_char_ok; auto. discriminate.
  - destruct (Csv.parse_process_char r (Csv.Chr c)) as [r1|] eqn:H1; [|discriminate].
    simpl. inversion Hl; subst. apply IH; auto.
    eapply parse_process_char_ok; eauto. intros ? [= <-]; auto.
Qed.

Lemma read_records_ok lines : forall r,
  reader_ok P r -> Forall (Forall P) lines ->
  Forall (fields_ok P) (records (Csv.read_records r lines)).
Proof.
  induction lines as [|l ls IH]; simpl; intros r Hr Hl.
  - destruct (_ || _)%bool; simpl; constructor; [|constructor].
    apply parse_save_field_ok; auto.
  - inversion Hl; subst.
    destruct (Csv.feed_line r l) as [r1|] eqn:Hf; [|constructor].
    assert (reader_ok P r1) as Hr1 by (eapply feed_line_ok; eauto).
    destruct (Csv.is_START_RECORD _); simpl; [|apply IH; auto].
    constructor; [apply Hr1|]. apply IH; auto. split; constructor.
Qed.

Hypothesis P_LF : P TextIO.LF.

Lemma translate_newlines_ok t :
  Forall P t -> Forall P (TextIO.translate_newlines t).
Proof.
  assert (H : forall n t, length t <= n -> Forall P t ->
                          Forall P (TextIO.translate_newlines t)).
  { induction n as [|n IH]; intros [|c r] Hn Ht; simpl in *;
      try constructor; try lia.
    inversion Ht; subst.
    destruct (N.eqb c TextIO.CR).
    - constructor; [exact P_LF|].
      destruct r as [|d r']; [constructor|]. inversion H2; subst.
      destruct (N.eqb d TextIO.LF); apply IH; simpl in *; auto; lia.
    - constructor; auto. apply IH; auto; lia. }
  apply (H (length t)); lia.
Qed.

Lemma lines_from_ok t : forall cur,
  Forall P cur -> Forall P t -> Forall (Forall P) (TextIO.lines_from cur t).
Proof.
  induction t as [|c r IH]; simpl; intros cur Hc Ht.
  - destruct cur; repeat constructor; inversion Hc; auto.
  - inversion Ht; subst.
    assert (Forall P (cur ++ [c])) by (apply Forall_app; auto).
    destruct (N.eqb c TextIO.LF); [constructor; auto|]; apply IH; auto.
Qed.

Lemma reader_of_ok text :
  Forall P text ->
  Forall (fields_ok P) (records (Csv.reader_of (TextIO.readlines text))).
Proof.
  intros H. apply read_records_ok; [split; constructor|].
  apply lines_from_ok; [constructor|]. now apply translate_newlines_ok.
Qed.

Hypothesis P_CR : P TextIO.CR.
Hypothesis P_delimiter : P Csv.delimiter.
Hypothesis P_quotechar : P Csv.quotechar.

Lemma double_quotes_ok f : Forall P f -> Forall P (Csv.double_quotes f).
Proof.
  induction 1; simpl; [constructor|].
  destruct (N.eqb _ _); repeat constructor; auto.
Qed.

Lemma join_append_ok f : Forall P f -> Forall P (Csv.join_append f).
Proof.
  intros H. unfold Csv.join_append. destruct (Csv.needs_quotes f); auto.
  constructor; auto. apply Forall_app; split; [now apply double_quotes_ok|].
  repeat constructor; auto.
Qed.

Lemma join_fields_ok r : fields_ok P r -> Forall P (Csv.join_fields r).
Proof.
  induction 1 as [|f r Hf Hr IH]; simpl; [constructor|].
  destruct r as [|g r]; [now apply join_append_ok|].
  apply Forall_app; split; [now apply join_append_ok|]. constructor; auto.
Qed.

Lemma format_row_ok r : fields_ok P r -> Forall P (Csv.format_row r).
Proof.
  intros H.
  assert (Forall P Csv.lineterminator) by (repeat constructor; auto).
  assert (Forall P (Csv.join_fields r ++ Csv.lineterminator))
    by (apply Forall_app; split; auto using join_fields_ok).
  unfold Csv.format_row.
  destruct r as [|[|c f] [|g r]]; auto.
  repeat constructor; auto.
Qed.

End CharsPreserved.


Lemma binary_round_aux_sign s m e l :
  sign_is s (binary_round_aux PyFloat.prec PyFloat.emax s m e l).
Proof.
  unfold binary_round_aux.
  destruct (shr_fexp _ _ _ _ _) as [mrs' e'].
  destruct (shr_fexp _ _ _ _ _) as [mrs'' e''].
  destruct (shr_m mrs''); simpl; auto.
  destruct (Z.leb _ _); simpl; auto.
Qed.

Lemma sign_false_nonneg x : sign_is false x -> nonneg x.
Proof. destruct x; simpl; auto. Qed.

Lemma div_sign a b :
  b <> 0%N ->
  sign_is false (SFdiv PyFloat.prec PyFloat.emax (PyFloat.of_int a) (PyFloat.of_int b)).
Proof.
  intros Hb. destruct a as [|pa], b as [|pb]; try contradiction; simpl; auto.
  unfold SFdiv.
  destruct (SFdiv_core_binary _ _ _ _ _ _) as [[mz ez] lz].
  apply (binary_round_aux_sign false).
Qed.

Lemma mul_hundred_sign q :
  sign_is false q -> sign_is false (PyFloat.mul q PyFloat.hundred).
Proof.
  destruct q as [s|s| |s m e]; simpl; intros Hs; subst; auto.
  apply (binary_round_aux_sign false).
Qed.

Lemma min_hundred_nonneg x : sign_is false x -> nonneg (PyFloat.min PyFloat.hundred x).
Proof.
  intros H. unfold PyFloat.min.
  destruct (PyFloat.ltb x PyFloat.hundred); [now apply sign_false_nonneg|reflexivity].
Qed.

Lemma int_truediv_sign a b q :
  PyFloat.int_truediv a b = Ok q -> sign_is false q.
Proof.
  unfold PyFloat.int_truediv. destruct b as [|pb]; [discriminate|].
  pose proof (div_sign a (Npos pb) ltac:(discriminate)) as Hs.
  destruct (SFdiv _ _ _ _) as [s|s| |s m e]; intros H; inversion H; subst;
    assumption.
Qed.

Lemma percent_nonneg pos n pct : percent pos n = Ok pct -> nonneg pct.
Proof.
  unfold percent. destruct pos as [b|]; [|discriminate]. simpl.
  destruct (PyFloat.int_truediv b n) as [q|] eqn:Hq; [|discriminate]. simpl.
  intros H; inversion H; subst.
  apply int_truediv_sign in Hq.
  apply min_hundred_nonneg. now apply mul_hundred_sign.
Qed.

Lemma checkpoint_pct_nonneg total pos : nonneg (checkpoint_pct total pos).
Proof.
  unfold checkpoint_pct. destruct (size_known total) as [n|]; [|exact I].
  destruct (percent pos n) eqn:Hp; [|exact I]. eapply percent_nonneg; eauto.
Qed.

Lemma loop_body_short w total pos row st :
  valid_row row = false -> loop_body w total pos row st = Ok st.
Proof.
  unfold loop_body, valid_row. intros H. apply Nat.leb_gt in H.
  destruct (Nat.ltb_spec (length row) 8); [reflexivity|lia].
Qed.

Lemma loop_body_valid w total pos row st b :
  valid_row row = true ->
  write_fault w (S (processed st)) = None ->
  row_bytes (firstn 8 row) = Ok b ->
  loop_body w total pos row st =
  Ok (report_progress total pos
        {| processed := S (processed st);
           last_printed_pct := last_printed_pct st;
           outfile := outfile st ++ b;
           status := status st |}).
Proof.
  unfold loop_body, valid_row, row_bytes. intros H Hw Hb. apply Nat.leb_le in H.
  destruct (Nat.ltb_spec (length row) 8); [lia|].
  rewrite unpack8_firstn by lia. simpl. unfold writerow. rewrite Hw, Hb. reflexivity.
Qed.

Lemma loop_body_raise w total pos row st e :
  loop_body w total pos row st = Raise e ->
  valid_row row = true /\
  (write_fault w (S (processed st)) = Some e \/
   row_bytes (firstn 8 row) = Raise e).
Proof.
  unfold loop_body, valid_row, row_bytes.
  destruct (Nat.ltb_spec (length row) 8) as [|Hge]; [discriminate|].
  rewrite unpack8_firstn by lia. intros H.
  split; [apply Nat.leb_le; lia|].
  unfold bind, writerow in H.
  destruct (write_fault w (S (processed st))); [inversion H; auto|].
  unfold bind in H.
  destruct (Utf8.encode _); [discriminate|]. inversion H; auto.
Qed.

Lemma renderable_cons r rs :
  renderable (r :: rs) <-> (exists b, row_bytes r = Ok b) /\ renderable rs.
Proof.
  unfold renderable; simpl. split.
  - intros [b H]. apply bind_ok in H as (x & Hx & H).
    apply bind_ok in H as (y & Hy & _). eauto.
  - intros [[x Hx] [y Hy]]. rewrite Hx, Hy. simpl. eauto.
Qed.


Lemma run_loop_finishes s : forall w total k st,
  ending s = None ->
  (forall j, k <= j <= k + length (records s) -> read_fault w j = None) ->
  (forall j, processed st < j <= processed st + length (data_rows (records s)) ->
             write_fault w j = None) ->
  renderable (data_rows (records s)) ->
  exists st', run_loop w total k s st = Finished st'.
Proof.
  induction s as [|e|row s IH]; intros w total k st; simpl; intros He Hrd Hwr Hren.
  - rewrite Hrd by lia. eauto.
  - discriminate.
  - rewrite Hrd by lia. rewrite data_rows_cons in Hwr, Hren.
    destruct (valid_row row) eqn:Hv.
    + apply renderable_cons in Hren as [[b Hb] Hren].
      rewrite (loop_body_valid _ _ _ _ _ b) by (auto; apply Hwr; simpl; lia).
      apply IH; auto.
      * intros j Hj. apply Hrd. lia.
      * intros j. rewrite (proj1 (report_progress_data _ _ _)). simpl.
        intros Hj. apply Hwr. simpl. lia.
    + rewrite loop_body_short by assumption.
      apply IH; auto. intros j Hj. apply Hrd. lia.
Qed.

(** The exception that ends the loop is one that a read or a write raised. *)
Lemma run_loop_aborted s : forall w total k st st' e,
  run_loop w total k s st = Aborted st' e ->
  (exists j, read_fault w j = Some e) \/
  (exists j, write_fault w j = Some e) \/
  ending s = Some e \/
  (exists r, In r (data_rows (records s)) /\ row_bytes r = Raise e).
Proof.
  induction s as [|e0|row s IH]; intros w total k st st' e; simpl.
  - destruct (read_fault w k) eqn:Hr; [|discriminate].
    intros H; inversion H; subst. eauto.
  - destruct (read_fault w k) eqn:Hr; intros H; inversion H; subst; eauto.
  - destruct (read_fault w k) eqn:Hr.
    { intros H; inversion H; subst. eauto. }
    rewrite data_rows_cons.
    destruct (loop_body w total (tell w (S k)) row st) as [st1|e1] eqn:Hb.
    + intros H. apply IH in H as [H|[H|[H|(r & Hin & H)]]]; auto.
      do 3 right. exists r. split; auto.
      destruct (valid_row row); simpl; auto.
    + intros H; inversion H; subst.
      apply loop_body_raise in Hb as [Hv [Hw|Hx]]; eauto.
      do 3 right. rewrite Hv. exists (firstn 8 row). simpl; auto.
Qed.


Lemma header_row_bytes : row_bytes header = Ok header_bytes.
Proof. vm_compute. reflexivity. Qed.

Lemma decode_ignore_ok content :
  Utf8.decode Utf8.Ignore content = Ok (decode_ignore content).
Proof.
  unfold decode_ignore, Utf8.decode.
  destruct (decode_from_total content 0) as [t ->]. reflexivity.
Qed.







Lemma row_bytes_ok r : fields_ok enc r -> exists b, row_bytes r = Ok b.
Proof.
  intros H. apply encode_ok.
  apply (format_row_ok enc); auto; reflexivity.
Qed.

Lemma render_ok rows : Forall (fields_ok enc) rows -> renderable rows.
Proof.
  induction 1 as [|r rs Hr _ IH]; [exists []; reflexivity|].
  apply renderable_cons. split; [now apply row_bytes_ok|assumption].
Qed.

Lemma data_rows_fields_ok P rows :
  Forall (fields_ok P) rows -> Forall (fields_ok P) (data_rows rows).
Proof.
  induction 1 as [|r rs Hr _ IH]; [constructor|].
  rewrite data_rows_cons. destruct (valid_row r); [|assumption].
  constructor; [|assumption]. unfold fields_ok in *.
  rewrite <- (firstn_skipn 8 r) in Hr. now apply Forall_app in Hr.
Qed.

Lemma input_stream_fields_ok content :
  Forall (fields_ok enc) (records (input_stream content)).
Proof.
  apply reader_of_ok; [reflexivity|].
  eapply decode_from_encodable. apply decode_ignore_ok.
Qed.

(** Whatever the bytes of the input, its data rows can be encoded. *)
Lemma input_renderable content :
  renderable (data_rows (records (input_stream content))).
Proof. apply render_ok, data_rows_fields_ok, input_stream_fields_ok. Qed.

Lemma with_block_eq w total content printed0 :
  with_block w total content printed0 =
  match write_fault w 0 with
  | Some e => Aborted (initial_state [] printed0) e
  | None =>
      match run_loop w total 0 (input_stream content)
              (initial_state header_bytes printed0) with
      | Aborted st e => Aborted st e
      | Finished st =>
          Finished
            {| processed := processed st;
               last_printed_pct := last_printed_pct st;
               outfile := outfile st;
               status := status st ++
                 [ClearLine;
                  Summary (processed st)
                    (final_pct total (tell w (calls (input_stream content))))] |}
      end
  end.
Proof.
  unfold with_block, writerow.
  destruct (write_fault w 0); [reflexivity|].
  change (Utf8.encode (Csv.format_row header)) with (row_bytes header).
  rewrite header_row_bytes. simpl bind. simpl app.
  rewrite decode_ignore_ok. reflexivity.
Qed.

Lemma convert_eq w file_path :
  convert_to_wigle_csv w file_path =
  let out := output_file_of file_path in
  let printed0 := [Starting file_path out] in
  match open_read w file_path with
  | Raise e =>
      {| returned := None; fs_after := fs w; printed := printed0 ++ [ErrorLine e] |}
  | Ok content =>
      match open_out_fault w with
      | Some e =>
          {| returned := None; fs_after := fs w;
             printed := printed0 ++ [ErrorLine e] |}
      | None =>
          let x := with_block w (total_bytes_of w file_path) content printed0 in
          {| returned := match x with Finished _ => Some out | Aborted _ _ => None end;
             fs_after := <[out := outfile (exit_state x)]> (<[out := []]> (fs w));
             printed := match x with
                        | Finished st => status st
                        | Aborted st e => status st ++ [ErrorLine e]
                        end |}
      end
  end.
Proof.
  unfold convert_to_wigle_csv, try_block, open_write, total_bytes_of. simpl.
  destruct (open_read w file_path) as [content|e]; [|reflexivity].
  destruct (open_out_fault w) as [e|]; [reflexivity|].
  destruct (with_block _ _ _ _); reflexivity.
Qed.

Lemma open_read_ok w path content :
  open_read w path = Ok content <->
  open_in_fault w = None /\ fs w !! path = Some content.
Proof.
  unfold open_read. destruct (open_in_fault w).
  - split; [discriminate|intros [? _]; discriminate].
  - destruct (fs w !! path).
    + split; [intros [= ->]; auto|intros [_ [= ->]]; reflexivity].
    + split; [discriminate|intros [_ ?]; discriminate].
Qed.

Lemma records_yield_all rows : records (yield_all rows) = rows.
Proof. induction rows; simpl; congruence. Qed.

Lemma ending_yield_all rows : ending (yield_all rows) = None.
Proof. induction rows; simpl; auto. Qed.

Lemma yield_all_records s : ending s = None -> s = yield_all (records s).
Proof. induction s; simpl; intros H; try congruence. f_equal; auto. Qed.

Lemma loop_body_status w total pos row st st' :
  loop_body w total pos row st = Ok st' ->
  status st' = status st \/ exists p, status st' = status st ++ [Progress (processed st') p].
Proof.
  unfold loop_body. destruct (Nat.ltb _ 8); [intros [= ->]; auto|].
  intros H. apply bind_ok in H as (r8 & _ & H). apply bind_ok in H as (out & _ & H).
  inversion H; subst; clear H. unfold report_progress. simpl.
  destruct (Nat.eqb _ 0); [|auto]. destruct (redraw _ _); simpl; eauto.
Qed.

(** The loop prints progress lines only. *)
Lemma run_loop_status s : forall w total k st,
  exists l, status (exit_state (run_loop w total k s st)) = status st ++ l /\
            Forall is_progress l.
Proof.
  induction s as [|e|row s IH]; intros w total k st; simpl;
    try (destruct (read_fault w k); exists []; simpl; rewrite app_nil_r; now auto).
  destruct (read_fault w k); [exists []; simpl; rewrite app_nil_r; now auto|].
  destruct (loop_body w total (tell w (S k)) row st) as [st1|] eqn:Hb;
    [|exists []; simpl; rewrite app_nil_r; now auto].
  destruct (IH w total (S k) st1) as (l & -> & Hl).
  apply loop_body_status in Hb as [->|[p ->]]; [eauto|].
  exists (Progress (processed st1) p :: l). rewrite <- app_assoc. split; [reflexivity|].
  constructor; [red; eauto|assumption].
Qed.

Lemma convert_of_completed w file_path content st :
  completed w file_path content st ->
  let out := output_file_of file_path in
  convert_to_wigle_csv w file_path =
  {| returned := Some out;
     fs_after := <[out := outfile st]> (<[out := []]> (fs w));
     printed := status st ++
       [ClearLine;
        Summary (processed st)
          (final_pct (total_bytes_of w file_path)
             (tell w (calls (input_stream content))))] |}.
Proof.
  intros (Hfs & Hin & Hout & Hw0 & Hrun). rewrite convert_eq. simpl.
  rewrite (proj2 (open_read_ok w file_path content)) by auto.
  rewrite Hout, with_block_eq, Hw0. fold (entry_state file_path). rewrite Hrun.
  reflexivity.
Qed.

Lemma convert_returned_some w file_path p :
  returned (convert_to_wigle_csv w file_path) = Some p ->
  exists content st, completed w file_path content st.
Proof.
  rewrite convert_eq. simpl.
  destruct (open_read w file_path) as [content|] eqn:Hr; [|discriminate].
  apply open_read_ok in Hr as [Hin Hfs].
  destruct (open_out_fault w) eqn:Hout; [discriminate|].
  rewrite with_block_eq. simpl.
  destruct (write_fault w 0) eqn:Hw0; [discriminate|].
  fold (entry_state file_path).
  destruct (run_loop _ _ _ _ _) as [st|] eqn:Hrun; [|discriminate].
  intros _. exists content, st. repeat split; assumption.
Qed.

(** What a completed run has written and counted. *)
Lemma completed_data w file_path content st :
  completed w file_path content st ->
  let rows := records (input_stream content) in
  input_stream content = yield_all rows /\
  exists b, render (data_rows rows) = Ok b /\
            outfile st = header_bytes ++ b /\
            processed st = length (data_rows rows).
Proof.
  intros (_ & _ & _ & _ & Hrun). simpl.
  destruct (run_loop_written (input_stream content) w (total_bytes_of w file_path)
              0 (entry_state file_path))
    as (wr & b & Hr & Ho & Hp & _ & Hfin).
  rewrite Hrun in Ho, Hp. simpl in Ho, Hp.
  destruct (Hfin st Hrun) as [He ->].
  split; [now apply yield_all_records|]. exists b. auto.
Qed.

Lemma completes w file_path content :
  fs w !! file_path = Some content ->
  open_in_fault w = None -> open_out_fault w = None ->
  ending (input_stream content) = None ->
  (forall k, k <= length (records (input_stream content)) -> read_fault w k = None) ->
  (forall k, k <= length (data_rows (records (input_stream content))) ->
             write_fault w k = None) ->
  exists st, completed w file_path content st.
Proof.
  intros Hfs Hin Hout He Hrd Hwr.
  destruct (run_loop_finishes (input_stream content) w (total_bytes_of w file_path)
              0 (entry_state file_path)) as [st Hst]; auto.
  - intros j Hj. apply Hrd. lia.
  - intros j Hj. apply Hwr. simpl in Hj. lia.
  - apply input_renderable.
  - exists st. repeat split; auto. apply Hwr. lia.
Qed.

Lemma world_of_no_faults content : no_faults (world_of content).
Proof. repeat split. Qed.

Lemma length_data_rows rows :
  length (data_rows rows) = length (List.filter valid_row rows).
Proof. unfold data_rows. apply length_map. Qed.

Lemma no_faults_completes w file_path content rows :
  fs w !! file_path = Some content ->
  no_faults w ->
  input_stream content = yield_all rows ->
  exists st, completed w file_path content st.
Proof.
  intros Hfs (Hin & Hout & Hrd & Hwr) Hs.
  apply completes; auto. rewrite Hs. apply ending_yield_all.
Qed.

(** A run without faults on a file that parses into [rows]. *)
Lemma convert_no_faults w file_path content rows :
  fs w !! file_path = Some content ->
  no_faults w ->
  input_stream content = yield_all rows ->
  let o := convert_to_wigle_csv w file_path in
  let out := output_file_of file_path in
  exists b l pct,
    render (data_rows rows) = Ok b /\
    Forall is_progress l /\
    returned o = Some out /\
    fs_after o !! out = Some (header_bytes ++ b) /\
    printed o = Starting file_path out :: l ++
                [ClearLine; Summary (length (data_rows rows)) pct].
Proof.
  intros Hfs Hnf Hs. simpl.
  destruct (no_faults_completes _ _ _ _ Hfs Hnf Hs) as [st Hc].
  rewrite (convert_of_completed _ _ _ _ Hc). simpl.
  destruct (completed_data _ _ _ _ Hc) as (_ & b & Hb & Ho & Hp).
  rewrite Hs, records_yield_all in Hb, Hp.
  destruct Hc as (_ & _ & _ & _ & Hrun).
  destruct (run_loop_status (input_stream content) w (total_bytes_of w file_path)
              0 (entry_state file_path)) as (l & Hl & Hpl).
  rewrite Hrun in Hl. simpl in Hl.
  exists b, l. eexists. rewrite lookup_insert_eq, Ho, Hl, Hp.
  repeat split; auto.
Qed.

Lemma render_header_cons data b :
  render data = Ok b -> render (header :: data) = Ok (header_bytes ++ b).
Proof.
  intros H.
  change (render (header :: data))
    with (bind (row_bytes header)
            (fun x => bind (render data) (fun y => Ok (x ++ y)))).
  rewrite header_row_bytes, H. reflexivity.
Qed.

(** What a run without faults returns, prints and writes. *)
Lemma faultless_run_outcome w file_path content rows :
  fs w !! file_path = Some content ->
  no_faults w ->
  input_stream content = yield_all rows ->
  let o := convert_to_wigle_csv w file_path in
  let out := output_file_of file_path in
  returned o = Some out /\
  Forall (fun x => forall e, x <> ErrorLine e) (printed o) /\
  exists bytes, render (header :: data_rows rows) = Ok bytes /\
                fs_after o !! out = Some bytes.
Proof.
  intros Hfs Hnf Hs o out.
  destruct (convert_no_faults _ _ _ _ Hfs Hnf Hs) as (b & l & pct & Hb & Hl & Hr & Hf & Hp).
  fold o out in Hr, Hf, Hp.
  split; [exact Hr|]. split.
  - rewrite Hp. constructor; [discriminate|].
    apply Forall_app; split.
    + eapply Forall_impl; [exact Hl|]. intros x (n & p & ->) e. discriminate.
    + repeat constructor; discriminate.
  - exists (header_bytes ++ b). split; [now apply render_header_cons|exact Hf].
Qed.

(** C1: for an input file whose parsed content consists of the records
    [rows], of which M have at least 8 fields, a run that meets no I/O
    failure returns the output path, prints no error, and leaves in the
    output file the header record followed by exactly M data records; when
    no record has 8 fields (no record at all, or short records only) the
    output file holds the header record alone. *)
Theorem output_is_header_plus_valid_rows
        (w : world) (file_path : pystr) (content : list Byte.byte)
        (rows : list Csv.row) :
  fs w !! file_path = Some content ->
  no_faults w ->
  input_stream content = yield_all rows ->
  let o := convert_to_wigle_csv w file_path in
  let out := output_file_of file_path in
  let data := data_rows rows in
  length data = length (List.filter (fun r => Nat.leb 8 (length r)) rows) /\
  returned o = Some out /\
  Forall (fun x => forall e, x <> ErrorLine e) (printed o) /\
  (exists bytes, render (header :: data) = Ok bytes /\
                 fs_after o !! out = Some bytes) /\
  (List.filter (fun r => Nat.leb 8 (length r)) rows = [] ->
   fs_after o !! out = Some header_bytes).
Proof.
  intros Hfs Hnf Hs o out data.
  destruct (faultless_run_outcome _ _ _ _ Hfs Hnf Hs) as (Hr & Hp & bytes & Hb & Hf).
  fold o out in Hr, Hp, Hf. fold data in Hb.
  split; [apply length_data_rows|]. split; [exact Hr|]. split; [exact Hp|].
  split; [exists bytes; auto|].
  intros Hempty.
  assert (Hd : data = []).
  { unfold data, data_rows.
    change (List.filter valid_row rows)
      with (List.filter (fun r => Nat.leb 8 (length r)) rows).
    now rewrite Hempty. }
  pose proof (render_header_cons [] [] eq_refl) as Hh.
  rewrite app_nil_r in Hh. rewrite Hd in Hb. congruence.
Qed.

Lemma output_is_header_plus_valid_rows_witness :
  let o := convert_to_wigle_csv sample_world (py "capture.log") in
  let out := output_file_of (py "capture.log") in
  let data := data_rows sample_rows in
  length data = length (List.filter (fun r => Nat.leb 8 (length r)) sample_rows) /\
  returned o = Some out /\
  Forall (fun x => forall e, x <> ErrorLine e) (printed o) /\
  (exists bytes, render (header :: data) = Ok bytes /\
                 fs_after o !! out = Some bytes) /\
  (List.filter (fun r => Nat.leb 8 (length r)) sample_rows = [] ->
   fs_after o !! out = Some header_bytes).
Proof.
  apply (output_is_header_plus_valid_rows sample_world (py "capture.log")
           sample_log sample_rows).
  - reflexivity.
  - apply world_of_no_faults.
  - vm_compute. reflexivity.
Defined.

Lemma nth_error_data_rows rows i r :
  nth_error (List.filter valid_row rows) i = Some r ->
  nth_error (data_rows rows) i = Some (firstn 8 r).
Proof. intros H. unfold data_rows. now apply map_nth_error. Qed.

Lemma filter_valid_row r rows :
  In r (List.filter valid_row rows) -> 8 <= length r.
Proof. intros H. apply filter_In in H as [_ H]. now apply Nat.leb_le. Qed.

Lemma nth_error_firstn {A} (l : list A) n j :
  j < n -> nth_error (firstn n l) j = nth_error l j.
Proof.
  revert l j. induction n as [|n IH]; intros [|x l] [|j] H; simpl; auto; try lia.
  apply IH. lia.
Qed.

(** C2: in a run that meets no I/O failure, the data records of the output
    are, in the order of the input, the records of at least 8 fields, each
    cut to its first 8 fields: the i-th data record has exactly 8 fields, and
    its j-th field is the j-th field of the i-th valid input record. *)
Theorem data_records_keep_first_eight_fields
        (w : world) (file_path : pystr) (content : list Byte.byte)
        (rows : list Csv.row) :
  fs w !! file_path = Some content ->
  no_faults w ->
  input_stream content = yield_all rows ->
  let o := convert_to_wigle_csv w file_path in
  let valid := List.filter (fun r => Nat.leb 8 (length r)) rows in
  exists data bytes,
    render (header :: data) = Ok bytes /\
    fs_after o !! output_file_of file_path = Some bytes /\
    length data = length valid /\
    forall i r,
      nth_error valid i = Some r ->
      exists d,
        nth_error data i = Some d /\
        length d = 8 /\
        d = firstn 8 r /\
        forall j, j < 8 -> nth_error d j = nth_error r j.
Proof.
  intros Hfs Hnf Hs o valid.
  destruct (convert_no_faults _ _ _ _ Hfs Hnf Hs)
    as (b & l & pct & Hb & _ & _ & Hf & _).
  exists (data_rows rows), (header_bytes ++ b).
  split; [now apply render_header_cons|]. split; [exact Hf|].
  split; [apply length_data_rows|].
  intros i r Hi. exists (firstn 8 r).
  split; [now apply nth_error_data_rows|].
  assert (8 <= length r) by (eapply filter_valid_row, nth_error_In, Hi).
  split; [apply firstn_length_le; assumption|]. split; [reflexivity|].
  intros j Hj. now apply nth_error_firstn.
Qed.

Lemma data_records_keep_first_eight_fields_witness :
  let o := convert_to_wigle_csv sample_world (py "capture.log") in
  let valid := List.filter (fun r => Nat.leb 8 (length r)) sample_rows in
  exists data bytes,
    render (header :: data) = Ok bytes /\
    fs_after o !! output_file_of (py "capture.log") = Some bytes /\
    length data = length valid /\
    forall i r,
      nth_error valid i = Some r ->
      exists d,
        nth_error data i = Some d /\
        length d = 8 /\
        d = firstn 8 r /\
        forall j, j < 8 -> nth_error d j = nth_error r j.
Proof.
  apply (data_records_keep_first_eight_fields sample_world (py "capture.log")
           sample_log sample_rows).
  - reflexivity.
  - apply world_of_no_faults.
  - vm_compute. reflexivity.
Defined.

(** The run opens both files. *)
Lemma convert_opened w file_path content :
  open_read w file_path = Ok content ->
  open_out_fault w = None ->
  let o := convert_to_wigle_csv w file_path in
  let x := with_block w (total_bytes_of w file_path) content
             [Starting file_path (output_file_of file_path)] in
  fs_after o !! output_file_of file_path = Some (outfile (exit_state x)) /\
  returned o = match x with
               | Finished _ => Some (output_file_of file_path)
               | Aborted _ _ => None
               end /\
  printed o = match x with
              | Finished st => status st
              | Aborted st e => status st ++ [ErrorLine e]
              end.
Proof.
  intros Hin Hout. simpl. rewrite convert_eq. simpl. rewrite Hin, Hout. simpl.
  rewrite lookup_insert_eq. auto.
Qed.

(** What the output file holds when the [with] block is left. *)
Lemma with_block_outfile w total content printed0 :
  let x := with_block w total content printed0 in
  match write_fault w 0 with
  | Some _ => outfile (exit_state x) = []
  | None =>
      exists written b,
        render written = Ok b /\
        outfile (exit_state x) = header_bytes ++ b /\
        processed (exit_state x) = length written /\
        (exists rest, data_rows (records (input_stream content)) = written ++ rest) /\
        (forall st, x = Finished st ->
                    written = data_rows (records (input_stream content)))
  end.
Proof.
  simpl. rewrite with_block_eq.
  destruct (write_fault w 0); [reflexivity|].
  destruct (run_loop_written (input_stream content) w total 0
              (initial_state header_bytes printed0))
    as (wr & b & Hr & Ho & Hp & Hrest & Hfin).
  exists wr, b.
  destruct (run_loop _ _ _ _ _) as [st|st e] eqn:Hrun; simpl in *;
    (split; [assumption|split; [assumption|split; [assumption|split;
       [assumption|]]]]).
  - intros st' _. now apply (Hfin st).
  - intros st' H. discriminate.
Qed.

(** C3: the header is the record of the 8 names MAC, SSID, AuthMode,
    FirstSeen, Channel, RSSI, CurrentLatitude, CurrentLongitude, written as
    one line; in every run that opens both files the output file starts with
    that line, before any data row, unless the write of the header itself
    fails, which leaves the file empty. *)
Theorem header_is_written_first
        (w : world) (file_path : pystr) (content : list Byte.byte) :
  open_read w file_path = Ok content ->
  open_out_fault w = None ->
  let o := convert_to_wigle_csv w file_path in
  header = map py ["MAC"; "SSID"; "AuthMode"; "FirstSeen"; "Channel"; "RSSI";
                   "CurrentLatitude"; "CurrentLongitude"]%string /\
  length header = 8 /\
  row_bytes header = Ok header_bytes /\
  header_bytes =
    list_byte_of_string
      "MAC,SSID,AuthMode,FirstSeen,Channel,RSSI,CurrentLatitude,CurrentLongitude"
    ++ [Byte.x0d; Byte.x0a] /\
  exists bytes,
    fs_after o !! output_file_of file_path = Some bytes /\
    match write_fault w 0 with
    | Some _ => bytes = []
    | None =>
        exists data b, render data = Ok b /\ bytes = header_bytes ++ b
    end.
Proof.
  intros Hin Hout o.
  split; [reflexivity|]. split; [reflexivity|].
  split; [apply header_row_bytes|]. split; [reflexivity|].
  destruct (convert_opened _ _ _ Hin Hout) as (Hf & _ & _). fold o in Hf.
  eexists. split; [exact Hf|].
  pose proof (with_block_outfile w (total_bytes_of w file_path) content
                [Starting file_path (output_file_of file_path)]) as H.
  simpl in H. destruct (write_fault w 0); [exact H|].
  destruct H as (wr & b & Hr & Ho & _). eauto.
Qed.

Lemma header_is_written_first_witness :
  let o := convert_to_wigle_csv sample_world (py "capture.log") in
  header = map py ["MAC"; "SSID"; "AuthMode"; "FirstSeen"; "Channel"; "RSSI";
                   "CurrentLatitude"; "CurrentLongitude"]%string /\
  length header = 8 /\
  row_bytes header = Ok header_bytes /\
  header_bytes =
    list_byte_of_string
      "MAC,SSID,AuthMode,FirstSeen,Channel,RSSI,CurrentLatitude,CurrentLongitude"
    ++ [Byte.x0d; Byte.x0a] /\
  exists bytes,
    fs_after o !! output_file_of (py "capture.log") = Some bytes /\
    match write_fault sample_world 0 with
    | Some _ => bytes = []
    | None =>
        exists data b, render data = Ok b /\ bytes = header_bytes ++ b
    end.
Proof.
  apply (header_is_written_first sample_world (py "capture.log") sample_log).
  - reflexivity.
  - reflexivity.
Defined.




Lemma min_hundred_capped x :
  PyFloat.leb (PyFloat.min PyFloat.hundred x) PyFloat.hundred = true.
Proof.
  unfold PyFloat.min, PyFloat.ltb, PyFloat.leb, SFltb, SFleb.
  destruct (SFcompare x PyFloat.hundred) as [[| |]|] eqn:H;
    try reflexivity. now rewrite H.
Qed.

Lemma checkpoint_pct_capped total pos :
  PyFloat.leb (checkpoint_pct total pos) PyFloat.hundred = true.
Proof.
  unfold checkpoint_pct, percent.
  destruct (size_known total) as [n|]; [|reflexivity].
  destruct pos as [b|]; [|reflexivity]. simpl.
  destruct (PyFloat.int_truediv b n); [|reflexivity]. apply min_hundred_capped.
Qed.






Lemma data_row_bytes_ok content r :
  In r (data_rows (records (input_stream content))) ->
  exists b, row_bytes r = Ok b.
Proof.
  intros Hin. apply row_bytes_ok.
  pose proof (data_rows_fields_ok enc _ (input_stream_fields_ok content)) as H.
  rewrite List.Forall_forall in H. now apply H.
Qed.

(** A run that returns [None] has printed, last, the exception that one of
    its operations raised. *)
Lemma convert_returned_none w file_path :
  returned (convert_to_wigle_csv w file_path) = None ->
  exists l e, printed (convert_to_wigle_csv w file_path) = l ++ [ErrorLine e] /\
              raised_by w file_path e.
Proof.
  rewrite convert_eq. simpl.
  destruct (open_read w file_path) as [content|e] eqn:Hr.
  2:{ intros _. exists [Starting file_path (output_file_of file_path)], e.
      split; [reflexivity|]. left. exact Hr. }
  destruct (open_out_fault w) as [e|] eqn:Hout.
  { intros _. exists [Starting file_path (output_file_of file_path)], e.
    split; [reflexivity|]. right; left. exact Hout. }
  rewrite with_block_eq. simpl.
  destruct (write_fault w 0) as [e|] eqn:Hw0.
  { intros _. exists [Starting file_path (output_file_of file_path)], e.
    split; [reflexivity|]. do 3 right. left. eauto. }
  destruct (run_loop _ _ _ _ _) as [st|st e] eqn:Hrun; [discriminate|].
  intros _. exists (status st), e. split; [reflexivity|].
  apply run_loop_aborted in Hrun as [H|[H|[H|(r & Hin & H)]]].
  - right; right; left. exact H.
  - do 3 right. left. exact H.
  - do 4 right. eauto.
  - destruct (data_row_bytes_ok _ _ Hin) as [b Hb]. congruence.
Qed.







(** In [failing_world] the header and the first data row stay in the output
    file after the failure of the second write. *)
Example partial_output_example :
  let o := convert_to_wigle_csv failing_world (py "capture.log") in
  returned o = None /\
  fs_after o !! py "capture.wigle.csv" =
    Some (header_bytes ++ list_byte_of_string "a,b,c,d,e,f,g,h"
          ++ [Byte.x0d; Byte.x0a]) /\
  fs_after o !! py "capture.log" = Some two_rows_log.
Proof. vm_compute. auto. Qed.

Lemma decode_from_skip h bs : forall k,
  Utf8.decode_from h k bs = Utf8.decode_from h 0 (skipn k bs).
Proof.
  induction bs as [|b rest IH]; intros [|k]; simpl; auto.
Qed.

(** A character is recognised from the bytes of its own sequence. *)
Lemma next_char_prefix b1 tl c len :
  Utf8.next b1 tl = Utf8.Char c len ->
  1 <= len <= 4 /\
  length (firstn (Nat.pred len) tl) = Nat.pred len /\
  forall tl', Utf8.next b1 (firstn (Nat.pred len) tl ++ tl') = Utf8.Char c len.
Proof.
  unfold Utf8.next.
  destruct (N.ltb b1 128); [intros [= <- <-]; simpl; auto with lia|].
  destruct (N.ltb b1 194); [discriminate|].
  destruct (N.ltb b1 224).
  { destruct tl as [|b2 tl]; [discriminate|].
    destruct (Utf8.is_continuation b2) eqn:H2; [|discriminate].
    intros [= <- <-]. simpl. rewrite H2. auto with lia. }
  destruct (N.ltb b1 240).
  { destruct tl as [|b2 tl]; [discriminate|].
    destruct (negb (Utf8.is_continuation b2) || _)%bool eqn:H2; [discriminate|].
    destruct tl as [|b3 tl]; [discriminate|].
    destruct (Utf8.is_continuation b3) eqn:H3; [|discriminate].
    intros [= <- <-]. simpl. rewrite H2, H3. auto with lia. }
  destruct (N.ltb b1 245); [|discriminate].
  destruct tl as [|b2 tl]; [discriminate|].
  destruct (negb (Utf8.is_continuation b2) || _)%bool eqn:H2; [discriminate|].
  destruct tl as [|b3 tl]; [discriminate|].
  destruct (negb (Utf8.is_continuation b3)) eqn:H3; [discriminate|].
  destruct tl as [|b4 tl]; [discriminate|].
  destruct (Utf8.is_continuation b4) eqn:H4; [|discriminate].
  intros [= <- <-]. simpl. rewrite H2, H3, H4. auto with lia.
Qed.

Lemma firstn_map_firstn {A B} (f : A -> B) n m (l : list A) :
  n <= m -> firstn n (map f (firstn m l)) = map f (firstn n l).
Proof.
  revert n m. induction l as [|x l IH]; intros [|n] [|m] H; simpl; auto; try lia.
  f_equal. apply IH. lia.
Qed.

(** The strict decoder on a complete sequence followed by [kept]. *)
Lemma decode_strict_char b rest c len kept t :
  Utf8.next (Byte.to_N b) (map Byte.to_N (firstn 3 rest)) = Utf8.Char c len ->
  Utf8.decode_from Utf8.Strict 0 kept = Ok t ->
  Utf8.decode_from Utf8.Strict 0 (b :: firstn (Nat.pred len) rest ++ kept)
  = Ok (c :: t).
Proof.
  intros Hn Hk.
  destruct (next_char_prefix _ _ _ _ Hn) as (Hlen & Hused & Hpre).
  rewrite firstn_map_firstn in Hused, Hpre by lia.
  rewrite length_map in Hused.
  simpl.
  assert (Hf : map Byte.to_N (firstn 3 (firstn (Nat.pred len) rest ++ kept)) =
               map Byte.to_N (firstn (Nat.pred len) rest) ++
               map Byte.to_N (firstn (3 - Nat.pred len) kept)).
  { rewrite firstn_app, map_app, Hused. f_equal.
    rewrite firstn_all2; [reflexivity|]. rewrite Hused. lia. }
  rewrite Hf, Hpre, decode_from_skip.
  rewrite skipn_app, Hused, Nat.sub_diag.
  change (skipn 0 kept) with kept.
  rewrite skipn_all2 by lia. simpl. rewrite Hk. reflexivity.
Qed.

(** With [errors="ignore"] the decoder gives what the strict decoder gives
    on the input from which the bytes of the invalid sequences are removed. *)
Lemma decode_ignore_drops n : forall bs t,
  length bs <= n ->
  Utf8.decode_from Utf8.Ignore 0 bs = Ok t ->
  exists kept, sublist kept bs /\ Utf8.decode_from Utf8.Strict 0 kept = Ok t.
Proof.
  induction n as [|n IH]; intros [|b rest] t Hn; simpl in Hn; try lia;
    try (intros [= <-]; exists []; split; [constructor|reflexivity]).
  simpl.
  destruct (Utf8.next _ _) as [c len|reason len] eqn:Hnext.
  - rewrite decode_from_skip.
    destruct (Utf8.decode_from Utf8.Ignore 0 (skipn (Nat.pred len) rest))
      as [t'|] eqn:Hd; [|discriminate].
    simpl. intros [= <-].
    assert (Hlen : length (skipn (Nat.pred len) rest) <= n)
      by (rewrite length_skipn; lia).
    destruct (IH _ t' Hlen Hd) as (kept & Hsub & Hk).
    exists (b :: firstn (Nat.pred len) rest ++ kept). split.
    + constructor. rewrite <- (firstn_skipn (Nat.pred len) rest) at 2.
      apply sublist_app; [reflexivity|exact Hsub].
    + eapply decode_strict_char; eauto.
  - rewrite decode_from_skip. intros Hd.
    assert (Hlen : length (skipn (Nat.pred len) rest) <= n)
      by (rewrite length_skipn; lia).
    destruct (IH _ t Hlen Hd) as (kept & Hsub & Hk).
    exists kept. split; [|exact Hk].
    apply sublist_cons. etransitivity; [exact Hsub|]. apply sublist_drop.
Qed.

(** On an input that the strict decoder accepts, nothing is dropped. *)
Lemma decode_ignore_of_valid bs : forall k t,
  Utf8.decode_from Utf8.Strict k bs = Ok t ->
  Utf8.decode_from Utf8.Ignore k bs = Ok t.
Proof.
  induction bs as [|b rest IH]; intros k t; simpl; [auto|].
  destruct k as [|k]; [|apply IH].
  destruct (Utf8.next _ _) as [c len|reason len]; [|discriminate].
  destruct (Utf8.decode_from Utf8.Strict (Nat.pred len) rest) as [t'|] eqn:Hd;
    [|discriminate].
  simpl. intros [= <-]. rewrite (IH _ _ Hd). reflexivity.
Qed.

(** C7: with the error handler the source passes to [open], decoding never
    fails: the text read is what strict decoding gives once the bytes of the
    invalid sequences are dropped (all of the input when it is valid); and a
    run that meets no I/O failure on such a file, its text being parsed to
    the end, returns the output path, prints no error, and writes the header
    and the data rows of the records found in the text that is left. *)
Theorem decoding_errors_are_not_fatal
        (w : world) (file_path : pystr) (content : list Byte.byte) :
  fs w !! file_path = Some content ->
  no_faults w ->
  ending (input_stream content) = None ->
  let o := convert_to_wigle_csv w file_path in
  let text := decode_ignore content in
  Utf8.decode Utf8.Ignore content = Ok text /\
  (exists kept, sublist kept content /\ Utf8.decode Utf8.Strict kept = Ok text) /\
  (forall t, Utf8.decode Utf8.Strict content = Ok t -> text = t) /\
  returned o = Some (output_file_of file_path) /\
  Forall (fun x => forall e, x <> ErrorLine e) (printed o) /\
  exists bytes,
    render (header ::
            data_rows (records (Csv.reader_of (TextIO.readlines text)))) = Ok bytes /\
    fs_after o !! output_file_of file_path = Some bytes.
Proof.
  intros Hfs Hnf Hend o text.
  pose proof (decode_ignore_ok content) as Hdec. fold text in Hdec.
  split; [exact Hdec|]. split; [|split].
  - apply (decode_ignore_drops (length content)); [lia|exact Hdec].
  - intros t Ht. apply decode_ignore_of_valid in Ht.
    unfold Utf8.decode in Hdec. congruence.
  - apply yield_all_records in Hend.
    destruct (faultless_run_outcome _ _ _ _ Hfs Hnf Hend)
      as (Hr & Hp & Hb).
    auto.
Qed.

Lemma decoding_errors_are_not_fatal_witness :
  let o := convert_to_wigle_csv (world_of garbled_log) (py "capture.log") in
  let text := decode_ignore garbled_log in
  Utf8.decode Utf8.Ignore garbled_log = Ok text /\
  (exists kept, sublist kept garbled_log /\
                Utf8.decode Utf8.Strict kept = Ok text) /\
  (forall t, Utf8.decode Utf8.Strict garbled_log = Ok t -> text = t) /\
  returned o = Some (output_file_of (py "capture.log")) /\
  Forall (fun x => forall e, x <> ErrorLine e) (printed o) /\
  exists bytes,
    render (header ::
            data_rows (records (Csv.reader_of (TextIO.readlines text)))) = Ok bytes /\
    fs_after o !! output_file_of (py "capture.log") = Some bytes.
Proof.
  apply (decoding_errors_are_not_fatal (world_of garbled_log) (py "capture.log")
           garbled_log).
  - reflexivity.
  - apply world_of_no_faults.
  - vm_compute. reflexivity.
Defined.

(** The bytes of [garbled_log] are not valid UTF-8: strict decoding raises,
    while the run reads the record [row8] from them and writes it. *)
Example garbled_log_is_converted :
  Utf8.decode Utf8.Strict garbled_log = Raise (Exn Utf8.invalid_start) /\
  input_stream garbled_log = yield_all [row8] /\
  fs_after (convert_to_wigle_csv (world_of garbled_log) (py "capture.log"))
    !! py "capture.wigle.csv"
  = Some (header_bytes ++ list_byte_of_string "a,b,c,d,e,f,g,h"
          ++ [Byte.x0d; Byte.x0a]).
Proof. vm_compute. auto. Qed.

Lemma rfind_not_in c p : ~ In c p -> PosixPath.rfind c p = (-1)%Z.
Proof.
  induction p as [|x q IH]; simpl; [reflexivity|]. intros H.
  rewrite IH by tauto. simpl.
  destruct (N.eqb_spec x c); [subst; tauto|reflexivity].
Qed.

Lemma rfind_app_found c l r :
  ~ In c r -> PosixPath.rfind c (l ++ c :: r) = Z.of_nat (length l).
Proof.
  intros H. induction l as [|x l IH]; simpl.
  - rewrite rfind_not_in by assumption. simpl. now rewrite N.eqb_refl.
  - rewrite IH.
    destruct (Z.leb_spec 0 (Z.of_nat (length l))); lia.
Qed.

(** The last occurrence of [c] splits [p]. *)
Lemma last_occurrence c (p : pystr) :
  ~ In c p \/ exists l r, p = l ++ c :: r /\ ~ In c r.
Proof.
  induction p as [|x q IH]; [left; tauto|].
  destruct IH as [Hn|(l & r & -> & Hr)].
  - destruct (N.eq_dec x c) as [->|Hx].
    + right. exists [], q. auto.
    + left. simpl. tauto.
  - right. exists (x :: l), r. auto.
Qed.

Lemma skipn_app_length {A} (l r : list A) : skipn (length l) (l ++ r) = r.
Proof. induction l; simpl; auto. Qed.

Lemma firstn_app_length {A} (l r : list A) : firstn (length l) (l ++ r) = l.
Proof. induction l; simpl; f_equal; auto. Qed.

Lemma basename_no_sep_id p :
  ~ In PosixPath.sep p -> PosixPath.basename p = p /\ PosixPath.dirname p = [].
Proof.
  intros H. unfold PosixPath.basename, PosixPath.dirname,
    PosixPath.slice_from, PosixPath.slice_to.
  rewrite rfind_not_in by assumption. simpl. auto.
Qed.

Lemma basename_app l r :
  ~ In PosixPath.sep r ->
  PosixPath.basename (l ++ PosixPath.sep :: r) = r /\
  PosixPath.dirname (l ++ PosixPath.sep :: r) = strip_head (l ++ [PosixPath.sep]).
Proof.
  intros H. unfold PosixPath.basename, PosixPath.dirname,
    PosixPath.slice_from, PosixPath.slice_to.
  rewrite rfind_app_found by assumption.
  replace (Z.to_nat (Z.of_nat (length l) + 1)) with (length (l ++ [PosixPath.sep]))
    by (rewrite length_app; simpl; lia).
  replace (l ++ PosixPath.sep :: r) with ((l ++ [PosixPath.sep]) ++ r)
    by (rewrite <- app_assoc; reflexivity).
  rewrite skipn_app_length, firstn_app_length. split; reflexivity.
Qed.

(** A path is its base name, or a head that ends with the last separator
    followed by the base name. *)
Lemma basename_spec p :
  ~ In PosixPath.sep (PosixPath.basename p) /\
  ((p = PosixPath.basename p /\ PosixPath.dirname p = []) \/
   exists l, p = l ++ PosixPath.sep :: PosixPath.basename p /\
             PosixPath.dirname p = strip_head (l ++ [PosixPath.sep])).
Proof.
  destruct (last_occurrence PosixPath.sep p) as [Hn|(l & r & -> & Hr)].
  - destruct (basename_no_sep_id p Hn) as [-> ->]. auto.
  - destruct (basename_app l r Hr) as [-> ->]. split; [assumption|].
    right. exists l. auto.
Qed.

(** [splitext] cuts at the last dot or not at all. *)
Lemma splitext_spec b :
  fst (PosixPath.splitext b) ++ snd (PosixPath.splitext b) = b /\
  (snd (PosixPath.splitext b) = [] \/
   exists e, snd (PosixPath.splitext b) = PosixPath.extsep :: e /\
             ~ In PosixPath.extsep e).
Proof.
  unfold PosixPath.splitext.
  destruct (Z.ltb_spec (PosixPath.rfind PosixPath.sep b)
              (PosixPath.rfind PosixPath.extsep b)) as [Hlt|Hge];
    [|simpl; rewrite app_nil_r; auto].
  destruct (PosixPath.skip_leading_dots _ _ _);
    [|simpl; rewrite app_nil_r; auto].
  simpl. unfold PosixPath.slice_to, PosixPath.slice_from.
  split; [apply firstn_skipn|].
  destruct (last_occurrence PosixPath.extsep b) as [Hn|(l & r & -> & Hr)].
  - rewrite (rfind_not_in _ _ Hn) in Hlt.
    destruct (last_occurrence PosixPath.sep b) as [Hs|(l & r & -> & Hr)].
    + rewrite (rfind_not_in _ _ Hs) in Hlt. lia.
    + rewrite (rfind_app_found _ _ _ Hr) in Hlt. lia.
  - rewrite (rfind_app_found _ _ _ Hr), Nat2Z.id, skipn_app_length.
    right. exists r. auto.
Qed.

Lemma startswith_sep_false n :
  ~ In PosixPath.sep n -> PosixPath.startswith_sep n = false.
Proof.
  destruct n as [|c n]; simpl; [reflexivity|]. intros H.
  destruct (N.eqb_spec c PosixPath.sep); [subst; tauto|reflexivity].
Qed.

Lemma endswith_sep_true d :
  PosixPath.endswith_sep d = true -> exists d', d = d' ++ [PosixPath.sep].
Proof.
  unfold PosixPath.endswith_sep, PosixPath.startswith_sep.
  destruct (rev d) as [|c r] eqn:Hr; [discriminate|].
  intros H. apply N.eqb_eq in H. subst c.
  exists (rev r). rewrite <- (rev_involutive d), Hr. reflexivity.
Qed.

Lemma join_spec d n :
  ~ In PosixPath.sep n ->
  PosixPath.join d n =
  match d with
  | [] => n
  | _ => if PosixPath.endswith_sep d then d ++ n else d ++ PosixPath.sep :: n
  end.
Proof.
  intros H. unfold PosixPath.join. rewrite startswith_sep_false by assumption.
  destruct d; reflexivity.
Qed.

Lemma basename_join d n :
  ~ In PosixPath.sep n -> PosixPath.basename (PosixPath.join d n) = n.
Proof.
  intros H. rewrite join_spec by assumption.
  destruct d as [|c d]; [apply basename_no_sep_id; assumption|].
  destruct (PosixPath.endswith_sep (c :: d)) eqn:He.
  - apply endswith_sep_true in He as [d' ->].
    rewrite <- app_assoc. simpl. now apply basename_app.
  - now apply basename_app.
Qed.

Lemma base_name_no_sep p : ~ In PosixPath.sep (base_name_of p ++ wigle_suffix).
Proof.
  intros H. apply in_app_or in H as [H|H].
  - destruct (basename_spec p) as [Hn _]. apply Hn.
    destruct (splitext_spec (PosixPath.basename p)) as [Heq _].
    rewrite <- Heq. apply in_or_app. left. exact H.
  - vm_compute in H. intuition discriminate.
Qed.

Lemma wigle_suffix_eq :
  wigle_suffix =
  PosixPath.extsep :: [119; 105; 103; 108; 101; 46; 99; 115; 118]%N.
Proof. reflexivity. Qed.

(** The output file is never the input file. *)
Lemma output_file_ne_input p : output_file_of p <> p.
Proof.
  intros Heq.
  assert (Hb : PosixPath.basename p = base_name_of p ++ wigle_suffix).
  { rewrite <- Heq at 1. apply basename_join, base_name_no_sep. }
  destruct (splitext_spec (PosixPath.basename p)) as [Hsplit Hext].
  fold (base_name_of p) in Hsplit. rewrite <- Hsplit in Hb at 1.
  apply app_inv_head in Hb.
  rewrite wigle_suffix_eq in Hb.
  destruct Hext as [He|(e & He & Hn)]; rewrite He in Hb.
  - discriminate.
  - injection Hb as Hb. apply Hn. subst e. simpl. unfold PosixPath.extsep.
    auto 10.
Qed.

(** C4: the output path is [os.path.join] of the directory of the input and
    of the base name of the input, cut before its final extension as
    [os.path.splitext] finds it, with [.wigle.csv] appended: the base name is
    what follows the last separator, the part cut is empty or starts at the
    last dot, and the rest of the name is kept; [capture.log] gives
    [capture.wigle.csv] and [data.tar.csv] gives [data.tar.wigle.csv]. *)
Theorem output_path_derivation (file_path : pystr) :
  let dir := PosixPath.dirname file_path in
  let name := PosixPath.basename file_path in
  let root := fst (PosixPath.splitext name) in
  let ext := snd (PosixPath.splitext name) in
  let suffix := py ".wigle.csv" in
  ~ In PosixPath.sep name /\
  ((file_path = name /\ dir = []) \/
   exists l, file_path = l ++ PosixPath.sep :: name /\
             dir = strip_head (l ++ [PosixPath.sep])) /\
  root ++ ext = name /\
  (ext = [] \/ exists e, ext = PosixPath.extsep :: e /\ ~ In PosixPath.extsep e) /\
  output_file_of file_path = PosixPath.join dir (root ++ suffix) /\
  output_file_of file_path =
    match dir with
    | [] => root ++ suffix
    | _ => if PosixPath.endswith_sep dir then dir ++ root ++ suffix
           else dir ++ PosixPath.sep :: root ++ suffix
    end /\
  PosixPath.basename (output_file_of file_path) = root ++ suffix /\
  output_file_of (py "capture.log") = py "capture.wigle.csv" /\
  output_file_of (py "data.tar.csv") = py "data.tar.wigle.csv".
Proof.
  intros dir name root ext suffix.
  destruct (basename_spec file_path) as [Hn Hd].
  destruct (splitext_spec name) as [Hsplit Hext].
  split; [exact Hn|]. split; [exact Hd|]. split; [exact Hsplit|].
  split; [exact Hext|]. split; [reflexivity|].
  split; [apply join_spec, base_name_no_sep|].
  split; [apply basename_join, base_name_no_sep|].
  split; vm_compute; reflexivity.
Qed.

(** Names without an extension, and names made of dots. *)
Example output_path_examples :
  output_file_of (py "/a/b/.bashrc") = py "/a/b/.bashrc.wigle.csv" /\
  output_file_of (py "a//b.log") = py "a/b.wigle.csv" /\
  output_file_of (py "/x.log") = py "/x.wigle.csv" /\
  output_file_of (py "a.b/c") = py "a.b/c.wigle.csv" /\
  output_file_of (py "dir/") = py "dir/.wigle.csv" /\
  output_file_of (py "..") = py "...wigle.csv".
Proof. vm_compute. auto 10. Qed.

(** What a run that succeeds leaves: its output, a function of the content
    of its input, and its input as it was. *)
Lemma convert_success_output w file_path content :
  fs w !! file_path = Some content ->
  returned (convert_to_wigle_csv w file_path) <> None ->
  let o := convert_to_wigle_csv w file_path in
  (exists b, render (data_rows (records (input_stream content))) = Ok b /\
             fs_after o !! output_file_of file_path = Some (header_bytes ++ b)) /\
  fs_after o !! file_path = Some content.
Proof.
  intros Hfs Hret o.
  destruct (returned (convert_to_wigle_csv w file_path)) as [p|] eqn:Hp;
    [|contradiction].
  apply convert_returned_some in Hp as (content' & st & Hc).
  assert (content' = content) as -> by (destruct Hc as [Hfs' _]; congruence).
  destruct (completed_data _ _ _ _ Hc) as (_ & b & Hb & Ho & _).
  unfold o. rewrite (convert_of_completed _ _ _ _ Hc). simpl. split.
  - exists b. rewrite lookup_insert_eq, Ho. auto.
  - rewrite !lookup_insert_ne by apply output_file_ne_input. exact Hfs.
Qed.

(** C9: the output file of a run that succeeds is determined by the content
    of the input file: two runs that succeed on inputs of the same content
    leave the same bytes in their output files, whatever else differs (the
    files present before, the size reported, the positions reported, the
    paths); a run leaves its input file as it was, so a second run on the
    file system the first one left writes the same output again. *)
Theorem output_is_determined_by_input_content
        (w1 w2 : world) (path1 path2 : pystr) (content : list Byte.byte) :
  fs w1 !! path1 = Some content ->
  fs w2 !! path2 = Some content ->
  let o1 := convert_to_wigle_csv w1 path1 in
  let o2 := convert_to_wigle_csv w2 path2 in
  returned o1 <> None ->
  returned o2 <> None ->
  (exists bytes,
      render (header :: data_rows (records (input_stream content))) = Ok bytes /\
      fs_after o1 !! output_file_of path1 = Some bytes /\
      fs_after o2 !! output_file_of path2 = Some bytes) /\
  fs_after o1 !! path1 = Some content /\
  (forall w',
      fs w' = fs_after o1 ->
      returned (convert_to_wigle_csv w' path1) <> None ->
      fs_after (convert_to_wigle_csv w' path1) !! output_file_of path1 =
      fs_after o1 !! output_file_of path1).
Proof.
  intros Hfs1 Hfs2 o1 o2 Hr1 Hr2.
  destruct (convert_success_output _ _ _ Hfs1 Hr1) as ((b1 & Hb1 & Ho1) & Hin1).
  destruct (convert_success_output _ _ _ Hfs2 Hr2) as ((b2 & Hb2 & Ho2) & _).
  fold o1 in Ho1, Hin1. fold o2 in Ho2.
  assert (b2 = b1) as -> by congruence.
  split; [|split].
  - exists (header_bytes ++ b1). split; [now apply render_header_cons|auto].
  - exact Hin1.
  - intros w' Hw' Hr'.
    assert (Hfs' : fs w' !! path1 = Some content) by (rewrite Hw'; exact Hin1).
    destruct (convert_success_output _ _ _ Hfs' Hr') as ((b' & Hb' & Ho') & _).
    rewrite Ho', Ho1. congruence.
Qed.

Lemma output_is_determined_by_input_content_witness :
  let o1 := convert_to_wigle_csv sample_world (py "capture.log") in
  let o2 := convert_to_wigle_csv second_world (py "capture.log") in
  (exists bytes,
      render (header :: data_rows (records (input_stream sample_log))) = Ok bytes /\
      fs_after o1 !! output_file_of (py "capture.log") = Some bytes /\
      fs_after o2 !! output_file_of (py "capture.log") = Some bytes) /\
  fs_after o1 !! py "capture.log" = Some sample_log /\
  (forall w',
      fs w' = fs_after o1 ->
      returned (convert_to_wigle_csv w' (py "capture.log")) <> None ->
      fs_after (convert_to_wigle_csv w' (py "capture.log"))
        !! output_file_of (py "capture.log") =
      fs_after o1 !! output_file_of (py "capture.log")).
Proof.
  apply (output_is_determined_by_input_content sample_world second_world
           (py "capture.log") (py "capture.log") sample_log).
  - reflexivity.
  - vm_compute. reflexivity.
  - vm_compute. discriminate.
  - vm_compute. discriminate.
Defined.

Lemma lstrip_spec drop s :
  exists l, s = l ++ PyStr.lstrip drop s /\
            Forall (fun c => drop c = true) l /\
            (forall c t, PyStr.lstrip drop s = c :: t -> drop c = false).
Proof.
  induction s as [|c s IH]; simpl.
  - exists []. repeat split; [constructor|discriminate].
  - destruct (drop c) eqn:Hc.
    + destruct IH as (l & Hl & Hf & Hh). exists (c :: l).
      split; [simpl; congruence|]. split; [constructor; assumption|exact Hh].
    + exists []. split; [reflexivity|]. split; [constructor|].
      intros c' t [= <- _]. exact Hc.
Qed.

Lemma rstrip_app_last drop s c :
  PyStr.rstrip drop (s ++ [c]) =
  if drop c then PyStr.rstrip drop s else s ++ [c].
Proof.
  induction s as [|a s IH]; simpl.
  - destruct (drop c); reflexivity.
  - rewrite IH. destruct (drop c) eqn:Hc; [reflexivity|].
    destruct (s ++ [c]) eqn:E; [destruct s; discriminate|reflexivity].
Qed.

Lemma rstrip_spec drop s :
  exists r, s = PyStr.rstrip drop s ++ r /\
            Forall (fun c => drop c = true) r /\
            (forall c t, PyStr.rstrip drop s = t ++ [c] -> drop c = false).
Proof.
  induction s as [|c s IH] using rev_ind.
  - exists []. repeat split; [constructor|]. intros c t H. destruct t; discriminate.
  - rewrite rstrip_app_last. destruct (drop c) eqn:Hc.
    + destruct IH as (r & Hr & Hf & Hh). exists (r ++ [c]).
      split; [rewrite app_assoc, <- Hr; reflexivity|].
      split; [|exact Hh].
      apply Forall_app. split; [assumption|constructor; [assumption|constructor]].
    + exists []. split; [rewrite app_nil_r; reflexivity|]. split; [constructor|].
      intros c' t H. apply app_inj_tail in H as [_ <-]. exact Hc.
Qed.

Lemma rstrip_head drop s c t :
  PyStr.rstrip drop s = c :: t -> exists t', s = c :: t'.
Proof.
  destruct s as [|a s]; simpl; [discriminate|].
  destruct (PyStr.rstrip drop s); [destruct (drop a)|]; intros [= <- _]; eauto.
Qed.

(** [strip] removes a run of characters of the set at each end and leaves a
    string that has none at its ends. *)
Lemma strip_by_spec drop s :
  exists l r, s = l ++ PyStr.strip_by drop s ++ r /\
              Forall (fun c => drop c = true) l /\
              Forall (fun c => drop c = true) r /\
              bare_by drop (PyStr.strip_by drop s).
Proof.
  unfold PyStr.strip_by.
  destruct (lstrip_spec drop s) as (l & Hl & Hfl & Hh).
  destruct (rstrip_spec drop (PyStr.lstrip drop s)) as (r & Hr & Hfr & Ht).
  exists l, r. split; [rewrite <- Hr; exact Hl|].
  split; [exact Hfl|]. split; [exact Hfr|]. split; [|exact Ht].
  intros c t E. destruct (rstrip_head _ _ _ _ E) as (t' & E'). eapply Hh, E'.
Qed.

Lemma lstrip_app_drop drop l s :
  Forall (fun c => drop c = true) l ->
  PyStr.lstrip drop (l ++ s) = PyStr.lstrip drop s.
Proof.
  induction 1 as [|c l Hc _ IH]; simpl; [reflexivity|]. rewrite Hc. exact IH.
Qed.

Lemma rstrip_app_drop drop s r :
  Forall (fun c => drop c = true) r ->
  PyStr.rstrip drop (s ++ r) = PyStr.rstrip drop s.
Proof.
  induction r as [|c r IH] using rev_ind; intros H.
  - rewrite app_nil_r. reflexivity.
  - apply Forall_app in H as [Hr Hc]. inversion Hc; subst.
    rewrite app_assoc, rstrip_app_last. rewrite H1. auto.
Qed.

Lemma strip_by_bare drop s :
  bare_by drop s -> PyStr.strip_by drop s = s.
Proof.
  intros [Hh Ht]. unfold PyStr.strip_by.
  assert (PyStr.lstrip drop s = s) as ->.
  { destruct s as [|c t]; [reflexivity|]. simpl. rewrite (Hh c t eq_refl). reflexivity. }
  destruct s as [|c t] using rev_ind; [reflexivity|].
  rewrite rstrip_app_last, (Ht c t eq_refl). reflexivity.
Qed.

(** What was wrapped in characters of the set comes out of [strip]. *)
Lemma strip_by_wrapped drop l s r :
  Forall (fun c => drop c = true) l ->
  Forall (fun c => drop c = true) r ->
  bare_by drop s ->
  PyStr.strip_by drop (l ++ s ++ r) = s.
Proof.
  intros Hl Hr Hs. pose proof (strip_by_bare drop s Hs) as E.
  unfold PyStr.strip_by in *.
  rewrite lstrip_app_drop by exact Hl.
  destruct Hs as [Hh Ht].
  destruct s as [|c t].
  - simpl. assert (PyStr.lstrip drop r = []) as ->; [|reflexivity].
    clear -Hr. induction Hr as [|c r Hc _ IH]; simpl; [reflexivity|].
    rewrite Hc. exact IH.
  - change ((c :: t) ++ r) with (c :: (t ++ r)).
    assert (PyStr.lstrip drop (c :: t ++ r) = (c :: t) ++ r) as ->.
    { simpl. rewrite (Hh c t eq_refl). reflexivity. }
    rewrite rstrip_app_drop by exact Hr.
    assert (PyStr.lstrip drop (c :: t) = c :: t) as Hl'.
    { simpl. rewrite (Hh c t eq_refl). reflexivity. }
    rewrite Hl' in E. exact E.
Qed.

Lemma bare_by_wrap (drop : N -> bool) l s r :
  Forall (fun c => drop c = false) l ->
  Forall (fun c => drop c = false) r ->
  bare_by drop s ->
  bare_by drop (l ++ s ++ r).
Proof.
  intros Hl Hr [Hh Ht]. split.
  - intros c t E. destruct l as [|a l].
    + destruct s as [|b s].
      * simpl in E. subst r. inversion Hr; assumption.
      * injection E as <- _. eapply Hh. reflexivity.
    + injection E as <- _. inversion Hl; assumption.
  - intros c t E. destruct r as [|a r _] using rev_ind.
    + rewrite app_nil_r in E. destruct s as [|b s _] using rev_ind.
      * rewrite app_nil_r in E. subst l.
        apply Forall_app in Hl as [_ Hc]. inversion Hc; assumption.
      * rewrite app_assoc in E. apply app_inj_tail in E as [_ <-].
        eapply Ht. reflexivity.
    + rewrite !app_assoc in E. apply app_inj_tail in E as [_ <-].
      apply Forall_app in Hr as [_ Hc]. inversion Hc; assumption.
Qed.

Lemma bare_by_weaken (f g : N -> bool) s :
  (forall c, g c = true -> f c = true) -> bare_by f s -> bare_by g s.
Proof.
  intros H [Hh Ht]. split; intros c t E.
  - specialize (Hh c t E). destruct (g c) eqn:G; [|reflexivity].
    rewrite (H c G) in Hh. discriminate.
  - specialize (Ht c t E). destruct (g c) eqn:G; [|reflexivity].
    rewrite (H c G) in Ht. discriminate.
Qed.

Lemma bare_spec drop s : bare drop s = true <-> bare_by drop s.
Proof.
  destruct s as [|c t]; simpl.
  - split; [|reflexivity]. intros _. split; intros c t E; [discriminate|].
    destruct t; discriminate.
  - rewrite andb_true_iff, !negb_true_iff. split.
    + intros [Hc Hl]. split.
      * intros c' t' [= <- _]. exact Hc.
      * intros c' t' E.
        assert (List.last t c = c') as <-; [|exact Hl].
        change (List.last t c) with (List.last (c :: t) c) at 1 || idtac.
        destruct t' as [|a t'].
        -- injection E as -> ->. reflexivity.
        -- injection E as <- ->. apply last_last.
    + intros [Hh Ht]. split; [eapply Hh; reflexivity|].
      destruct t as [|a t _] using rev_ind.
      * simpl. eapply Hh. reflexivity.
      * rewrite last_last. apply (Ht a (c :: t)). reflexivity.
Qed.

Lemma wrapping_spec c :
  wrapping c = true <->
  PyStr.isspace c = true \/ PyStr.among [dquote] c = true \/
  PyStr.among [squote] c = true.
Proof.
  unfold wrapping, PyStr.among, existsb.
  destruct (PyStr.isspace c), (N.eqb c dquote), (N.eqb c squote); cbn;
    intuition congruence.
Qed.

Lemma normalize_path_spec s :
  exists l r, s = l ++ _normalize_path s ++ r /\
              Forall (fun c => wrapping c = true) l /\
              Forall (fun c => wrapping c = true) r /\
              bare_by (PyStr.among [squote]) (_normalize_path s).
Proof.
  unfold _normalize_path, PyStr.strip, PyStr.strip_chars.
  destruct (strip_by_spec PyStr.isspace s) as (l1 & r1 & E1 & Hl1 & Hr1 & _).
  set (s1 := PyStr.strip_by PyStr.isspace s) in *.
  destruct (strip_by_spec (PyStr.among [dquote]) s1) as (l2 & r2 & E2 & Hl2 & Hr2 & _).
  set (s2 := PyStr.strip_by (PyStr.among [dquote]) s1) in *.
  destruct (strip_by_spec (PyStr.among [squote]) s2) as (l3 & r3 & E3 & Hl3 & Hr3 & B).
  set (s3 := PyStr.strip_by (PyStr.among [squote]) s2) in *.
  exists (l1 ++ l2 ++ l3), (r3 ++ r2 ++ r1).
  split; [rewrite E1, E2, E3, <- !app_assoc; reflexivity|].
  assert (W : forall f l, (forall c, f c = true -> wrapping c = true) ->
                          Forall (fun c => f c = true) l ->
                          Forall (fun c => wrapping c = true) l).
  { intros f l Hf Hl. eapply Forall_impl; [exact Hl|]. exact Hf. }
  assert (W1 := W PyStr.isspace).
  assert (W2 := W (PyStr.among [dquote])).
  assert (W3 := W (PyStr.among [squote])).
  split; [|split; [|exact B]].
  - rewrite !Forall_app. repeat split.
    + apply W1; [|exact Hl1]. intros c H. apply wrapping_spec. auto.
    + apply W2; [|exact Hl2]. intros c H. apply wrapping_spec. auto.
    + apply W3; [|exact Hl3]. intros c H. apply wrapping_spec. auto.
  - rewrite !Forall_app. repeat split.
    + apply W3; [|exact Hr3]. intros c H. apply wrapping_spec. auto.
    + apply W2; [|exact Hr2]. intros c H. apply wrapping_spec. auto.
    + apply W1; [|exact Hr1]. intros c H. apply wrapping_spec. auto.
Qed.

(** X1: [_normalize_path] only removes characters at the two ends, and only
    white space and quotes: the argument is the result between two runs of
    such characters, so no character inside the path is changed or removed
    and the result is never longer than the argument. *)
Theorem normalize_path_only_trims (s : pystr) :
  exists l r,
    s = l ++ _normalize_path s ++ r /\
    forallb wrapping l = true /\ forallb wrapping r = true /\
    length (_normalize_path s) <= length s.
Proof.
  destruct (normalize_path_spec s) as (l & r & E & Hl & Hr & _).
  exists l, r. split; [exact E|].
  split; [apply forallb_forall; intros c Hc; rewrite List.Forall_forall in Hl; auto|].
  split; [apply forallb_forall; intros c Hc; rewrite List.Forall_forall in Hr; auto|].
  rewrite E at 2. rewrite !length_app. lia.
Qed.

Lemma normalize_path_bare s :
  bare_by wrapping s -> _normalize_path s = s.
Proof.
  intros B. unfold _normalize_path, PyStr.strip, PyStr.strip_chars.
  rewrite (strip_by_bare PyStr.isspace s),
          (strip_by_bare (PyStr.among [dquote]) s),
          (strip_by_bare (PyStr.among [squote]) s); [reflexivity| | |];
    (eapply bare_by_weaken; [|exact B]); intros c H; apply wrapping_spec; auto.
Qed.

(** X2: a path passes through [_normalize_path] unchanged exactly when it
    neither starts nor ends with white space, a double quote or a single
    quote. *)
Theorem normalize_path_fixed_points (s : pystr) :
  _normalize_path s = s <-> bare wrapping s = true.
Proof.
  rewrite bare_spec. split; [|apply normalize_path_bare].
  intros E. unfold _normalize_path, PyStr.strip, PyStr.strip_chars in E.
  destruct (strip_by_spec PyStr.isspace s) as (l1 & r1 & E1 & _ & _ & B1).
  set (s1 := PyStr.strip_by PyStr.isspace s) in *.
  destruct (strip_by_spec (PyStr.among [dquote]) s1) as (l2 & r2 & E2 & _ & _ & B2).
  set (s2 := PyStr.strip_by (PyStr.among [dquote]) s1) in *.
  destruct (strip_by_spec (PyStr.among [squote]) s2) as (l3 & r3 & E3 & _ & _ & B3).
  set (s3 := PyStr.strip_by (PyStr.among [squote]) s2) in *.
  assert (L : length s = length l1 + length l2 + length l3 + length s3
                         + length r3 + length r2 + length r1).
  { rewrite E1, E2, E3 at 1. rewrite !length_app. lia. }
  rewrite E in L.
  assert (l1 = [] /\ l2 = [] /\ l3 = [] /\ r1 = [] /\ r2 = [] /\ r3 = [])
    as (-> & -> & -> & -> & -> & ->).
  { repeat split; apply length_zero_iff_nil; lia. }
  simpl in E1, E2, E3. rewrite app_nil_r in E1, E2, E3.
  rewrite <- E3 in B3. rewrite <- E2 in B2, B3. rewrite <- E1 in B1, B2, B3.
  destruct B1 as [H1 T1], B2 as [H2 T2], B3 as [H3 T3].
  split; intros c t Ec.
  - specialize (H1 c t Ec). specialize (H2 c t Ec). specialize (H3 c t Ec).
    destruct (wrapping c) eqn:Wc; [|reflexivity].
    apply wrapping_spec in Wc. destruct Wc as [?|[?|?]]; congruence.
  - specialize (T1 c t Ec). specialize (T2 c t Ec). specialize (T3 c t Ec).
    destruct (wrapping c) eqn:Wc; [|reflexivity].
    apply wrapping_spec in Wc. destruct Wc as [?|[?|?]]; congruence.
Qed.

Lemma normalize_path_unwraps_aux ws1 q1 a1 p a2 q2 ws2 :
  Forall (fun c => PyStr.isspace c = true) ws1 ->
  Forall (fun c => PyStr.isspace c = true) ws2 ->
  Forall (fun c => c = dquote) q1 -> Forall (fun c => c = dquote) q2 ->
  Forall (fun c => c = squote) a1 -> Forall (fun c => c = squote) a2 ->
  bare_by wrapping p ->
  _normalize_path (ws1 ++ (q1 ++ (a1 ++ p ++ a2) ++ q2) ++ ws2) = p.
Proof.
  intros Hw1 Hw2 Hq1 Hq2 Ha1 Ha2 Bp.
  assert (Bs : bare_by PyStr.isspace p).
  { eapply bare_by_weaken; [|exact Bp]. intros c H. apply wrapping_spec. auto. }
  assert (Bd : bare_by (PyStr.among [dquote]) p).
  { eapply bare_by_weaken; [|exact Bp]. intros c H. apply wrapping_spec. auto. }
  assert (Ba : bare_by (PyStr.among [squote]) p).
  { eapply bare_by_weaken; [|exact Bp]. intros c H. apply wrapping_spec. auto. }
  assert (Q : forall (f : N -> bool) (v : N) l,
             f v = false -> Forall (fun c => c = v) l ->
             Forall (fun c => f c = false) l).
  { intros f v l Hv Hl. eapply Forall_impl; [exact Hl|]. intros c ->. exact Hv. }
  assert (Y : forall (v : N) l,
             Forall (fun c => c = v) l ->
             Forall (fun c => PyStr.among [v] c = true) l).
  { intros v l Hl. eapply Forall_impl; [exact Hl|]. intros c ->.
    unfold PyStr.among. simpl. rewrite N.eqb_refl. reflexivity. }
  unfold _normalize_path, PyStr.strip, PyStr.strip_chars.
  rewrite strip_by_wrapped; [| exact Hw1 | exact Hw2 |].
  2:{ apply bare_by_wrap; [eapply Q; [|exact Hq1]; reflexivity
                          |eapply Q; [|exact Hq2]; reflexivity|].
      apply bare_by_wrap; [eapply Q; [|exact Ha1]; reflexivity
                          |eapply Q; [|exact Ha2]; reflexivity|exact Bs]. }
  rewrite strip_by_wrapped; [| apply Y, Hq1 | apply Y, Hq2 |].
  2:{ apply bare_by_wrap; [eapply Q; [|exact Ha1]; reflexivity
                          |eapply Q; [|exact Ha2]; reflexivity|exact Bd]. }
  apply strip_by_wrapped; [apply Y, Ha1 | apply Y, Ha2 | exact Ba].
Qed.

(** X3: a path that neither starts nor ends with white space or a quote is
    recovered from any wrapping of it in single quotes, then double quotes,
    then white space, whatever the number of each on each side. *)
Theorem normalize_path_unwraps (ws1 q1 a1 p a2 q2 ws2 : pystr) :
  forallb PyStr.isspace (ws1 ++ ws2) = true ->
  forallb (N.eqb dquote) (q1 ++ q2) = true ->
  forallb (N.eqb squote) (a1 ++ a2) = true ->
  bare wrapping p = true ->
  _normalize_path (ws1 ++ q1 ++ a1 ++ p ++ a2 ++ q2 ++ ws2) = p.
Proof.
  intros Hw Hq Ha Bp.
  rewrite forallb_app, andb_true_iff in Hw, Hq, Ha.
  destruct Hw as [Hw1 Hw2], Hq as [Hq1 Hq2], Ha as [Ha1 Ha2].
  rewrite forallb_forall in Hw1, Hw2, Hq1, Hq2, Ha1, Ha2.
  rewrite <- (normalize_path_unwraps_aux ws1 q1 a1 p a2 q2 ws2) at 2.
  - rewrite <- !app_assoc. reflexivity.
  - apply List.Forall_forall. exact Hw1.
  - apply List.Forall_forall. exact Hw2.
  - apply List.Forall_forall. intros c Hc. symmetry. apply N.eqb_eq. auto.
  - apply List.Forall_forall. intros c Hc. symmetry. apply N.eqb_eq. auto.
  - apply List.Forall_forall. intros c Hc. symmetry. apply N.eqb_eq. auto.
  - apply List.Forall_forall. intros c Hc. symmetry. apply N.eqb_eq. auto.
  - apply bare_spec. exact Bp.
Qed.

Lemma normalize_path_unwraps_witness :
  _normalize_path (py "  " ++ [dquote] ++ [] ++ py "/tmp/my logs/capture.log"
                   ++ [] ++ [dquote] ++ py " ")
  = py "/tmp/my logs/capture.log".
Proof.
  apply (normalize_path_unwraps (py "  ") [dquote] []
           (py "/tmp/my logs/capture.log") [] [dquote] (py " "));
    reflexivity.
Defined.

Lemma strip_idempotent s : PyStr.strip (PyStr.strip s) = PyStr.strip s.
Proof.
  unfold PyStr.strip.
  destruct (strip_by_spec PyStr.isspace s) as (_ & _ & _ & _ & _ & B).
  apply strip_by_bare, B.
Qed.

Lemma normalize_path_strip s :
  _normalize_path (PyStr.strip s) = _normalize_path s.
Proof. unfold _normalize_path. rewrite strip_idempotent. reflexivity. Qed.

Lemma isfile_spec w p :
  isfile w p = true <-> p <> [] /\ is_Some (fs w !! p).
Proof.
  unfold isfile. destruct p as [|c p].
  - split; [discriminate|]. intros [H _]. congruence.
  - rewrite bool_decide_eq_true. split; [intros H; split; [discriminate|exact H]|].
    intros [_ H]. exact H.
Qed.

(** One turn of the loop of [prompt_for_file] on a line typed. *)
Lemma prompt_loop_typed w line rest shown :
  prompt_loop w (Typed line :: rest) shown =
  match PyStr.strip line with
  | [] => prompt_loop w rest (shown ++ [Prompt; PleaseType])
  | s =>
      if quit_word s then Returned None (shown ++ [Prompt]) rest
      else if isfile w (_normalize_path line)
           then Returned (Some (_normalize_path line)) (shown ++ [Prompt]) rest
           else prompt_loop w rest
                  (shown ++ [Prompt; NotFoundTryAgain (_normalize_path line)])
  end.
Proof.
  cbn [prompt_loop]. rewrite <- (normalize_path_strip line).
  destruct (PyStr.strip line) as [|c s]; [rewrite <- app_assoc; reflexivity|].
  destruct (quit_word (c :: s)); [reflexivity|].
  destruct (isfile w (_normalize_path (c :: s))); [reflexivity|].
  rewrite <- app_assoc. reflexivity.
Qed.

Lemma prompt_loop_asks_again w pre : forall rest shown,
  forallb (asks_again w) pre = true ->
  exists replies,
    length replies = length pre /\
    Forall is_reply replies /\
    prompt_loop w (pre ++ rest) shown
    = prompt_loop w rest (shown ++ flat_map (fun r => [Prompt; r]) replies).
Proof.
  induction pre as [|i pre IH]; intros rest shown H.
  - exists []. rewrite app_nil_r. auto.
  - simpl in H. apply andb_true_iff in H as [Hi Hpre].
    destruct i as [line| | |e]; try discriminate. simpl in Hi.
    change ((Typed line :: pre) ++ rest) with (Typed line :: (pre ++ rest)).
    rewrite prompt_loop_typed.
    destruct (PyStr.strip line) as [|c s] eqn:Es.
    + destruct (IH rest (shown ++ [Prompt; PleaseType]) Hpre) as (l & Hl & Hr & E).
      exists (PleaseType :: l).
      split; [simpl; lia|]. split; [constructor; [left; reflexivity|exact Hr]|].
      rewrite E, <- app_assoc. reflexivity.
    + apply andb_true_iff in Hi as [Hq Hf]. apply negb_true_iff in Hq, Hf.
      rewrite Hq, Hf.
      destruct (IH rest (shown ++ [Prompt; NotFoundTryAgain (_normalize_path line)])
                  Hpre) as (l & Hl & Hr & E).
      exists (NotFoundTryAgain (_normalize_path line) :: l).
      split; [simpl; lia|]. split; [constructor; [right; eauto|exact Hr]|].
      rewrite E, <- app_assoc. reflexivity.
Qed.

Lemma prompt_loop_returned w inputs : forall shown p shown' unread,
  prompt_loop w inputs shown = Returned (Some p) shown' unread ->
  isfile w p = true /\
  exists pre line,
    inputs = pre ++ Typed line :: unread /\
    forallb (asks_again w) pre = true /\
    p = _normalize_path line /\
    quit_word (PyStr.strip line) = false.
Proof.
  induction inputs as [|i inputs IH]; intros shown p shown' unread H.
  - discriminate.
  - destruct i as [line| | |e]; try discriminate.
    rewrite prompt_loop_typed in H.
    destruct (PyStr.strip line) as [|c s] eqn:Es.
    + destruct (IH _ _ _ _ H) as (Hf & pre & l & -> & Hpre & Hp & Hq).
      split; [exact Hf|]. exists (Typed line :: pre), l.
      split; [reflexivity|]. split; [|auto].
      simpl. rewrite Es. exact Hpre.
    + destruct (quit_word (c :: s)) eqn:Hq; [discriminate|].
      destruct (isfile w (_normalize_path line)) eqn:Hf.
      * injection H as <- _ <-. split; [exact Hf|].
        exists [], line. rewrite Es. auto.
      * destruct (IH _ _ _ _ H) as (Hf' & pre & l & -> & Hpre & Hp & Hq').
        split; [exact Hf'|]. exists (Typed line :: pre), l.
        split; [reflexivity|]. split; [|auto].
        simpl. rewrite Es, Hq, Hf. exact Hpre.
Qed.

(** X4: the path [prompt_for_file] returns was validated: it is not empty,
    it names a file, and it is the normalised form of the last line read,
    which was no word to quit; every line read before it was blank or named
    no file, and the lines after it are left unread. *)
Theorem prompt_returns_a_validated_path
        (w : world) (inputs unread : list input_outcome) (p : pystr)
        (shown : list message) :
  prompt_for_file w inputs = Returned (Some p) shown unread ->
  p <> [] /\ is_Some (fs w !! p) /\
  exists pre line,
    inputs = pre ++ Typed line :: unread /\
    forallb (asks_again w) pre = true /\
    p = _normalize_path line /\
    quit_word (PyStr.strip line) = false.
Proof.
  intros H. destruct (prompt_loop_returned _ _ _ _ _ _ H) as (Hf & Hrest).
  apply isfile_spec in Hf as [Hne Hs]. auto.
Qed.

Lemma prompt_returns_a_validated_path_witness :
  let p := py "capture.log" in
  p <> [] /\ is_Some (fs sample_world !! p) /\
  exists pre line,
    [Typed (py "  "); Typed (py "capture.txt"); Typed (py " 'capture.log' ");
     Typed (py "q")]
    = pre ++ Typed line :: [Typed (py "q")] /\
    forallb (asks_again sample_world) pre = true /\
    p = _normalize_path line /\
    quit_word (PyStr.strip line) = false.
Proof.
  apply (prompt_returns_a_validated_path sample_world
           [Typed (py "  "); Typed (py "capture.txt");
            Typed (py " 'capture.log' "); Typed (py "q")]
           [Typed (py "q")] (py "capture.log")
           [Prompt; PleaseType; Prompt; NotFoundTryAgain (py "capture.txt");
            Prompt]).
  vm_compute. reflexivity.
Defined.

Lemma in_case_lower w : forall upper,
  Forall (fun c => (97 <= c <= 122)%N) w ->
  PyStr.lower_is w (in_case upper w) = true.
Proof.
  induction w as [|c w IH]; intros upper H; [destruct upper; reflexivity|].
  inversion H as [|? ? Hc Hw]; subst.
  assert (Hlow : PyStr.lower_ascii c = Some c).
  { unfold PyStr.lower_ascii.
    destruct (N.leb_spec 65 c), (N.leb_spec c 90); simpl; try lia;
      destruct (N.ltb_spec c 128); try lia; reflexivity. }
  destruct upper as [|b u].
  - simpl. rewrite Hlow, N.eqb_refl. simpl.
    specialize (IH [] Hw). destruct w; exact IH.
  - simpl. destruct b.
    + assert (PyStr.lower_ascii (c - 32) = Some c) as ->.
      { unfold PyStr.lower_ascii.
        destruct (N.leb_spec 65 (c - 32)), (N.leb_spec (c - 32) 90); simpl;
          try lia. f_equal. lia. }
      rewrite N.eqb_refl. simpl. apply IH, Hw.
    + rewrite Hlow, N.eqb_refl. simpl. apply IH, Hw.
Qed.

Lemma in_case_quit_word upper word :
  In word quit_words -> quit_word (in_case upper word) = true.
Proof.
  intros Hin. unfold quit_word.
  assert (H : PyStr.lower_is word (in_case upper word) = true).
  { apply in_case_lower.
    destruct Hin as [<-|[<-|[<-|[]]]]; repeat constructor; vm_compute;
      intros; discriminate. }
  destruct Hin as [<-|[<-|[<-|[]]]]; rewrite H, ?orb_true_r; reflexivity.
Qed.

Lemma in_case_bare upper word :
  In word quit_words ->
  bare_by PyStr.isspace (in_case upper word) /\ in_case upper word <> [].
Proof.
  intros Hin.
  assert (Hall : Forall (fun c => PyStr.isspace c = false) (in_case upper word)).
  { assert (Hw : Forall (fun c => (97 <= c <= 122)%N) word).
    { destruct Hin as [<-|[<-|[<-|[]]]]; repeat constructor; vm_compute;
        intros; discriminate. }
    clear Hin. revert upper. induction Hw as [|c w Hc _ IH]; intros upper.
    - destruct upper; constructor.
    - assert (S1 : PyStr.isspace c = false).
      { unfold PyStr.isspace.
        repeat match goal with
               | |- context [N.leb ?a ?b] => destruct (N.leb_spec a b); try lia
               | |- context [N.eqb ?a ?b] => destruct (N.eqb_spec a b); try lia
               end; reflexivity. }
      assert (S2 : PyStr.isspace (c - 32) = false).
      { unfold PyStr.isspace.
        repeat match goal with
               | |- context [N.leb ?a ?b] => destruct (N.leb_spec a b); try lia
               | |- context [N.eqb ?a ?b] => destruct (N.eqb_spec a b); try lia
               end; reflexivity. }
      destruct upper as [|b u]; simpl.
      + constructor; [exact S1|]. specialize (IH []). destruct w; exact IH.
      + constructor; [destruct b; assumption|apply IH]. }
  split.
  - split; intros c t E; rewrite E in Hall.
    + inversion Hall; assumption.
    + apply Forall_app in Hall as [_ Hc]. inversion Hc; assumption.
  - destruct Hin as [<-|[<-|[<-|[]]]]; destruct upper; discriminate.
Qed.

(** X5: [q], [quit] and [exit], typed with their letters in any case and
    with any white space around them, end [prompt_for_file] with [None] at
    once, whatever files exist: a file of such a name cannot be chosen by
    typing its bare name. The lines that follow are left unread. *)
Theorem prompt_quits_on_quit_words
        (w : world) (word ws1 ws2 : pystr) (upper : list bool)
        (rest : list input_outcome) :
  In word quit_words ->
  forallb PyStr.isspace (ws1 ++ ws2) = true ->
  prompt_for_file w (Typed (ws1 ++ in_case upper word ++ ws2) :: rest)
  = Returned None [Prompt] rest.
Proof.
  intros Hin Hws. unfold prompt_for_file. rewrite prompt_loop_typed.
  rewrite forallb_app, andb_true_iff in Hws. destruct Hws as [H1 H2].
  rewrite forallb_forall in H1, H2.
  destruct (in_case_bare upper word Hin) as [B Hne].
  assert (E : PyStr.strip (ws1 ++ in_case upper word ++ ws2)
              = in_case upper word).
  { apply strip_by_wrapped; [apply List.Forall_forall, H1
                            |apply List.Forall_forall, H2|exact B]. }
  rewrite E. destruct (in_case upper word) as [|c s] eqn:Ew; [congruence|].
  rewrite <- Ew, (in_case_quit_word upper word Hin). reflexivity.
Qed.

Lemma prompt_quits_on_quit_words_witness :
  prompt_for_file (world_of [])
    (Typed (py " " ++ in_case [true; false; true] (py "quit") ++ py "  ")
     :: [Typed (py "capture.log")])
  = Returned None [Prompt] [Typed (py "capture.log")].
Proof.
  apply (prompt_quits_on_quit_words (world_of []) (py "quit") (py " ")
           (py "  ") [true; false; true] [Typed (py "capture.log")]).
  - vm_compute. auto.
  - reflexivity.
Defined.

(** X6: [prompt_for_file] never gives up by itself: as long as every line
    typed is blank or names no file (and is no word to quit), it is waiting
    for another line, and what it has shown is one prompt and one reply for
    each line, then the next prompt. *)
Theorem prompt_keeps_asking
        (w : world) (inputs : list input_outcome) :
  forallb (asks_again w) inputs = true ->
  exists replies,
    length replies = length inputs /\
    Forall is_reply replies /\
    prompt_for_file w inputs
    = Asking (flat_map (fun r => [Prompt; r]) replies ++ [Prompt]).
Proof.
  intros H. unfold prompt_for_file.
  destruct (prompt_loop_asks_again w inputs [] [] H) as (l & Hl & Hr & E).
  exists l. split; [exact Hl|]. split; [exact Hr|].
  rewrite app_nil_r in E. rewrite E. reflexivity.
Qed.

Lemma prompt_keeps_asking_witness :
  exists replies,
    length replies = 3 /\
    Forall is_reply replies /\
    prompt_for_file sample_world
      [Typed []; Typed (py "capture.txt"); Typed (py "'q'")]
    = Asking (flat_map (fun r => [Prompt; r]) replies ++ [Prompt]).
Proof.
  apply (prompt_keeps_asking sample_world
           [Typed []; Typed (py "capture.txt"); Typed (py "'q'")]).
  vm_compute. reflexivity.
Defined.

(** X7: the first outcome of [input] that is not such a line decides: the
    lines before it leave no trace in the result, and the lines after it are
    not read. End of input and an interrupt give [None], a word to quit gives
    [None], a line naming a file gives its normalised path, and any other
    exception of [input] leaves [prompt_for_file]. *)
Theorem prompt_first_decisive_input
        (w : world) (pre rest : list input_outcome) (i : input_outcome) :
  forallb (asks_again w) pre = true ->
  asks_again w i = false ->
  match prompt_for_file w (pre ++ i :: rest) with
  | Returned r _ unread =>
      unread = rest /\
      match i with
      | Typed line =>
          r = if quit_word (PyStr.strip line) then None
              else Some (_normalize_path line)
      | EOFError | KeyboardInterrupt => r = None
      | InputFails _ => False
      end
  | PromptRaised e _ => i = InputFails e
  | Asking _ => False
  end.
Proof.
  intros Hpre Hi. unfold prompt_for_file.
  destruct (prompt_loop_asks_again w pre (i :: rest) [] Hpre) as (l & _ & _ & ->).
  destruct i as [line| | |e]; try (cbn; auto; fail).
  rewrite prompt_loop_typed. simpl in Hi.
  destruct (PyStr.strip line) as [|c s]; [discriminate|].
  destruct (quit_word (c :: s)); [auto|].
  simpl in Hi. apply negb_false_iff in Hi. rewrite Hi. auto.
Qed.

Lemma prompt_first_decisive_input_witness :
  match prompt_for_file sample_world
          ([Typed []; Typed (py "capture.txt")] ++ EOFError :: [Typed (py "q")])
  with
  | Returned r _ unread => unread = [Typed (py "q")] /\ r = None
  | PromptRaised e _ => EOFError = InputFails e
  | Asking _ => False
  end.
Proof.
  apply (prompt_first_decisive_input sample_world
           [Typed []; Typed (py "capture.txt")] [Typed (py "q")] EOFError);
    vm_compute; reflexivity.
Defined.

Lemma output_file_nonempty p : output_file_of p <> [].
Proof.
  unfold output_file_of. rewrite join_spec by apply base_name_no_sep.
  rewrite wigle_suffix_eq.
  destruct (PosixPath.dirname p) as [|c d]; [|destruct (PosixPath.endswith_sep _)].
  - destruct (base_name_of p); discriminate.
  - discriminate.
  - discriminate.
Qed.

Lemma convert_returned w p :
  returned (convert_to_wigle_csv w p) = None \/
  returned (convert_to_wigle_csv w p) = Some (output_file_of p).
Proof.
  rewrite convert_eq. cbv zeta.
  destruct (open_read w p); [|auto].
  destruct (open_out_fault w); [auto|]. simpl.
  destruct (with_block _ _ _ _); auto.
Qed.

(** The lines of a conversion: the start, the progress, the closing. *)
Lemma convert_printed_shape w p :
  let o := convert_to_wigle_csv w p in
  exists l tail,
    printed o = Starting p (output_file_of p) :: l ++ tail /\
    Forall is_progress l /\ closing (returned o) tail.
Proof.
  rewrite convert_eq. cbv zeta.
  destruct (open_read w p) as [content|e].
  2:{ exists [], [ErrorLine e]. simpl. eauto. }
  destruct (open_out_fault w) as [e|].
  { exists [], [ErrorLine e]. simpl. eauto. }
  rewrite with_block_eq. simpl.
  destruct (write_fault w 0) as [e|].
  { exists [], [ErrorLine e]. simpl. eauto. }
  destruct (run_loop_status (input_stream content) w (total_bytes_of w p) 0
              (initial_state header_bytes [Starting p (output_file_of p)]))
    as (l & Hl & Hp).
  destruct (run_loop _ _ _ _ _) as [st|st e]; simpl in Hl |- *.
  - exists l. eexists. rewrite Hl. simpl. split; [reflexivity|]. eauto.
  - exists l, [ErrorLine e]. rewrite Hl. simpl. eauto.
Qed.

Lemma convert_and_report_eq w p shown :
  let o := convert_to_wigle_csv w p in
  convert_and_report w p shown =
  match returned o with
  | Some _ =>
      Exited 0 (shown ++ map Conversion (printed o) ++ [Done (output_file_of p)])
        (fs_after o)
  | None => Exited 1 (shown ++ map Conversion (printed o)) (fs_after o)
  end.
Proof.
  unfold convert_and_report. cbv zeta.
  destruct (convert_returned w p) as [-> | ->]; [reflexivity|].
  destruct (output_file_of p) eqn:E; [apply output_file_nonempty in E as []|].
  rewrite <- app_assoc. reflexivity.
Qed.

Lemma prompt_loop_own_messages w inputs : forall shown,
  Forall own_message shown ->
  Forall own_message (prompt_shown (prompt_loop w inputs shown)).
Proof.
  assert (P : forall shown m, Forall own_message shown -> own_message m ->
                              Forall own_message (shown ++ [m])).
  { intros shown m H Hm. apply Forall_app. split; [exact H|].
    constructor; [exact Hm|constructor]. }
  induction inputs as [|i inputs IH]; intros shown H.
  - simpl. apply P; [exact H|]. intros l. discriminate.
  - destruct i as [line| | |e].
    + cbn [prompt_loop].
      destruct (PyStr.strip line) as [|c s].
      * apply IH. apply P; [apply P|]; [exact H| |]; intros l; discriminate.
      * destruct (quit_word (c :: s)); [apply P; [exact H|]; intros l; discriminate|].
        destruct (isfile w _); [apply P; [exact H|]; intros l; discriminate|].
        apply IH. apply P; [apply P|]; [exact H| |]; intros l; discriminate.
    + cbn. apply P; [apply P|]; [exact H| |]; intros l; discriminate.
    + cbn. apply P; [apply P|]; [exact H| |]; intros l; discriminate.
    + cbn. apply P; [exact H|]. intros l. discriminate.
Qed.

Lemma prompt_returns_path w inputs unread p shown :
  prompt_for_file w inputs = Returned (Some p) shown unread ->
  isfile w p = true /\ p <> [].
Proof.
  intros H. destruct (prompt_loop_returned _ _ _ _ _ _ H) as (Hf & _).
  split; [exact Hf|]. apply isfile_spec in Hf as [Hne _]. exact Hne.
Qed.

Lemma main_eq w file inputs :
  main w file inputs =
  match file with
  | Some ((_ :: _) as arg) =>
      if isfile w (_normalize_path arg)
      then convert_and_report w (_normalize_path arg) []
      else Exited 2 [NotFound (_normalize_path arg)] (fs w)
  | _ => after_prompt w (prompt_for_file w inputs)
  end.
Proof. destruct file as [[|c s]|]; reflexivity. Qed.

(** The calls of [main]: which path is converted, if any, and what was shown
    before. *)
Lemma main_cases w file inputs :
  (exists p shown, main w file inputs = convert_and_report w p shown /\
                   isfile w p = true /\ Forall own_message shown) \/
  (exists c s, file = Some (c :: s) /\
               isfile w (_normalize_path (c :: s)) = false /\
               main w file inputs
               = Exited 2 [NotFound (_normalize_path (c :: s))] (fs w)) \/
  ((file = None \/ file = Some []) /\
   ((exists shown unread,
        main w file inputs = Exited 0 (shown ++ [NoFileProvided]) (fs w) /\
        prompt_for_file w inputs = Returned None shown unread) \/
    (exists shown, main w file inputs = Waiting shown /\
                   prompt_for_file w inputs = Asking shown) \/
    (exists e shown, main w file inputs = MainRaised e shown /\
                     prompt_for_file w inputs = PromptRaised e shown))).
Proof.
  rewrite main_eq.
  assert (Hprompt :
    (exists p shown,
        after_prompt w (prompt_for_file w inputs) = convert_and_report w p shown /\
        isfile w p = true /\ Forall own_message shown) \/
    ((exists shown unread,
        after_prompt w (prompt_for_file w inputs)
        = Exited 0 (shown ++ [NoFileProvided]) (fs w) /\
        prompt_for_file w inputs = Returned None shown unread) \/
     (exists shown,
        after_prompt w (prompt_for_file w inputs) = Waiting shown /\
        prompt_for_file w inputs = Asking shown) \/
     (exists e shown,
        after_prompt w (prompt_for_file w inputs) = MainRaised e shown /\
        prompt_for_file w inputs = PromptRaised e shown))).
  { pose proof (prompt_loop_own_messages w inputs [] (List.Forall_nil _)) as Hown.
    fold (prompt_for_file w inputs) in Hown.
    destruct (prompt_for_file w inputs) as [r shown unread|e shown|shown] eqn:E.
    - destruct r as [p|].
      + destruct (prompt_returns_path w inputs unread p shown E) as [Hf Hne].
        destruct p as [|c p]; [congruence|].
        left. exists (c :: p), shown. auto.
      + right. left. eauto.
    - right. right. right. eauto.
    - right. right. left. eauto. }
  destruct file as [[|c s]|].
  - destruct Hprompt as [H|H]; [left; exact H|right; right; auto].
  - destruct (isfile w (_normalize_path (c :: s))) eqn:Hf.
    + left. exists (_normalize_path (c :: s)), []. auto.
    + right. left. eauto.
  - destruct Hprompt as [H|H]; [left; exact H|right; right; auto].
Qed.

Lemma convert_and_report_shown w p shown :
  exists l tail,
    shown_by (convert_and_report w p shown)
    = shown ++ Conversion (Starting p (output_file_of p))
               :: map Conversion l ++ tail /\
    Forall is_progress l /\
    Forall (fun m => forall i o, m <> Conversion (Starting i o)) tail.
Proof.
  rewrite convert_and_report_eq. cbv zeta.
  destruct (convert_printed_shape w p) as (l & tail & E & Hl & Hc).
  cbv zeta in E, Hc. rewrite E.
  destruct (returned (convert_to_wigle_csv w p)); simpl in Hc |- *.
  - destruct Hc as (n & pct & ->). exists l. eexists.
    rewrite map_app, <- !app_assoc. split; [reflexivity|]. split; [exact Hl|].
    repeat constructor; intros i o; discriminate.
  - destruct Hc as (e & ->). exists l. eexists.
    rewrite map_app. split; [reflexivity|]. split; [exact Hl|].
    repeat constructor; intros i o; discriminate.
Qed.

(** X8: [main] starts a conversion only on a path it has checked: whenever
    the start of a conversion is shown, its input is a non-empty path that
    names a file, and its output is the path derived from it. *)
Theorem main_converts_checked_files_only
        (w : world) (file : option pystr) (inputs : list input_outcome)
        (i o : pystr) :
  In (Conversion (Starting i o)) (shown_by (main w file inputs)) ->
  i <> [] /\ is_Some (fs w !! i) /\ o = output_file_of i.
Proof.
  intros Hin.
  assert (Hown : forall shown, Forall own_message shown ->
                               ~ In (Conversion (Starting i o)) shown).
  { intros shown H Hi. rewrite List.Forall_forall in H.
    exact (H _ Hi (Starting i o) eq_refl). }
  destruct (main_cases w file inputs)
    as [(p & shown & E & Hf & Hs)
       |[(c & s & _ & _ & E)
        |(_ & [(shown & u & E & Hp)|[(shown & E & Hp)|(e & shown & E & Hp)]])]];
    rewrite E in Hin.
  - destruct (convert_and_report_shown w p shown) as (l & tail & Es & Hl & Ht).
    rewrite Es in Hin. apply in_app_or in Hin as [Hin|Hin]; [destruct (Hown _ Hs Hin)|].
    destruct Hin as [Hin|Hin].
    + injection Hin as <- <-. apply isfile_spec in Hf. tauto.
    + apply in_app_or in Hin as [Hin|Hin].
      * apply in_map_iff in Hin as (x & Hx & Hin). injection Hx as ->.
        rewrite List.Forall_forall in Hl. destruct (Hl _ Hin) as (n & pct & Hx).
        discriminate.
      * rewrite List.Forall_forall in Ht. destruct (Ht _ Hin i o eq_refl).
  - simpl in Hin. destruct Hin as [Hin|[]]. discriminate.
  - pose proof (prompt_loop_own_messages w inputs [] (List.Forall_nil _)) as Hown'.
    fold (prompt_for_file w inputs) in Hown'. rewrite Hp in Hown'. simpl in Hin, Hown'.
    apply in_app_or in Hin as [Hin|[Hin|[]]]; [destruct (Hown _ Hown' Hin)|discriminate].
  - pose proof (prompt_loop_own_messages w inputs [] (List.Forall_nil _)) as Hown'.
    fold (prompt_for_file w inputs) in Hown'. rewrite Hp in Hown'.
    destruct (Hown _ Hown' Hin).
  - pose proof (prompt_loop_own_messages w inputs [] (List.Forall_nil _)) as Hown'.
    fold (prompt_for_file w inputs) in Hown'. rewrite Hp in Hown'.
    destruct (Hown _ Hown' Hin).
Qed.

Lemma main_converts_checked_files_only_witness :
  py "capture.log" <> [] /\ is_Some (fs sample_world !! py "capture.log") /\
  py "capture.wigle.csv" = output_file_of (py "capture.log").
Proof.
  apply (main_converts_checked_files_only sample_world
           (Some (py " 'capture.log' ")) []).
  vm_compute. left. reflexivity.
Defined.

(** X9: what the exit code of [main] means. 0: the output file was written,
    holding the header and the data records of the input, and its path is
    the last thing shown; or no file was given and the prompt was left,
    nothing being touched. 1: the conversion was started on an existing file
    and failed, the error being the last thing shown. 2: the argument does
    not name a file; this is all that is shown and nothing is touched. No
    other code is returned. *)
Theorem main_exit_codes
        (w : world) (file : option pystr) (inputs : list input_outcome)
        (code : Z) (shown : list message)
        (files : gmap pystr (list Byte.byte)) :
  main w file inputs = Exited code shown files ->
  match code with
  | 0%Z =>
      (exists p pre content b,
          shown = pre ++ [Done (output_file_of p)] /\
          fs w !! p = Some content /\
          files = fs_after (convert_to_wigle_csv w p) /\
          files !! output_file_of p = Some (header_bytes ++ b) /\
          render (data_rows (records (input_stream content))) = Ok b) \/
      (exists pre,
          shown = pre ++ [NoFileProvided] /\ files = fs w /\
          (file = None \/ file = Some []))
  | 1%Z =>
      exists p pre e,
        shown = pre ++ [Conversion (ErrorLine e)] /\
        isfile w p = true /\ raised_by w p e /\
        files = fs_after (convert_to_wigle_csv w p)
  | 2%Z =>
      exists arg,
        file = Some arg /\ isfile w (_normalize_path arg) = false /\
        shown = [NotFound (_normalize_path arg)] /\ files = fs w
  | _ => False
  end.
Proof.
  intros H.
  destruct (main_cases w file inputs)
    as [(p & pre & E & Hf & Hs)
       |[(c & s & Hfile & Hf & E)
        |(Hfile & [(pre & u & E & Hp)|[(pre & E & Hp)|(e & pre & E & Hp)]])]];
    rewrite E in H; try discriminate.
  - rewrite convert_and_report_eq in H. cbv zeta in H.
    destruct (returned (convert_to_wigle_csv w p)) as [out|] eqn:Hr.
    + injection H as <- <- <-. left.
      apply isfile_spec in Hf as [_ [content Hc]].
      destruct (convert_success_output w p content Hc) as [(b & Hb & Ho) _];
        [congruence|].
      exists p, (pre ++ map Conversion (printed (convert_to_wigle_csv w p))),
             content, b.
      rewrite <- app_assoc. auto.
    + injection H as <- <- <-.
      destruct (convert_returned_none w p Hr) as (l & e & Hl & Hraised).
      exists p, (pre ++ map Conversion l), e. rewrite Hl, map_app, app_assoc.
      auto.
  - injection H as <- <- <-. exists (c :: s). auto.
  - injection H as <- <- <-. right. exists pre. auto.
Qed.

Lemma main_exit_codes_witness :
  exists arg,
    Some (py "capture.txt") = Some arg /\
    isfile sample_world (_normalize_path arg) = false /\
    [NotFound (py "capture.txt")] = [NotFound (_normalize_path arg)] /\
    fs sample_world = fs sample_world.
Proof.
  apply (main_exit_codes sample_world (Some (py "capture.txt")) [] 2
           [NotFound (py "capture.txt")] (fs sample_world)).
  vm_compute. reflexivity.
Defined.

(** X10: the whole run on a good argument. When the argument, once
    normalised, names an existing file and no operation fails, [main]
    returns 0; the file beside the input holds the header and one record for
    each input record of 8 fields or more; what is shown starts with the
    start of the conversion and ends with the path of the output. *)
Theorem main_converts_the_argument
        (w : world) (arg : pystr) (inputs : list input_outcome)
        (content : list Byte.byte) (rows : list Csv.row) :
  let p := _normalize_path arg in
  let out := output_file_of p in
  p <> [] ->
  fs w !! p = Some content ->
  no_faults w ->
  input_stream content = yield_all rows ->
  exists shown files bytes,
    main w (Some arg) inputs
    = Exited 0 (Conversion (Starting p out) :: shown ++ [Done out]) files /\
    files !! out = Some bytes /\
    render (header :: data_rows rows) = Ok bytes /\
    files !! p = Some content.
Proof.
  intros p out Hne Hfs Hnf Hs.
  assert (Harg : exists c s, arg = c :: s).
  { destruct arg as [|c s]; [|eauto]. destruct (Hne eq_refl). }
  destruct Harg as (c & s & ->).
  rewrite main_eq. fold p.
  assert (isfile w p = true) as -> by (apply isfile_spec; split; [exact Hne|eauto]).
  rewrite convert_and_report_eq. cbv zeta.
  destruct (faultless_run_outcome w p content rows Hfs Hnf Hs)
    as (Hr & _ & bytes & Hb & Hf).
  destruct (convert_printed_shape w p) as (l & tail & E & _ & _).
  cbv zeta in E. rewrite Hr, E. cbn [app map].
  exists (map Conversion (l ++ tail)), (fs_after (convert_to_wigle_csv w p)), bytes.
  split; [reflexivity|]. split; [exact Hf|]. split; [exact Hb|].
  apply (convert_success_output w p content Hfs). rewrite Hr. discriminate.
Qed.

Lemma main_converts_the_argument_witness :
  exists shown files bytes,
    main sample_world (Some (py " 'capture.log' ")) []
    = Exited 0 (Conversion (Starting (py "capture.log") (py "capture.wigle.csv"))
                  :: shown ++ [Done (py "capture.wigle.csv")]) files /\
    files !! py "capture.wigle.csv" = Some bytes /\
    render (header :: data_rows sample_rows) = Ok bytes /\
    files !! py "capture.log" = Some sample_log.
Proof.
  apply (main_converts_the_argument sample_world (py " 'capture.log' ") []
           sample_log sample_rows).
  - discriminate.
  - reflexivity.
  - vm_compute. auto.
  - vm_compute. reflexivity.
Defined.

(** X11: typing a path at the prompt has the effect of passing it as the
    argument: when the line names a file and is no word to quit, both calls
    of [main] return the same code and leave the same files, and show the
    same messages after the prompt. *)
Theorem prompt_and_argument_agree
        (w : world) (line : pystr) (inputs rest : list input_outcome) :
  quit_word (PyStr.strip line) = false ->
  isfile w (_normalize_path line) = true ->
  exists code shown files,
    main w (Some line) inputs = Exited code shown files /\
    main w None (Typed line :: rest) = Exited code (Prompt :: shown) files.
Proof.
  intros Hq Hf.
  assert (Hs : PyStr.strip line <> []).
  { intros E. unfold _normalize_path in Hf. rewrite E in Hf. discriminate. }
  assert (Hl : exists c s, line = c :: s).
  { destruct line as [|c s]; [destruct (Hs eq_refl)|eauto]. }
  destruct Hl as (c & s & ->).
  rewrite !main_eq. rewrite Hf. unfold prompt_for_file.
  rewrite prompt_loop_typed.
  destruct (PyStr.strip (c :: s)) as [|c' s'] eqn:Es; [congruence|].
  rewrite Hq, Hf.
  assert (Hp : exists c'' s'', _normalize_path (c :: s) = c'' :: s'').
  { apply isfile_spec in Hf as [Hne _].
    destruct (_normalize_path (c :: s)); [congruence|eauto]. }
  destruct Hp as (c'' & s'' & Hp). simpl. rewrite Hp.
  rewrite !convert_and_report_eq. cbv zeta.
  destruct (returned (convert_to_wigle_csv w (c'' :: s''))); eauto.
Qed.

Lemma prompt_and_argument_agree_witness :
  exists code shown files,
    main sample_world (Some (py "capture.log")) [] = Exited code shown files /\
    main sample_world None (Typed (py "capture.log") :: [EOFError])
    = Exited code (Prompt :: shown) files.
Proof.
  apply (prompt_and_argument_agree sample_world (py "capture.log") []
           [EOFError]); reflexivity.
Defined.

Lemma report_progress_same_data total pos st :
  same_data (report_progress total pos st) st.
Proof. split; apply report_progress_data. Qed.

Lemma loop_body_same_data w1 w2 t1 t2 pos1 pos2 row st1 st2 :
  (forall k, write_fault w1 k = write_fault w2 k) ->
  same_data st1 st2 ->
  match loop_body w1 t1 pos1 row st1, loop_body w2 t2 pos2 row st2 with
  | Ok a, Ok b => same_data a b
  | Raise e, Raise e' => e = e'
  | _, _ => False
  end.
Proof.
  intros Hw [Hp Ho]. unfold loop_body.
  destruct (Nat.ltb (length row) 8); [split; assumption|].
  destruct (unpack8 (firstn 8 row)) as [r8|e]; [|reflexivity]. simpl.
  rewrite Hp, Ho, Hw.
  destruct (writerow _ r8 (outfile st2)) as [out|e]; [|reflexivity]. simpl.
  destruct (report_progress_same_data t1 pos1
              {| processed := S (processed st2);
                 last_printed_pct := last_printed_pct st1;
                 outfile := out; status := status st1 |}) as [A1 A2].
  destruct (report_progress_same_data t2 pos2
              {| processed := S (processed st2);
                 last_printed_pct := last_printed_pct st2;
                 outfile := out; status := status st2 |}) as [B1 B2].
  simpl in A1, A2, B1, B2. split; congruence.
Qed.

Lemma run_loop_same_data w1 w2 t1 t2 s : forall k st1 st2,
  (forall k, read_fault w1 k = read_fault w2 k) ->
  (forall k, write_fault w1 k = write_fault w2 k) ->
  same_data st1 st2 ->
  same_exit (run_loop w1 t1 k s st1) (run_loop w2 t2 k s st2).
Proof.
  induction s as [|e|row s IH]; intros k st1 st2 Hr Hw Hs; simpl; rewrite Hr.
  - destruct (read_fault w2 k); simpl; auto.
  - destruct (read_fault w2 k); simpl; auto.
  - destruct (read_fault w2 k); [simpl; auto|].
    pose proof (loop_body_same_data w1 w2 t1 t2 (tell w1 (S k)) (tell w2 (S k))
                  row st1 st2 Hw Hs) as H.
    destruct (loop_body w1 _ _ _ _), (loop_body w2 _ _ _ _); try contradiction.
    + apply IH; assumption.
    + simpl. auto.
Qed.

(** X12: the progress display has no effect on the result. Two runs that
    differ only in what [os.path.getsize] and [infile.tell()] give return
    the same value, leave the same files, and end with the same error if
    they fail. *)
Theorem progress_has_no_effect_on_the_output
        (w1 w2 : world) (file_path : pystr) :
  fs w1 = fs w2 ->
  open_in_fault w1 = open_in_fault w2 ->
  open_out_fault w1 = open_out_fault w2 ->
  (forall k, read_fault w1 k = read_fault w2 k) ->
  (forall k, write_fault w1 k = write_fault w2 k) ->
  let o1 := convert_to_wigle_csv w1 file_path in
  let o2 := convert_to_wigle_csv w2 file_path in
  returned o1 = returned o2 /\
  fs_after o1 = fs_after o2 /\
  forall e, In (ErrorLine e) (printed o1) <-> In (ErrorLine e) (printed o2).
Proof.
  intros Hfs Hin Hout Hr Hw. cbv zeta. rewrite !convert_eq. cbv zeta.
  unfold open_read. rewrite Hfs, Hin, Hout.
  destruct (open_in_fault w2) as [e|]; [simpl; tauto|].
  destruct (fs w2 !! file_path) as [content|]; [|simpl; tauto].
  destruct (open_out_fault w2) as [e|]; [simpl; tauto|].
  rewrite !with_block_eq, Hw.
  destruct (write_fault w2 0) as [e|]; [simpl; tauto|].
  pose proof (run_loop_same_data w1 w2 (total_bytes_of w1 file_path)
                (total_bytes_of w2 file_path) (input_stream content) 0
                (initial_state header_bytes
                   [Starting file_path (output_file_of file_path)])
                (initial_state header_bytes
                   [Starting file_path (output_file_of file_path)])
                Hr Hw (conj eq_refl eq_refl)) as H.
  destruct (run_loop_status (input_stream content) w1
              (total_bytes_of w1 file_path) 0
              (initial_state header_bytes
                 [Starting file_path (output_file_of file_path)]))
    as (l1 & E1 & P1).
  destruct (run_loop_status (input_stream content) w2
              (total_bytes_of w2 file_path) 0
              (initial_state header_bytes
                 [Starting file_path (output_file_of file_path)]))
    as (l2 & E2 & P2).
  assert (NP : forall l e, Forall is_progress l -> ~ In (ErrorLine e) l).
  { intros l e Hl Hi. rewrite List.Forall_forall in Hl.
    destruct (Hl _ Hi) as (n & p & Hx). discriminate. }
  destruct (run_loop w1 _ _ _ _) as [a|a e1], (run_loop w2 _ _ _ _) as [b|b e2];
    simpl in H, E1, E2; try contradiction.
  - destruct H as [Hp Ho]. simpl. rewrite Ho. split; [reflexivity|].
    split; [reflexivity|]. intros e. rewrite E1, E2. simpl.
    pose proof (NP l1 e P1). pose proof (NP l2 e P2).
    rewrite !in_app_iff. simpl. intuition discriminate.
  - destruct H as [[Hp Ho] <-]. simpl. rewrite Ho. split; [reflexivity|].
    split; [reflexivity|]. intros e. rewrite E1, E2. simpl.
    pose proof (NP l1 e P1). pose proof (NP l2 e P2).
    rewrite !in_app_iff. simpl. intuition discriminate.
Qed.

Lemma progress_has_no_effect_on_the_output_witness :
  let o1 := convert_to_wigle_csv sample_world (py "capture.log") in
  let o2 := convert_to_wigle_csv
              (without_size sample_world (fun k => Ok (N.of_nat (10 * k))))
              (py "capture.log") in
  returned o1 = returned o2 /\
  fs_after o1 = fs_after o2 /\
  forall e, In (ErrorLine e) (printed o1) <-> In (ErrorLine e) (printed o2).
Proof.
  apply (progress_has_no_effect_on_the_output sample_world
           (without_size sample_world (fun k => Ok (N.of_nat (10 * k))))
           (py "capture.log")); reflexivity.
Defined.

Lemma in_range_of_nonneg x :
  nonneg x -> PyFloat.leb x PyFloat.hundred = true -> in_range x = true.
Proof.
  intros Hn Hc. unfold in_range. rewrite Hc, andb_true_r.
  destruct x as [s|s| |s m e]; simpl in Hn.
  - destruct s; reflexivity.
  - rewrite Hn. reflexivity.
  - discriminate.
  - rewrite Hn. reflexivity.
Qed.

Lemma checkpoint_pct_in_range total pos :
  in_range (checkpoint_pct total pos) = true.
Proof.
  apply in_range_of_nonneg; [apply checkpoint_pct_nonneg|apply checkpoint_pct_capped].
Qed.

Lemma final_pct_in_range total pos : in_range (final_pct total pos) = true.
Proof.
  unfold final_pct. destruct (size_known total) as [n|]; [|reflexivity].
  destruct (percent pos n) as [pct|] eqn:E; [|reflexivity].
  apply in_range_of_nonneg; [eapply percent_nonneg; exact E|].
  unfold percent in E. destruct pos as [b|]; [|discriminate]. simpl in E.
  destruct (PyFloat.int_truediv b n); [|discriminate]. simpl in E.
  injection E as <-. apply min_hundred_capped.
Qed.

Lemma report_progress_cases total pos st :
  (Nat.modulo (processed st) update_every <> 0 /\
   report_progress total pos st = st) \/
  (Nat.modulo (processed st) update_every = 0 /\
   redraw (checkpoint_pct total pos) (last_printed_pct st) = false /\
   report_progress total pos st = st) \/
  (Nat.modulo (processed st) update_every = 0 /\
   redraw (checkpoint_pct total pos) (last_printed_pct st) = true /\
   report_progress total pos st =
   {| processed := processed st;
      last_printed_pct := checkpoint_pct total pos;
      outfile := outfile st;
      status := status st ++ [Progress (processed st) (checkpoint_pct total pos)] |}).
Proof.
  unfold report_progress.
  destruct (Nat.eqb_spec (Nat.modulo (processed st) update_every) 0) as [E|E];
    [|auto].
  destruct (redraw _ _) eqn:R; auto.
Qed.

(** The state after an iteration that wrote a record. *)
Lemma loop_body_cases w total pos row st st' :
  loop_body w total pos row st = Ok st' ->
  st' = st \/
  exists out,
    st' = report_progress total pos
            {| processed := S (processed st);
               last_printed_pct := last_printed_pct st;
               outfile := out;
               status := status st |}.
Proof.
  unfold loop_body. destruct (Nat.ltb (length row) 8); [intros [= <-]; auto|].
  destruct (unpack8 (firstn 8 row)) as [r8|e]; [|discriminate]. simpl.
  destruct (writerow _ r8 (outfile st)) as [out|e]; [|discriminate]. simpl.
  intros [= <-]. eauto.
Qed.

Lemma loop_body_sound w total pos row st st' :
  loop_body w total pos row st = Ok st' ->
  Forall sound_line (status st) -> Forall sound_line (status st').
Proof.
  intros H Hs. destruct (loop_body_cases _ _ _ _ _ _ H) as [->|(out & ->)];
    [exact Hs|].
  match goal with |- context [report_progress _ _ ?s] => set (s1 := s) end.
  destruct (report_progress_cases total pos s1)
    as [(_ & ->)|[(_ & _ & ->)|(Hm & _ & ->)]]; [exact Hs|exact Hs|].
  simpl. apply Forall_app. split; [exact Hs|].
  constructor; [|constructor]. simpl in Hm |- *.
  split; [apply checkpoint_pct_in_range|]. split; [lia|exact Hm].
Qed.

Lemma run_loop_sound s : forall w total k st,
  Forall sound_line (status st) ->
  Forall sound_line (status (exit_state (run_loop w total k s st))).
Proof.
  induction s as [|e|row s IH]; intros w total k st Hs; simpl.
  - destruct (read_fault w k); exact Hs.
  - destruct (read_fault w k); exact Hs.
  - destruct (read_fault w k); [exact Hs|].
    destruct (loop_body w total (tell w (S k)) row st) as [st'|e] eqn:E;
      [|exact Hs].
    apply IH. eapply loop_body_sound; eauto.
Qed.

(** The status lines of a conversion, from the state in which the loop is
    left. *)
Lemma convert_printed w p :
  printed (convert_to_wigle_csv w p) =
  [Starting p (output_file_of p)] ++ [] ++
  match open_read w p with
  | Raise e => [ErrorLine e]
  | Ok content =>
      match open_out_fault w with
      | Some e => [ErrorLine e]
      | None =>
          match write_fault w 0 with
          | Some e => [ErrorLine e]
          | None => []
          end
      end
  end \/
  exists content x,
    open_read w p = Ok content /\
    x = run_loop w (total_bytes_of w p) 0 (input_stream content) (entry_state p) /\
    printed (convert_to_wigle_csv w p) =
    status (exit_state x) ++
    match x with
    | Finished st =>
        [ClearLine;
         Summary (processed st)
           (final_pct (total_bytes_of w p) (tell w (calls (input_stream content))))]
    | Aborted _ e => [ErrorLine e]
    end.
Proof.
  rewrite convert_eq. cbv zeta.
  destruct (open_read w p) as [content|e]; [|left; reflexivity].
  destruct (open_out_fault w) as [e|]; [left; reflexivity|].
  rewrite with_block_eq.
  destruct (write_fault w 0) as [e|]; [left; reflexivity|].
  right. exists content. eexists. split; [reflexivity|]. split; [reflexivity|].
  fold (entry_state p). unfold printed.
  destruct (run_loop _ _ _ _ _); reflexivity.
Qed.

(** X13: the numbers a conversion shows make sense in every run: each
    percentage, of a progress line or of the summary, is a number between 0
    and 100 (never negative, infinite or not a number), and progress is only
    reported at a positive multiple of 500 rows. *)
Theorem status_lines_are_sound (w : world) (file_path : pystr) :
  Forall sound_line (printed (convert_to_wigle_csv w file_path)).
Proof.
  destruct (convert_printed w file_path) as [->|(content & x & Ho & Hx & ->)].
  - repeat (apply Forall_app; split); [repeat constructor|constructor|].
    destruct (open_read w file_path); [|repeat constructor].
    destruct (open_out_fault w); [repeat constructor|].
    destruct (write_fault w 0); repeat constructor.
  - apply Forall_app. split.
    + subst x. apply run_loop_sound. repeat constructor.
    + destruct x; repeat constructor. apply final_pct_in_range.
Qed.







(** X15: a conversion touches one path only. Whatever happens, every file
    other than the output file, the input file among them, is after the run
    what it was before; and when one of the two files cannot be opened the
    file system is left as it was, so that an output file of an earlier run
    is not emptied. *)
Theorem conversion_touches_only_the_output (w : world) (file_path : pystr) :
  let o := convert_to_wigle_csv w file_path in
  (forall q, q <> output_file_of file_path -> fs_after o !! q = fs w !! q) /\
  fs_after o !! file_path = fs w !! file_path /\
  (forall e, open_read w file_path = Raise e \/ open_out_fault w = Some e ->
             fs_after o = fs w).
Proof.
  cbv zeta.
  assert (H : forall q, q <> output_file_of file_path ->
                        fs_after (convert_to_wigle_csv w file_path) !! q
                        = fs w !! q).
  { intros q Hq. rewrite convert_eq. cbv zeta.
    destruct (open_read w file_path); [|reflexivity].
    destruct (open_out_fault w); [reflexivity|].
    unfold fs_after. rewrite !lookup_insert_ne by congruence. reflexivity. }
  split; [exact H|]. split.
  - apply H. intros E. symmetry in E. exact (output_file_ne_input _ E).
  - intros e He. rewrite convert_eq. cbv zeta.
    destruct (open_read w file_path) as [content|e']; [|reflexivity].
    destruct He as [He|He]; [discriminate|]. rewrite He. reflexivity.
Qed.

Lemma rstrip_sep_eq p :
  PosixPath.rstrip_sep p = PyStr.rstrip (fun c => N.eqb c PosixPath.sep) p.
Proof.
  induction p as [|c p IH]; simpl; [reflexivity|]. rewrite IH. reflexivity.
Qed.

Lemma rstrip_sep_last l c :
  PosixPath.rstrip_sep (l ++ [c]) =
  if N.eqb c PosixPath.sep then PosixPath.rstrip_sep l else l ++ [c].
Proof. rewrite !rstrip_sep_eq, rstrip_app_last. reflexivity. Qed.

Lemma rstrip_sep_idempotent p :
  PosixPath.rstrip_sep (PosixPath.rstrip_sep p) = PosixPath.rstrip_sep p.
Proof.
  induction p as [|c p IH] using rev_ind; [reflexivity|].
  rewrite rstrip_sep_last. destruct (N.eqb c PosixPath.sep) eqn:E; [exact IH|].
  rewrite rstrip_sep_last, E. reflexivity.
Qed.

Lemma strip_head_idempotent h : strip_head (strip_head h) = strip_head h.
Proof.
  unfold strip_head. destruct h as [|c h]; [reflexivity|].
  destruct (PosixPath.all_sep (c :: h)) eqn:A; [rewrite A; reflexivity|].
  rewrite rstrip_sep_idempotent.
  destruct (PosixPath.rstrip_sep (c :: h)) as [|c' h']; [reflexivity|].
  destruct (PosixPath.all_sep (c' :: h')); reflexivity.
Qed.

Lemma all_sep_app l r :
  PosixPath.all_sep (l ++ r) = (PosixPath.all_sep l && PosixPath.all_sep r)%bool.
Proof. apply forallb_app. Qed.

Lemma endswith_sep_last l c :
  PosixPath.endswith_sep (l ++ [c]) = N.eqb c PosixPath.sep.
Proof. unfold PosixPath.endswith_sep. rewrite rev_app_distr. reflexivity. Qed.

(** The directory of a path does not end with a separator unless it is made
    of separators only. *)
Lemma strip_head_sep h :
  strip_head h <> [] ->
  PosixPath.endswith_sep (strip_head h) = false ->
  strip_head (strip_head h ++ [PosixPath.sep]) = strip_head h.
Proof.
  intros Hne He. set (s := strip_head h) in *. clearbody s.
  destruct s as [|a d _] using rev_ind; [congruence|].
  rewrite endswith_sep_last in He.
  unfold strip_head at 1.
  destruct ((d ++ [a]) ++ [PosixPath.sep]) eqn:E'; [destruct d; discriminate|].
  rewrite <- E'. rewrite !all_sep_app. simpl. rewrite He. simpl.
  rewrite andb_false_r. simpl.
  rewrite rstrip_sep_last, N.eqb_refl, rstrip_sep_last, He. reflexivity.
Qed.

(** X16: the output file is placed in the directory of the input file: the
    directory part of the output path is the directory part of the input
    path, for every input path. *)
Theorem output_is_beside_the_input (file_path : pystr) :
  PosixPath.dirname (output_file_of file_path) = PosixPath.dirname file_path.
Proof.
  unfold output_file_of.
  pose proof (base_name_no_sep file_path) as Hn.
  set (n := base_name_of file_path ++ wigle_suffix) in *.
  rewrite join_spec by exact Hn.
  assert (Hd : PosixPath.dirname file_path
               = strip_head (PosixPath.dirname file_path)).
  { destruct (basename_spec file_path) as [_ [[_ ->]|(l & _ & ->)]];
      [reflexivity|]. symmetry. apply strip_head_idempotent. }
  destruct (PosixPath.dirname file_path) as [|c d] eqn:Ed.
  - apply basename_no_sep_id, Hn.
  - destruct (PosixPath.endswith_sep (c :: d)) eqn:He.
    + destruct (endswith_sep_true _ He) as [d' Ed'].
      rewrite Ed', <- app_assoc. simpl.
      destruct (basename_app d' n Hn) as [_ ->]. rewrite <- Ed'. symmetry.
      exact Hd.
    + destruct (basename_app (c :: d) n Hn) as [_ ->].
      rewrite Hd. apply strip_head_sep.
      * rewrite <- Hd. discriminate.
      * rewrite <- Hd. exact He.
Qed.

Local Open Scope N_scope.

Lemma to_N_byte_of_N n : n < 256 -> Byte.to_N (Utf8.byte_of_N n) = n.
Proof.
  intros H. unfold Utf8.byte_of_N. rewrite N.mod_small by exact H.
  destruct (Byte.of_N n) as [b|] eqn:E.
  - apply Byte.to_of_N. exact E.
  - apply Byte.of_N_None_iff in E. lia.
Qed.

Lemma lor_192 y : y < 64 -> N.lor 192 y = 192 + y.
Proof.
  intros H. change (N.lor 192 y) with (N.lor (N.shiftl 3 6) y).
  rewrite lor_shiftl_6; lia.
Qed.

Lemma lor_128 y : y < 64 -> N.lor 128 y = 128 + y.
Proof.
  intros H. change (N.lor 128 y) with (N.lor (N.shiftl 2 6) y).
  rewrite lor_shiftl_6; lia.
Qed.

Lemma lor_224 y : y < 16 -> N.lor 224 y = 224 + y.
Proof.
  intros H. change (N.lor 224 y) with (N.lor (N.shiftl 14 4) y).
  rewrite (lor_shiftl_add 14 y 4) by exact H. reflexivity.
Qed.

Lemma lor_240 y : y < 8 -> N.lor 240 y = 240 + y.
Proof.
  intros H. change (N.lor 240 y) with (N.lor (N.shiftl 30 3) y).
  rewrite (lor_shiftl_add 30 y 3) by exact H. reflexivity.
Qed.

Lemma cont_byte_value c k :
  Byte.to_N (Utf8.cont_byte c k) = 128 + (c / 2 ^ k) mod 64.
Proof.
  unfold Utf8.cont_byte. change 63 with (N.ones 6).
  rewrite N.land_ones, N.shiftr_div_pow2. change (2 ^ 6) with 64.
  assert (H : (c / 2 ^ k) mod 64 < 64) by (apply N.mod_lt; discriminate).
  rewrite lor_128 by exact H. apply to_N_byte_of_N. lia.
Qed.

(** The values of the bytes the encoder gives for a code point. *)
Lemma encode_char_values c bs :
  Utf8.encode_char c = Ok bs ->
  map Byte.to_N bs =
  if c <? 128 then [c]
  else if c <? 2048 then [192 + c / 64; 128 + c mod 64]
  else if c <? 65536
       then [224 + c / 64 / 64; 128 + (c / 64) mod 64; 128 + c mod 64]
       else [240 + c / 64 / 64 / 64; 128 + (c / 64 / 64) mod 64;
             128 + (c / 64) mod 64; 128 + c mod 64].
Proof.
  unfold Utf8.encode_char.
  assert (D0 : c / 2 ^ 0 = c) by (change (2 ^ 0) with 1; apply N.div_1_r).
  assert (D12 : c / 2 ^ 12 = c / 64 / 64)
    by (rewrite N.Div0.div_div; reflexivity).
  assert (D18 : c / 2 ^ 18 = c / 64 / 64 / 64)
    by (rewrite !N.Div0.div_div; reflexivity).
  destruct (N.ltb_spec c 128) as [H1|H1].
  { intros [= <-]. simpl. rewrite to_N_byte_of_N by lia. reflexivity. }
  destruct (N.ltb_spec c 2048) as [H2|H2].
  { intros [= <-]. simpl. rewrite !cont_byte_value, D0, N.shiftr_div_pow2.
    change (2 ^ 6) with 64.
    assert (c / 64 < 32) by (apply N.Div0.div_lt_upper_bound; lia).
    rewrite lor_192 by lia. rewrite to_N_byte_of_N by lia. reflexivity. }
  destruct (N.ltb_spec c 65536) as [H3|H3].
  { destruct (Utf8.is_surrogate c); [discriminate|]. intros [= <-]. simpl.
    rewrite !cont_byte_value, D0, N.shiftr_div_pow2, D12.
    change (2 ^ 6) with 64.
    assert (c / 64 / 64 < 16).
    { rewrite N.Div0.div_div. apply N.Div0.div_lt_upper_bound; lia. }
    rewrite lor_224 by lia. rewrite to_N_byte_of_N by lia. reflexivity. }
  destruct (N.ltb_spec c 1114112) as [H4|H4]; [|discriminate].
  intros [= <-]. simpl.
  rewrite !cont_byte_value, D0, N.shiftr_div_pow2, D12, D18.
  change (2 ^ 6) with 64.
  assert (c / 64 / 64 / 64 < 8).
  { rewrite !N.Div0.div_div. apply N.Div0.div_lt_upper_bound; lia. }
  rewrite lor_240 by lia. rewrite to_N_byte_of_N by lia. reflexivity.
Qed.

(** Replaces the quotients and remainders by 64 of [c] by fresh digits. *)
Ltac digits_of c :=
  let q1 := fresh "q" in let r1 := fresh "r" in
  let q2 := fresh "q" in let r2 := fresh "r" in
  let q3 := fresh "q" in let r3 := fresh "r" in
  pose proof (N.div_mod c 64 ltac:(discriminate));
  pose proof (N.mod_lt c 64 ltac:(discriminate));
  pose proof (N.div_mod (c / 64) 64 ltac:(discriminate));
  pose proof (N.mod_lt (c / 64) 64 ltac:(discriminate));
  pose proof (N.div_mod (c / 64 / 64) 64 ltac:(discriminate));
  pose proof (N.mod_lt (c / 64 / 64) 64 ltac:(discriminate));
  set (r3 := (c / 64 / 64) mod 64) in *; set (q3 := c / 64 / 64 / 64) in *;
  set (r2 := (c / 64) mod 64) in *; set (q2 := c / 64 / 64) in *;
  set (r1 := c mod 64) in *; set (q1 := c / 64) in *;
  clearbody r3 q3 r2 q2 r1 q1.

(** The decoder recognises the bytes the encoder gave. *)
Lemma next_of_encoded c bs :
  Utf8.encode_char c = Ok bs ->
  exists b tl,
    map Byte.to_N bs = b :: tl /\
    Utf8.next b tl = Utf8.Char c (length bs).
Proof.
  intros E. pose proof (encode_char_values c bs E) as V.
  assert (L : length bs = length (map Byte.to_N bs)) by (rewrite length_map; reflexivity).
  assert (Hs : Utf8.is_surrogate c = true -> 2048 <= c -> c < 65536 -> False).
  { intros S ? ?. unfold Utf8.encode_char in E.
    destruct (N.ltb_spec c 128); [lia|]. destruct (N.ltb_spec c 2048); [lia|].
    destruct (N.ltb_spec c 65536); [|lia]. rewrite S in E. discriminate. }
  assert (Hr : c < 1114112).
  { unfold Utf8.encode_char in E.
    destruct (N.ltb_spec c 128); [lia|]. destruct (N.ltb_spec c 2048); [lia|].
    destruct (N.ltb_spec c 65536); [lia|].
    destruct (N.ltb_spec c 1114112); [lia|discriminate]. }
  rewrite L, V. clear L V E.
  unfold Utf8.is_surrogate in Hs.
  destruct (N.ltb_spec c 128) as [H1|H1].
  { exists c, []. split; [reflexivity|]. unfold Utf8.next.
    destruct (N.ltb_spec c 128); [reflexivity|lia]. }
  destruct (N.ltb_spec c 2048) as [H2|H2].
  { eexists _, _. split; [reflexivity|]. unfold Utf8.next.
    rewrite cont_bits_mod. change 31 with (N.ones 5). rewrite N.land_ones.
    change (2 ^ 5) with 32. unfold Utf8.is_continuation.
    pose proof (N.div_mod (192 + c / 64) 32 ltac:(discriminate)).
    pose proof (N.mod_lt (192 + c / 64) 32 ltac:(discriminate)).
    pose proof (N.div_mod (128 + c mod 64) 64 ltac:(discriminate)).
    pose proof (N.mod_lt (128 + c mod 64) 64 ltac:(discriminate)).
    set (m1 := (192 + c / 64) mod 32) in *. set (d1 := (192 + c / 64) / 32) in *.
    set (m2 := (128 + c mod 64) mod 64) in *.
    set (d2 := (128 + c mod 64) / 64) in *.
    digits_of c. clearbody m1 d1 m2 d2.
    repeat match goal with
           | |- context [N.ltb ?a ?b] => destruct (N.ltb_spec a b); try lia
           | |- context [N.leb ?a ?b] => destruct (N.leb_spec a b); try lia
           end.
    simpl. rewrite lor_shiftl_6 by lia. f_equal. lia. }
  destruct (N.ltb_spec c 65536) as [H3|H3].
  { eexists _, _. split; [reflexivity|]. unfold Utf8.next.
    rewrite !cont_bits_mod. change 15 with (N.ones 4). rewrite N.land_ones.
    change (2 ^ 4) with 16. unfold Utf8.is_continuation.
    pose proof (N.div_mod (224 + c / 64 / 64) 16 ltac:(discriminate)).
    pose proof (N.mod_lt (224 + c / 64 / 64) 16 ltac:(discriminate)).
    pose proof (N.div_mod (128 + (c / 64) mod 64) 64 ltac:(discriminate)).
    pose proof (N.mod_lt (128 + (c / 64) mod 64) 64 ltac:(discriminate)).
    pose proof (N.div_mod (128 + c mod 64) 64 ltac:(discriminate)).
    pose proof (N.mod_lt (128 + c mod 64) 64 ltac:(discriminate)).
    set (m1 := (224 + c / 64 / 64) mod 16) in *.
    set (d1 := (224 + c / 64 / 64) / 16) in *.
    set (m2 := (128 + (c / 64) mod 64) mod 64) in *.
    set (d2 := (128 + (c / 64) mod 64) / 64) in *.
    set (m3 := (128 + c mod 64) mod 64) in *.
    set (d3 := (128 + c mod 64) / 64) in *.
    assert (Hs' : ~ (55296 <= c /\ c <= 57343)).
    { intros [A B]. apply Hs; [|lia|lia].
      apply andb_true_iff. split; apply N.leb_le; assumption. }
    clear Hs. digits_of c. clearbody m1 d1 m2 d2 m3 d3.
    repeat match goal with
           | |- context [N.ltb ?a ?b] => destruct (N.ltb_spec a b); try lia
           | |- context [N.leb ?a ?b] => destruct (N.leb_spec a b); try lia
           | |- context [N.eqb ?a ?b] => destruct (N.eqb_spec a b); try lia
           end;
    simpl; rewrite (lor_shiftl_6 m2 m3) by lia;
    rewrite lor_shiftl_12 by lia; f_equal; lia. }
  eexists _, _. split; [reflexivity|]. unfold Utf8.next.
  rewrite !cont_bits_mod. change 7 with (N.ones 3). rewrite N.land_ones.
  change (2 ^ 3) with 8. unfold Utf8.is_continuation.
  pose proof (N.div_mod (240 + c / 64 / 64 / 64) 8 ltac:(discriminate)).
  pose proof (N.mod_lt (240 + c / 64 / 64 / 64) 8 ltac:(discriminate)).
  pose proof (N.div_mod (128 + (c / 64 / 64) mod 64) 64 ltac:(discriminate)).
  pose proof (N.mod_lt (128 + (c / 64 / 64) mod 64) 64 ltac:(discriminate)).
  pose proof (N.div_mod (128 + (c / 64) mod 64) 64 ltac:(discriminate)).
  pose proof (N.mod_lt (128 + (c / 64) mod 64) 64 ltac:(discriminate)).
  pose proof (N.div_mod (128 + c mod 64) 64 ltac:(discriminate)).
  pose proof (N.mod_lt (128 + c mod 64) 64 ltac:(discriminate)).
  set (m1 := (240 + c / 64 / 64 / 64) mod 8) in *.
  set (d1 := (240 + c / 64 / 64 / 64) / 8) in *.
  set (m2 := (128 + (c / 64 / 64) mod 64) mod 64) in *.
  set (d2 := (128 + (c / 64 / 64) mod 64) / 64) in *.
  set (m3 := (128 + (c / 64) mod 64) mod 64) in *.
  set (d3 := (128 + (c / 64) mod 64) / 64) in *.
  set (m4 := (128 + c mod 64) mod 64) in *.
  set (d4 := (128 + c mod 64) / 64) in *.
  clear Hs. digits_of c. clearbody m1 d1 m2 d2 m3 d3 m4 d4.
  repeat match goal with
         | |- context [N.ltb ?a ?b] => destruct (N.ltb_spec a b); try lia
         | |- context [N.leb ?a ?b] => destruct (N.leb_spec a b); try lia
         | |- context [N.eqb ?a ?b] => destruct (N.eqb_spec a b); try lia
         end;
  simpl; rewrite (lor_shiftl_6 m3 m4) by lia;
  rewrite (lor_shiftl_12 m2) by lia;
  rewrite lor_shiftl_18 by lia; f_equal; lia.
Qed.

Local Close Scope N_scope.

(** Strict decoding inverts encoding. *)
Lemma decode_encode t : forall bs,
  Utf8.encode t = Ok bs -> Utf8.decode Utf8.Strict bs = Ok t.
Proof.
  unfold Utf8.decode.
  induction t as [|c r IH]; intros bs E; simpl in E.
  - injection E as <-. reflexivity.
  - apply bind_ok in E as (bc & Ec & E). apply bind_ok in E as (rs & Er & E).
    injection E as <-.
    destruct (next_of_encoded c bc Ec) as (b & tl & Hm & Hn).
    destruct bc as [|b0 tl0]; [discriminate|]. simpl in Hm.
    injection Hm as <- <-.
    destruct (next_char_prefix _ _ _ _ Hn) as (Hlen & Hl & Hp).
    simpl in Hlen, Hp. clear Hl.
    assert (Hf : firstn (length tl0) (map Byte.to_N tl0) = map Byte.to_N tl0).
    { apply firstn_all2. rewrite length_map. lia. }
    rewrite Hf in Hp.
    assert (Hnext : Utf8.next (Byte.to_N b0)
                      (map Byte.to_N (firstn 3 (tl0 ++ rs)))
                    = Utf8.Char c (length (b0 :: tl0))).
    { rewrite firstn_app, map_app, (firstn_all2 tl0) by lia. apply Hp. }
    pose proof (decode_strict_char b0 (tl0 ++ rs) c (length (b0 :: tl0)) rs r
                  Hnext (IH rs Er)) as D.
    simpl in D. rewrite firstn_app_length in D. exact D.
Qed.

Lemma encode_app t1 t2 b1 b2 :
  Utf8.encode t1 = Ok b1 -> Utf8.encode t2 = Ok b2 ->
  Utf8.encode (t1 ++ t2) = Ok (b1 ++ b2).
Proof.
  revert b1. induction t1 as [|c r IH]; intros b1 E1 E2; simpl in E1 |- *.
  - injection E1 as <-. exact E2.
  - apply bind_ok in E1 as (bc & Ec & E1). apply bind_ok in E1 as (rs & Er & E1).
    injection E1 as <-. rewrite Ec. simpl. rewrite (IH rs Er E2). simpl.
    rewrite app_assoc. reflexivity.
Qed.

(** The bytes of the records are the encoding of their text. *)
Lemma render_text rows : forall b,
  render rows = Ok b -> Utf8.encode (text_of rows) = Ok b.
Proof.
  induction rows as [|r rows IH]; intros b E; simpl in E.
  - injection E as <-. reflexivity.
  - apply bind_ok in E as (br & Er & E). apply bind_ok in E as (bs & Es & E).
    injection E as <-. unfold text_of. simpl.
    apply encode_app; [exact Er|apply IH, Es].
Qed.

(** What the output file holds once both files were opened: the header and
    the records written so far, or nothing if the header was not written. *)
Lemma convert_output_text w file_path content :
  open_read w file_path = Ok content ->
  open_out_fault w = None ->
  let o := convert_to_wigle_csv w file_path in
  exists written bytes,
    fs_after o !! output_file_of file_path = Some bytes /\
    Utf8.encode (text_of written) = Ok bytes /\
    ((written = [] /\ returned o = None) \/
     exists data rest,
       written = header :: data /\
       data_rows (records (input_stream content)) = data ++ rest /\
       (returned o <> None -> rest = [])).
Proof.
  intros Hr Ho. cbv zeta.
  destruct (convert_opened w file_path content Hr Ho) as (Hf & Hret & _).
  cbv zeta in Hf, Hret. rewrite Hf.
  pose proof (with_block_outfile w (total_bytes_of w file_path) content
                [Starting file_path (output_file_of file_path)]) as H.
  cbv zeta in H.
  destruct (write_fault w 0) as [e|] eqn:Ew0.
  - exists [], []. rewrite H. split; [reflexivity|]. split; [reflexivity|].
    left. split; [reflexivity|]. rewrite Hret, with_block_eq, Ew0. reflexivity.
  - destruct H as (written & b & Hb & Hout & _ & (rest & Hrest) & Hfin).
    exists (header :: written), (header_bytes ++ b). rewrite Hout.
    split; [reflexivity|]. split.
    + apply render_text, render_header_cons, Hb.
    + right. exists written, rest. split; [reflexivity|]. split; [exact Hrest|].
      intros Hne. rewrite Hret in Hne.
      destruct (with_block _ _ _ _) as [st|st e] eqn:Ew; [|congruence].
      specialize (Hfin st eq_refl). rewrite Hfin in Hrest.
      rewrite <- (app_nil_r (data_rows _)) in Hrest at 1.
      apply app_inv_head in Hrest. auto.
Qed.



Lemma feed_chars_app r a b :
  feed_chars r (a ++ b) = let* r' := feed_chars r a in feed_chars r' b.
Proof.
  revert r. induction a as [|c a IH]; intros r; simpl; [reflexivity|].
  destruct (Csv.parse_process_char r (Csv.Chr c)); simpl; auto.
Qed.

Lemma feed_line_chars line : forall r,
  Csv.feed_line r line =
  let* r' := feed_chars r line in Csv.parse_process_char r' Csv.EOL.
Proof.
  induction line as [|c l IH]; intros r; simpl; [reflexivity|].
  destruct (Csv.parse_process_char r (Csv.Chr c)); simpl; auto.
Qed.

Lemma read_records_line r0 line lines :
  Csv.read_records r0 (line :: lines) =
  match feed_chars r0 line with
  | Raise e => Csv.Fail e
  | Ok r => end_of_line r (fun r' => Csv.read_records r' lines)
  end.
Proof.
  simpl. rewrite feed_line_chars. unfold end_of_line.
  destruct (feed_chars r0 line) as [r|e]; simpl; [|reflexivity].
  destruct (Csv.parse_process_char r Csv.EOL) as [r'|e]; [|reflexivity].
  destruct (Csv.is_START_RECORD (Csv.state r')); reflexivity.
Qed.

(** Reading line by line is reading character by character. *)
Lemma read_records_text t : forall r0 cur r,
  feed_chars r0 cur = Ok r ->
  Csv.read_records r0 (TextIO.lines_from cur t)
  = read_text (match cur with [] => true | _ => false end) r t.
Proof.
  induction t as [|c t IH]; intros r0 cur r Hr.
  - simpl. destruct cur as [|a cur].
    + simpl in Hr. injection Hr as <-. reflexivity.
    + rewrite read_records_line, Hr. reflexivity.
  - simpl. destruct (N.eqb_spec c TextIO.LF) as [->|Hc].
    + rewrite read_records_line, feed_chars_app, Hr. simpl.
      destruct (Csv.parse_process_char r (Csv.Chr TextIO.LF)) as [r1|e];
        simpl; [|reflexivity].
      unfold end_of_line.
      destruct (Csv.parse_process_char r1 Csv.EOL) as [r2|e]; [|reflexivity].
      destruct (Csv.is_START_RECORD (Csv.state r2)).
      * f_equal. apply (IH Csv.parse_reset [] Csv.parse_reset). reflexivity.
      * apply (IH r2 [] r2). reflexivity.
    + destruct (Csv.parse_process_char r (Csv.Chr c)) as [r1|e] eqn:E.
      * rewrite (IH r0 (cur ++ [c]) r1).
        -- destruct (cur ++ [c]) eqn:E'; [destruct cur; discriminate|reflexivity].
        -- rewrite feed_chars_app, Hr. simpl. rewrite E. reflexivity.
      * clear IH. assert (F : forall t cur',
                      Csv.read_records r0 (TextIO.lines_from (cur ++ c :: cur') t)
                      = Csv.Fail e).
        { clear t. induction t as [|d t IHt]; intros cur'.
          - simpl. destruct (cur ++ c :: cur') eqn:E'; [destruct cur; discriminate|].
            rewrite <- E', read_records_line, feed_chars_app, Hr. simpl.
            rewrite E. reflexivity.
          - simpl. destruct (N.eqb d TextIO.LF).
            + rewrite read_records_line, <- app_assoc, feed_chars_app, Hr. simpl.
              rewrite E. reflexivity.
            + rewrite <- app_assoc. apply (IHt (cur' ++ [d])). }
        exact (F t []).
Qed.

Lemma runs_nil r : runs r [] r.
Proof. intros b t. exists b. reflexivity. Qed.

Lemma runs_app r s1 r1 s2 r2 :
  runs r s1 r1 -> runs r1 s2 r2 -> runs r (s1 ++ s2) r2.
Proof.
  intros H1 H2 b t. rewrite <- app_assoc.
  destruct (H1 b (s2 ++ t)) as [b1 ->]. apply H2.
Qed.

Lemma runs_char r c r' :
  c <> TextIO.LF -> Csv.parse_process_char r (Csv.Chr c) = Ok r' ->
  runs r [c] r'.
Proof.
  intros Hc E b t. exists false. simpl. rewrite E.
  destruct (N.eqb_spec c TextIO.LF); [contradiction|reflexivity].
Qed.

Lemma parse_add_char_short st fs f c :
  (N.of_nat (length f) < Csv.field_limit)%N ->
  Csv.parse_add_char {| Csv.state := st; Csv.fields := fs; Csv.field := f |} c
  = Ok {| Csv.state := st; Csv.fields := fs; Csv.field := f ++ [c] |}.
Proof.
  intros H. unfold Csv.parse_add_char. simpl.
  destruct (N.leb_spec Csv.field_limit (N.of_nat (length f))); [lia|reflexivity].
Qed.

Lemma short_app_lt acc c f :
  short (acc ++ c :: f) -> (N.of_nat (length acc) < Csv.field_limit)%N.
Proof. unfold short. rewrite length_app. simpl. lia. Qed.

(** The inside of a quoted field. *)
Lemma runs_quoted fs f : forall acc,
  short (acc ++ f) ->
  runs {| Csv.state := Csv.IN_QUOTED_FIELD; Csv.fields := fs; Csv.field := acc |}
       (Csv.double_quotes f)
       {| Csv.state := Csv.IN_QUOTED_FIELD; Csv.fields := fs;
          Csv.field := acc ++ f |}.
Proof.
  induction f as [|c f IH]; intros acc Hs.
  - rewrite app_nil_r. apply runs_nil.
  - pose proof (short_app_lt acc c f Hs) as Hlt.
    assert (Hs' : short ((acc ++ [c]) ++ f)) by (rewrite <- app_assoc; exact Hs).
    specialize (IH (acc ++ [c]) Hs'). rewrite <- app_assoc in IH. simpl in IH.
    simpl. destruct (N.eqb_spec c Csv.quotechar) as [->|Hq].
    + apply (runs_app _ [Csv.quotechar]
               {| Csv.state := Csv.QUOTE_IN_QUOTED_FIELD; Csv.fields := fs;
                  Csv.field := acc |}
               (Csv.quotechar :: Csv.double_quotes f));
        [apply runs_char; [discriminate|reflexivity]|].
      apply (runs_app _ [Csv.quotechar]
               {| Csv.state := Csv.IN_QUOTED_FIELD; Csv.fields := fs;
                  Csv.field := acc ++ [Csv.quotechar] |}
               (Csv.double_quotes f)); [|exact IH].
      apply runs_char; [discriminate|].
      unfold Csv.parse_process_char. cbn [Csv.state].
      rewrite N.eqb_refl, parse_add_char_short by exact Hlt. reflexivity.
    + apply (runs_app _ [c]
               {| Csv.state := Csv.IN_QUOTED_FIELD; Csv.fields := fs;
                  Csv.field := acc ++ [c] |}
               (Csv.double_quotes f)); [|exact IH].
      assert (E : Csv.parse_process_char
                    {| Csv.state := Csv.IN_QUOTED_FIELD; Csv.fields := fs;
                       Csv.field := acc |} (Csv.Chr c)
                  = Ok {| Csv.state := Csv.IN_QUOTED_FIELD; Csv.fields := fs;
                          Csv.field := acc ++ [c] |}).
      { unfold Csv.parse_process_char. simpl.
        destruct (N.eqb_spec c Csv.quotechar); [contradiction|].
        apply parse_add_char_short, Hlt. }
      destruct (N.eq_dec c TextIO.LF) as [->|Hl]; [|apply runs_char; assumption].
      intros b t. exists true. simpl. rewrite E. reflexivity.
Qed.

Lemma plain_spec f :
  Csv.needs_quotes f = false <-> Forall plain f.
Proof.
  unfold Csv.needs_quotes. induction f as [|c f IH]; simpl.
  - split; [constructor|reflexivity].
  - rewrite orb_false_iff, IH. unfold plain. cbn [existsb Csv.lineterminator].
    rewrite !orb_false_iff, !N.eqb_neq. split.
    + intros [[[H1 H2] [H3 [H4 _]]] H]. constructor; auto.
    + intros H. inversion H as [|? ? [H1 [H2 [H3 H4]]] Hf]; subst. auto 10.
Qed.

(** The inside of a field written without quotes. *)
Lemma runs_plain fs f : forall acc,
  Forall plain f -> short (acc ++ f) ->
  runs {| Csv.state := Csv.IN_FIELD; Csv.fields := fs; Csv.field := acc |} f
       {| Csv.state := Csv.IN_FIELD; Csv.fields := fs; Csv.field := acc ++ f |}.
Proof.
  induction f as [|c f IH]; intros acc Hp Hs.
  - rewrite app_nil_r. apply runs_nil.
  - inversion Hp as [|? ? (Hd & Hq & Hcr & Hlf) Hf]; subst.
    pose proof (short_app_lt acc c f Hs) as Hlt.
    assert (Hs' : short ((acc ++ [c]) ++ f)) by (rewrite <- app_assoc; exact Hs).
    specialize (IH (acc ++ [c]) Hf Hs'). rewrite <- app_assoc in IH.
    apply (runs_app _ [c]
             {| Csv.state := Csv.IN_FIELD; Csv.fields := fs;
                Csv.field := acc ++ [c] |} f); [|exact IH].
    apply runs_char; [exact Hlf|].
    unfold Csv.parse_process_char, Csv.is_newline. cbn [Csv.state].
    destruct (N.eqb_spec c TextIO.LF); [contradiction|].
    destruct (N.eqb_spec c TextIO.CR); [contradiction|].
    destruct (N.eqb_spec c Csv.delimiter); [contradiction|]. simpl.
    apply parse_add_char_short, Hlt.
Qed.

(** A field as the writer writes it is read back as the field. *)
Lemma runs_written_field fs f :
  short f ->
  exists r',
    runs {| Csv.state := Csv.START_FIELD; Csv.fields := fs; Csv.field := [] |}
         (Csv.join_append f) r' /\
    field_read r' /\ Csv.fields r' = fs /\ Csv.field r' = f.
Proof.
  intros Hs. unfold Csv.join_append.
  destruct (Csv.needs_quotes f) eqn:Hq.
  - exists {| Csv.state := Csv.QUOTE_IN_QUOTED_FIELD; Csv.fields := fs;
              Csv.field := f |}.
    split; [|unfold field_read; auto].
    apply (runs_app _ [Csv.quotechar]
             {| Csv.state := Csv.IN_QUOTED_FIELD; Csv.fields := fs;
                Csv.field := [] |}
             (Csv.double_quotes f ++ [Csv.quotechar]));
      [apply runs_char; [discriminate|reflexivity]|].
    apply (runs_app _ (Csv.double_quotes f)
             {| Csv.state := Csv.IN_QUOTED_FIELD; Csv.fields := fs;
                Csv.field := f |} [Csv.quotechar]);
      [apply (runs_quoted fs f []), Hs|].
    apply runs_char; [discriminate|reflexivity].
  - apply plain_spec in Hq. destruct f as [|c f].
    + exists {| Csv.state := Csv.START_FIELD; Csv.fields := fs; Csv.field := [] |}.
      split; [apply runs_nil|unfold field_read; auto].
    + exists {| Csv.state := Csv.IN_FIELD; Csv.fields := fs; Csv.field := c :: f |}.
      split; [|unfold field_read; auto].
      inversion Hq as [|? ? (Hd & Hqc & Hcr & Hlf) Hf]; subst.
      apply (runs_app _ [c]
               {| Csv.state := Csv.IN_FIELD; Csv.fields := fs; Csv.field := [c] |}
               f); [|apply (runs_plain fs f [c] Hf Hs)].
      apply runs_char; [exact Hlf|].
      unfold Csv.parse_process_char, Csv.start_field, Csv.is_newline.
      cbn [Csv.state].
      destruct (N.eqb_spec c TextIO.LF); [contradiction|].
      destruct (N.eqb_spec c TextIO.CR); [contradiction|].
      destruct (N.eqb_spec c Csv.quotechar); [contradiction|].
      destruct (N.eqb_spec c Csv.delimiter); [contradiction|]. reflexivity.
Qed.

Lemma after_delimiter r :
  field_read r ->
  Csv.parse_process_char r (Csv.Chr Csv.delimiter)
  = Ok {| Csv.state := Csv.START_FIELD;
          Csv.fields := Csv.fields r ++ [Csv.field r]; Csv.field := [] |}.
Proof.
  destruct r as [st fs f]. unfold field_read. simpl.
  intros [-> | [-> | ->]]; reflexivity.
Qed.

Lemma after_newline r b t :
  field_read r ->
  read_text b r (TextIO.LF :: t)
  = Csv.Yield (Csv.fields r ++ [Csv.field r]) (read_text true Csv.parse_reset t).
Proof.
  destruct r as [st fs f]. unfold field_read. simpl.
  intros [-> | [-> | ->]]; reflexivity.
Qed.

(** The fields of a record, written one after the other, are read back. *)
Lemma fields_parsed fs : forall acc b t,
  fs <> [] -> Forall short fs ->
  read_text b {| Csv.state := Csv.START_FIELD; Csv.fields := acc;
                 Csv.field := [] |}
    (Csv.join_fields fs ++ TextIO.LF :: t)
  = Csv.Yield (acc ++ fs) (read_text true Csv.parse_reset t).
Proof.
  induction fs as [|f fs IH]; intros acc b t Hne Hs; [congruence|].
  inversion Hs as [|? ? Hf Hfs]; subst.
  destruct (runs_written_field acc f Hf) as (r' & Hr & Hst & Hfields & Hfield).
  destruct fs as [|g fs].
  - simpl. destruct (Hr b (TextIO.LF :: t)) as [b' ->].
    rewrite after_newline by exact Hst. rewrite Hfields, Hfield. reflexivity.
  - change (Csv.join_fields (f :: g :: fs))
      with (Csv.join_append f ++ Csv.delimiter :: Csv.join_fields (g :: fs)).
    rewrite <- app_assoc.
    destruct (Hr b ((Csv.delimiter :: Csv.join_fields (g :: fs)) ++ TextIO.LF :: t))
      as [b' ->].
    simpl app. cbn [read_text]. rewrite after_delimiter by exact Hst.
    change (N.eqb Csv.delimiter TextIO.LF) with false. cbv iota.
    rewrite Hfields, Hfield, IH by (congruence || assumption).
    rewrite <- app_assoc. reflexivity.
Qed.

Lemma short_nil : short [].
Proof. unfold short. simpl. discriminate. Qed.

Lemma set_state_short s r : reader_short r -> reader_short (Csv.set_state s r).
Proof. auto. Qed.

Lemma parse_save_field_short r :
  reader_short r -> reader_short (Csv.parse_save_field r).
Proof.
  intros [Hf Hc]. split; simpl; [|apply short_nil].
  apply Forall_app; split; auto.
Qed.

Lemma parse_add_char_keeps_short r c r' :
  reader_short r -> Csv.parse_add_char r c = Ok r' -> reader_short r'.
Proof.
  unfold Csv.parse_add_char. intros [Hf Hc].
  destruct (N.leb_spec Csv.field_limit (N.of_nat (length (Csv.field r))))
    as [Hge|Hlt]; [discriminate|].
  intros E; inversion E; subst. split; simpl; [exact Hf|].
  unfold short. rewrite length_app. simpl. lia.
Qed.

Lemma add_then_set_short st r c r' :
  reader_short r ->
  bind (Csv.parse_add_char r c) (fun r1 => Ok (Csv.set_state st r1)) = Ok r' ->
  reader_short r'.
Proof.
  intros Hr. destruct (Csv.parse_add_char r c) as [r1|] eqn:Ha; simpl;
    intros H; inversion H. apply set_state_short.
  eapply parse_add_char_keeps_short; eauto.
Qed.

Lemma start_field_short r s r' :
  reader_short r -> Csv.start_field r s = Ok r' -> reader_short r'.
Proof.
  unfold Csv.start_field. intros Hr.
  destruct s as [c|];
    [|intros H; inversion H; apply set_state_short, parse_save_field_short, Hr].
  repeat match goal with |- context [if ?b then _ else _] => destruct b end;
    try (intros H; inversion H; subst;
         auto using set_state_short, parse_save_field_short; fail).
  apply add_then_set_short, Hr.
Qed.

Lemma parse_process_char_short r s r' :
  reader_short r -> Csv.parse_process_char r s = Ok r' -> reader_short r'.
Proof.
  unfold Csv.parse_process_char. intros Hr.
  destruct (Csv.state r); destruct s as [c|];
    repeat match goal with |- context [if ?b then _ else _] => destruct b end;
    first
      [ intros H; inversion H; subst;
        now auto using set_state_short, parse_save_field_short
      | apply start_field_short; now auto using set_state_short
      | eapply parse_add_char_keeps_short; now eauto
      | eapply add_then_set_short; now eauto ].
Qed.

Lemma feed_line_short line : forall r r',
  reader_short r -> Csv.feed_line r line = Ok r' -> reader_short r'.
Proof.
  induction line as [|c l IH]; simpl; intros r r' Hr.
  - apply parse_process_char_short, Hr.
  - destruct (Csv.parse_process_char r (Csv.Chr c)) as [r1|] eqn:H1; [|discriminate].
    simpl. apply IH. eapply parse_process_char_short; eauto.
Qed.

(** The reader gives fields of at most 131072 characters. *)
Lemma read_records_short lines : forall r,
  reader_short r ->
  Forall (Forall short) (records (Csv.read_records r lines)).
Proof.
  induction lines as [|l ls IH]; simpl; intros r Hr.
  - destruct (_ || _)%bool; simpl; constructor; [|constructor].
    apply parse_save_field_short, Hr.
  - destruct (Csv.feed_line r l) as [r1|] eqn:Hf; [|constructor].
    assert (reader_short r1) as Hr1 by (eapply feed_line_short; eauto).
    destruct (Csv.is_START_RECORD _); simpl; [|apply IH; auto].
    constructor; [apply Hr1|]. apply IH. split; [constructor|apply short_nil].
Qed.

Lemma translate_newlines_no_cr t :
  Forall (fun c => c <> TextIO.CR) (TextIO.translate_newlines t).
Proof.
  assert (H : forall n t, length t <= n ->
                          Forall (fun c => c <> TextIO.CR)
                                 (TextIO.translate_newlines t)).
  { clear t. induction n as [|n IH]; intros [|c t] Hn; simpl in Hn;
      try (constructor; fail); try lia.
    simpl. destruct (N.eqb_spec c TextIO.CR) as [->|Hc].
    - constructor; [discriminate|].
      destruct t as [|d t]; [constructor|].
      destruct (N.eqb d TextIO.LF); apply IH; simpl in *; lia.
    - constructor; [exact Hc|]. apply IH. lia. }
  apply (H (length t)). lia.
Qed.

Lemma join_append_head f :
  (f = [] /\ Csv.join_append f = []) \/
  exists c s, Csv.join_append f = c :: s /\ Csv.is_newline c = false.
Proof.
  unfold Csv.join_append. destruct (Csv.needs_quotes f) eqn:Hq.
  - right. eexists _, _. split; reflexivity.
  - destruct f as [|c f]; [auto|]. right. exists c, f. split; [reflexivity|].
    apply plain_spec in Hq. inversion Hq as [|? ? (_ & _ & Hcr & Hlf) _]; subst.
    unfold Csv.is_newline.
    destruct (N.eqb_spec c TextIO.LF); [contradiction|].
    destruct (N.eqb_spec c TextIO.CR); [contradiction|]. reflexivity.
Qed.

Lemma start_of_record b c t :
  Csv.is_newline c = false ->
  read_text b Csv.parse_reset (c :: t)
  = read_text b {| Csv.state := Csv.START_FIELD; Csv.fields := [];
                   Csv.field := [] |} (c :: t).
Proof.
  intros H. simpl. unfold Csv.parse_process_char. simpl. rewrite H. reflexivity.
Qed.

(** A record is read back from its text. *)
Lemma row_parsed r b t :
  r <> [] -> Forall short r ->
  read_text b Csv.parse_reset (row_text r ++ t)
  = Csv.Yield r (read_text true Csv.parse_reset t).
Proof.
  intros Hne Hs. unfold row_text.
  destruct r as [|f r]; [congruence|].
  destruct f as [|c f]; [destruct r as [|g r]; [reflexivity|]|].
  - change (Csv.join_fields ([] :: g :: r))
      with (Csv.join_append [] ++ Csv.delimiter :: Csv.join_fields (g :: r)).
    change (Csv.join_append []) with (@nil N). simpl app. rewrite <- app_assoc.
    rewrite start_of_record by reflexivity.
    apply (fields_parsed ([] :: g :: r) [] b t); [discriminate|exact Hs].
  - change (read_text b Csv.parse_reset
              ((Csv.join_fields ((c :: f) :: r) ++ [TextIO.LF]) ++ t)
            = Csv.Yield ((c :: f) :: r) (read_text true Csv.parse_reset t)).
    rewrite <- app_assoc. change ([TextIO.LF] ++ t) with (TextIO.LF :: t).
    assert (Hh : exists d s, Csv.join_fields ((c :: f) :: r) = d :: s /\
                             Csv.is_newline d = false).
    { destruct (join_append_head (c :: f)) as [[Hf _]|(d & s & E & Hd)];
        [discriminate|].
      destruct r as [|g r].
      - exists d, s. auto.
      - change (Csv.join_fields ((c :: f) :: g :: r))
          with (Csv.join_append (c :: f) ++ Csv.delimiter
                  :: Csv.join_fields (g :: r)).
        rewrite E. simpl. eauto. }
    destruct Hh as (d & s & E & Hd).
    pose proof (fields_parsed ((c :: f) :: r) [] b t ltac:(discriminate) Hs) as P.
    rewrite E in P. rewrite E. rewrite <- app_comm_cons in P.
    rewrite <- app_comm_cons. rewrite start_of_record by exact Hd. exact P.
Qed.

(** Records are read back from their text. *)
Lemma rows_parsed rows :
  Forall readable_row rows ->
  read_text true Csv.parse_reset (concat (map row_text rows)) = yield_all rows.
Proof.
  induction 1 as [|r rows (Hne & Hs & _) _ IH]; [reflexivity|].
  simpl. rewrite row_parsed by assumption. rewrite IH. reflexivity.
Qed.

Lemma translate_newlines_line s t :
  Forall (fun c => c <> TextIO.CR) s ->
  TextIO.translate_newlines (s ++ TextIO.CR :: TextIO.LF :: t)
  = s ++ TextIO.LF :: TextIO.translate_newlines t.
Proof.
  induction 1 as [|c s Hc _ IH]; [reflexivity|]. simpl.
  destruct (N.eqb_spec c TextIO.CR); [contradiction|]. rewrite IH. reflexivity.
Qed.

(** Read with universal newlines, the text of the writer is the text of the
    records, each ended by a line feed. *)
Lemma translate_text_of rows :
  Forall (fields_ok (fun c => c <> TextIO.CR)) rows ->
  TextIO.translate_newlines (text_of rows) = concat (map row_text rows).
Proof.
  induction 1 as [|r rows Hr _ IH]; [reflexivity|].
  unfold text_of. simpl. fold (text_of rows).
  assert (E : exists body,
             Csv.format_row r = body ++ [TextIO.CR; TextIO.LF] /\
             row_text r = body ++ [TextIO.LF] /\
             Forall (fun c => c <> TextIO.CR) body).
  { unfold Csv.format_row, row_text.
    assert (J : Forall (fun c => c <> TextIO.CR) (Csv.join_fields r))
      by (apply join_fields_ok; [discriminate|discriminate|exact Hr]).
    destruct r as [|[|c f] [|g r]];
      (eexists; split; [reflexivity|split; [reflexivity|]]); try exact J.
    repeat constructor; discriminate. }
  destruct E as (body & -> & -> & Hb).
  rewrite <- !app_assoc. simpl app.
  rewrite translate_newlines_line by exact Hb. rewrite IH. reflexivity.
Qed.

(** Reading back the text of records gives the records. *)
Lemma reader_of_text_of rows :
  Forall readable_row rows ->
  Csv.reader_of (TextIO.readlines (text_of rows)) = yield_all rows.
Proof.
  intros H. unfold Csv.reader_of, TextIO.readlines.
  rewrite translate_text_of.
  - rewrite (read_records_text _ Csv.parse_reset [] Csv.parse_reset eq_refl).
    apply rows_parsed, H.
  - eapply Forall_impl; [exact H|]. intros r (_ & _ & Hr). exact Hr.
Qed.

Lemma header_readable : readable_row header.
Proof.
  split; [discriminate|]. split.
  - repeat constructor; unfold short; vm_compute; discriminate.
  - unfold fields_ok. repeat constructor; discriminate.
Qed.

Lemma input_rows_readable content :
  Forall readable_row (data_rows (records (input_stream content))).
Proof.
  assert (Hs : Forall (Forall short) (records (input_stream content))).
  { apply read_records_short. split; [constructor|apply short_nil]. }
  assert (Hc : Forall (fields_ok (fun c => c <> TextIO.CR))
                 (records (input_stream content))).
  { apply read_records_ok; [split; constructor|].
    apply lines_from_ok; [constructor|apply translate_newlines_no_cr]. }
  unfold data_rows.
  induction (records (input_stream content)) as [|r rows IH]; [constructor|].
  inversion Hs as [|? ? Hs1 Hs2]; inversion Hc as [|? ? Hc1 Hc2]; subst.
  simpl. destruct (valid_row r) eqn:Hv; [|apply IH; assumption].
  simpl. constructor; [|apply IH; assumption].
  unfold valid_row in Hv. apply Nat.leb_le in Hv.
  split; [destruct r; [simpl in Hv; lia|discriminate]|].
  rewrite <- (firstn_skipn 8 r) in Hs1, Hc1. unfold fields_ok in Hc1.
  apply Forall_app in Hs1 as [Hs1 _]. apply Forall_app in Hc1 as [Hc1 _].
  split; assumption.
Qed.

Lemma decode_ignore_encoded t bytes :
  Utf8.encode t = Ok bytes -> decode_ignore bytes = t.
Proof.
  intros E. apply decode_encode in E. unfold Utf8.decode in E.
  apply decode_ignore_of_valid in E. unfold decode_ignore, Utf8.decode.
  rewrite E. reflexivity.
Qed.

(** What was written is read back. *)
Lemma written_output_is_read w file_path content :
  open_read w file_path = Ok content ->
  open_out_fault w = None ->
  let o := convert_to_wigle_csv w file_path in
  exists bytes written,
    fs_after o !! output_file_of file_path = Some bytes /\
    input_stream bytes = yield_all written /\
    ((written = [] /\ returned o = None) \/
     exists data rest,
       written = header :: data /\
       data_rows (records (input_stream content)) = data ++ rest /\
       (returned o <> None -> rest = [])).
Proof.
  intros Hr Ho. cbv zeta.
  destruct (convert_output_text w file_path content Hr Ho)
    as (written & bytes & Hf & He & Hw).
  exists bytes, written. split; [exact Hf|]. split; [|exact Hw].
  unfold input_stream. rewrite (decode_ignore_encoded _ _ He).
  apply reader_of_text_of.
  destruct Hw as [[-> _]|(data & rest & -> & Hd & _)]; [constructor|].
  constructor; [apply header_readable|].
  pose proof (input_rows_readable content) as H. rewrite Hd in H.
  apply Forall_app in H as [H _]. exact H.
Qed.



(** Records of exactly 8 fields are all kept, as they are. *)
Lemma data_rows_of_eight rows :
  Forall (fun r => length r = 8) rows -> data_rows rows = rows.
Proof.
  induction 1 as [|r rows Hr _ IH]; [reflexivity|].
  rewrite data_rows_cons. unfold valid_row. rewrite Hr. simpl Nat.leb. cbv iota.
  rewrite IH. f_equal. apply firstn_all2. lia.
Qed.

Lemma data_rows_length rows :
  Forall (fun r => length r = 8) (data_rows rows).
Proof.
  unfold data_rows. induction rows as [|r rows IH]; [constructor|]. simpl.
  destruct (valid_row r) eqn:Hv; [|exact IH]. simpl. constructor; [|exact IH].
  unfold valid_row in Hv. apply Nat.leb_le in Hv.
  rewrite length_firstn. lia.
Qed.

(** X19: the converter does not recognise its own output. Converting a file
    it has written keeps every record of it, the header line included, which
    has 8 fields and is taken for data: the new output is a header line
    followed by the whole of the file converted. *)
Theorem converting_an_output_copies_it
        (w1 w2 : world) (path1 path2 : pystr) (content : list Byte.byte) :
  fs w1 !! path1 = Some content ->
  let o1 := convert_to_wigle_csv w1 path1 in
  let o2 := convert_to_wigle_csv w2 path2 in
  returned o1 <> None ->
  fs w2 !! path2 = fs_after o1 !! output_file_of path1 ->
  no_faults w2 ->
  exists bytes,
    fs_after o1 !! output_file_of path1 = Some bytes /\
    returned o2 = Some (output_file_of path2) /\
    fs_after o2 !! output_file_of path2 = Some (header_bytes ++ bytes).
Proof.
  intros Hfs o1 o2 Hret Hin Hnf.
  assert (Hopen : open_read w1 path1 = Ok content /\ open_out_fault w1 = None).
  { unfold o1 in Hret. rewrite convert_eq in Hret. cbv zeta in Hret.
    destruct (open_read w1 path1) as [c|e] eqn:Er; [|destruct Hret; reflexivity].
    destruct (open_out_fault w1) eqn:Eo; [destruct Hret; reflexivity|].
    unfold open_read in Er. destruct (open_in_fault w1); [discriminate|].
    rewrite Hfs in Er. auto. }
  destruct Hopen as [Hr Ho].
  destruct (written_output_is_read w1 path1 content Hr Ho)
    as (bytes & written & Hf & Hs & Hw).
  fold o1 in Hf, Hw. exists bytes. split; [exact Hf|].
  destruct Hw as [[_ Hnone]|(data & rest & -> & Hd & Hrest)]; [congruence|].
  rewrite (Hrest Hret), app_nil_r in Hd. subst data.
  rewrite Hf in Hin.
  destruct (faultless_run_outcome w2 path2 bytes _ Hin Hnf Hs)
    as (Hr2 & _ & bytes2 & Hb2 & Hf2).
  fold o2 in Hr2, Hf2. split; [exact Hr2|]. rewrite Hf2. f_equal.
  rewrite data_rows_of_eight in Hb2.
  - destruct (convert_success_output w1 path1 content Hfs Hret)
      as [(b & Hb & Hfb) _]. fold o1 in Hfb. rewrite Hf in Hfb.
    injection Hfb as ->.
    rewrite (render_header_cons _ _ (render_header_cons _ _ Hb)) in Hb2.
    injection Hb2 as <-. reflexivity.
  - constructor; [reflexivity|apply data_rows_length].
Qed.

Lemma converting_an_output_copies_it_witness :
  let o1 := convert_to_wigle_csv sample_world (py "capture.log") in
  let o2 := convert_to_wigle_csv second_world (py "capture.wigle.csv") in
  exists bytes,
    fs_after o1 !! output_file_of (py "capture.log") = Some bytes /\
    returned o2 = Some (output_file_of (py "capture.wigle.csv")) /\
    fs_after o2 !! output_file_of (py "capture.wigle.csv")
    = Some (header_bytes ++ bytes).
Proof.
  apply (converting_an_output_copies_it sample_world second_world
           (py "capture.log") (py "capture.wigle.csv") sample_log).
  - reflexivity.
  - vm_compute. discriminate.
  - reflexivity.
  - vm_compute. auto.
Defined.




Lemma marked_not_start r : marked r -> Csv.fields r = [] ->
  Csv.is_START_RECORD (Csv.state r) = false.
Proof.
  unfold marked. intros M E. rewrite E in M. destruct M as [-> _]. reflexivity.
Qed.

Lemma marked_fields r :
  marked r -> Csv.fields r <> [] \/ Csv.is_START_RECORD (Csv.state r) = false.
Proof.
  intros M. destruct (Csv.fields r) eqn:E; [right|left; discriminate].
  apply marked_not_start; assumption.
Qed.




(** A text without "\r" is read as it is. *)
Lemma translate_newlines_plain t :
  Forall (fun c => c <> TextIO.CR) t -> TextIO.translate_newlines t = t.
Proof.
  induction 1 as [|c t Hc _ IH]; [reflexivity|]. simpl.
  apply N.eqb_neq in Hc. rewrite Hc, IH. reflexivity.
Qed.

Lemma with_cr_head t :
  match with_line_end [TextIO.CR] t with
  | [] => True
  | d :: _ => N.eqb d TextIO.LF = false
  end.
Proof.
  destruct t as [|c t]; [exact I|]. unfold with_line_end. simpl.
  destruct (N.eqb c TextIO.LF) eqn:E; simpl; [reflexivity|exact E].
Qed.

(** Universal newlines undo the change of line ends. *)
Lemma translate_with_line_end ending t :
  ending = [TextIO.CR; TextIO.LF] \/ ending = [TextIO.CR] ->
  Forall (fun c => c <> TextIO.CR) t ->
  TextIO.translate_newlines (with_line_end ending t) = t.
Proof.
  intros He. induction 1 as [|c t Hc _ IH]; [reflexivity|].
  change (with_line_end ending (c :: t))
    with ((if N.eqb c TextIO.LF then ending else [c]) ++ with_line_end ending t).
  destruct (N.eqb c TextIO.LF) eqn:E.
  - apply N.eqb_eq in E. subst c.
    destruct He as [-> | ->].
    + simpl. rewrite IH. reflexivity.
    + cbn [app]. rewrite <- IH at 2.
      pose proof (with_cr_head t) as Hh.
      destruct (with_line_end [TextIO.CR] t) as [|d r] eqn:Er.
      * reflexivity.
      * cbn [TextIO.translate_newlines].
        change (N.eqb TextIO.CR TextIO.CR) with true. cbv iota.
        rewrite Hh. reflexivity.
  - apply N.eqb_neq in Hc. simpl. rewrite Hc, IH. reflexivity.
Qed.

(** The result of a run depends on the input file through the records read
    only. *)
Lemma same_stream_same_output w1 w2 path1 path2 content1 content2 :
  open_read w1 path1 = Ok content1 ->
  open_read w2 path2 = Ok content2 ->
  open_out_fault w1 = None -> open_out_fault w2 = None ->
  (forall k, read_fault w1 k = read_fault w2 k) ->
  (forall k, write_fault w1 k = write_fault w2 k) ->
  input_stream content1 = input_stream content2 ->
  let o1 := convert_to_wigle_csv w1 path1 in
  let o2 := convert_to_wigle_csv w2 path2 in
  (returned o1 = None <-> returned o2 = None) /\
  fs_after o1 !! output_file_of path1 = fs_after o2 !! output_file_of path2.
Proof.
  intros Hi1 Hi2 Ho1 Ho2 Hr Hw Hs. cbv zeta.
  destruct (convert_opened w1 path1 content1 Hi1 Ho1) as (F1 & R1 & _).
  destruct (convert_opened w2 path2 content2 Hi2 Ho2) as (F2 & R2 & _).
  cbv zeta in F1, R1, F2, R2. rewrite F1, F2, R1, R2.
  rewrite !with_block_eq, Hw, Hs.
  destruct (write_fault w2 0) as [e|]; [simpl; tauto|].
  pose proof (run_loop_same_data w1 w2 (total_bytes_of w1 path1)
                (total_bytes_of w2 path2) (input_stream content2) 0
                (initial_state header_bytes
                   [Starting path1 (output_file_of path1)])
                (initial_state header_bytes
                   [Starting path2 (output_file_of path2)])
                Hr Hw (conj eq_refl eq_refl)) as H.
  destruct (run_loop w1 _ _ _ _) as [a|a e1], (run_loop w2 _ _ _ _) as [b|b e2];
    simpl in H; try contradiction.
  - destruct H as [_ Ho]. simpl. rewrite Ho. split; [|reflexivity].
    split; discriminate.
  - destruct H as [[_ Ho] _]. simpl. rewrite Ho. tauto.
Qed.

(** X21: the ends of the lines of the input do not matter. A text whose lines
    end with "\r\n" or with "\r" is converted as the same text with lines
    ending with "\n": the input is opened in universal newlines mode. *)
Theorem line_ends_do_not_matter
        (w1 w2 : world) (path : pystr) (t ending : pystr)
        (unix other : list Byte.byte) :
  ending = [TextIO.CR; TextIO.LF] \/ ending = [TextIO.CR] ->
  Forall (fun c => c <> TextIO.CR) t ->
  Utf8.encode t = Ok unix ->
  Utf8.encode (with_line_end ending t) = Ok other ->
  fs w1 !! path = Some unix ->
  fs w2 !! path = Some other ->
  no_faults w1 -> no_faults w2 ->
  let o1 := convert_to_wigle_csv w1 path in
  let o2 := convert_to_wigle_csv w2 path in
  input_stream other = input_stream unix /\
  returned o1 = returned o2 /\
  fs_after o1 !! output_file_of path = fs_after o2 !! output_file_of path.
Proof.
  intros He Ht Eu Eo F1 F2 (I1 & O1 & R1 & W1) (I2 & O2 & R2 & W2).
  assert (Hs : input_stream other = input_stream unix).
  { unfold input_stream, TextIO.readlines.
    rewrite (decode_ignore_encoded _ _ Eu), (decode_ignore_encoded _ _ Eo).
    rewrite translate_with_line_end, translate_newlines_plain by assumption.
    reflexivity. }
  cbv zeta. split; [exact Hs|].
  assert (A1 : open_read w1 path = Ok unix) by (apply open_read_ok; auto).
  assert (A2 : open_read w2 path = Ok other) by (apply open_read_ok; auto).
  pose proof (same_stream_same_output w1 w2 path path unix other A1 A2 O1 O2)
    as H.
  cbv zeta in H. destruct H as [Hn Hf].
  - intros k. rewrite R1, R2. reflexivity.
  - intros k. rewrite W1, W2. reflexivity.
  - symmetry. exact Hs.
  - split; [|exact Hf].
    destruct (convert_opened w1 path unix A1 O1) as (_ & E1 & _).
    destruct (convert_opened w2 path other A2 O2) as (_ & E2 & _).
    cbv zeta in E1, E2. rewrite E1, E2 in *.
    destruct (with_block w1 _ _ _), (with_block w2 _ _ _);
      try reflexivity.
    + destruct Hn as [_ Hn]. specialize (Hn eq_refl). discriminate.
    + destruct Hn as [Hn _]. specialize (Hn eq_refl). discriminate.
Qed.

Lemma line_ends_do_not_matter_witness :
  exists other,
    Utf8.encode (with_line_end [TextIO.CR; TextIO.LF] unix_text) = Ok other /\
    let o1 := convert_to_wigle_csv (world_of sample_log) (py "capture.log") in
    let o2 := convert_to_wigle_csv (world_of other) (py "capture.log") in
    input_stream other = input_stream sample_log /\
    returned o1 = returned o2 /\
    fs_after o1 !! output_file_of (py "capture.log")
    = fs_after o2 !! output_file_of (py "capture.log").
Proof.
  eexists. split; [vm_compute; reflexivity|].
  apply (line_ends_do_not_matter _ _ (py "capture.log") unix_text
           [TextIO.CR; TextIO.LF]).
  - left. reflexivity.
  - unfold unix_text. repeat (constructor; [discriminate|]). constructor.
  - vm_compute. reflexivity.
  - vm_compute. reflexivity.
  - reflexivity.
  - reflexivity.
  - vm_compute. auto.
  - vm_compute. auto.
Defined.
